(** * Dashboard_to_gpx: coordinate parsing, trajectory sanity check, GPX output

    A shallow embedding of [src/Dashboard_to_gpx.py].

    - Python [float] is IEEE-754 binary64: Rocq's primitive [float], whose
      operations are the same correctly rounded ones.
    - Python [str] is a list of code points; the OCR text is modelled over the
      code points below 256 ([ascii]), which hold every character of the OCR
      whitelist.  Among them the decimal digits [\d] are exactly [0]-[9].
    - A Python exception is a value of [exn]; a function that can raise
      returns a [result].
    - The C mathematics library behind [math.sin], [math.cos], [math.atan2]
      and [float.__pow__] is a parameter ([Libm]); Python's own argument and
      result checks around it are modelled.
    - Of [extract_coords_from_video] the loop over the frames is modelled
      from the recognised texts on, with the sanity check and the track file
      that follow it; reading the video and recognising the characters
      (OpenCV, Tesseract) are outside. *)

From Stdlib Require Import ZArith List Bool Ascii Floats Lia Sorted.
From Stdlib Require String.
Import ListNotations String.StringSyntax.
Delimit Scope string_scope with string.
Bind Scope string_scope with String.string.

(* ================================================================= *)
(** ** Exceptions *)

Inductive exn : Set :=
| ValueError
| OverflowError
| ZeroDivisionError
| TypeError.

Inductive result (A : Type) : Type :=
| Ok (a : A)
| Raise (e : exn).

Arguments Ok {A} a.
Arguments Raise {A} e.

Definition bind {A B : Type} (m : result A) (f : A -> result B) : result B :=
  match m with
  | Ok a => f a
  | Raise e => Raise e
  end.

Declare Scope py_scope.
Delimit Scope py_scope with py.
Notation "x <- m ;; k" := (bind m (fun x => k))
  (at level 61, m at next level, right associativity) : py_scope.
Notation "' p <- m ;; k" := (bind m (fun p => k))
  (at level 61, p pattern, m at next level, right associativity) : py_scope.

(* ================================================================= *)
(** ** Text and the regular-expression engine *)

Definition text := list ascii.

Definition charset := ascii -> bool.

(** The fragment of [re] syntax the program uses.  Repetition is over a
    character class only, which is all the pattern needs. *)
Inductive regex : Type :=
| Eps
| Chars (p : charset)
| Cat (r1 r2 : regex)
| Opt (r : regex)
| Rep (p : charset) (lo : nat) (hi : option nat)
| Group (i : nat) (r : regex).

(** Capture groups: the most recent capture of a group comes first. *)
Definition captures := list (nat * text).

Fixpoint lookup_group (caps : captures) (i : nat) : option text :=
  match caps with
  | [] => None
  | (j, w) :: rest => if Nat.eqb i j then Some w else lookup_group rest i
  end.

(** The part of [s] read when [s'] is what remains. *)
Definition consumed (s s' : text) : text :=
  firstn (length s - length s') s.

Definition may_take (hi : option nat) : bool :=
  match hi with
  | Some O => false
  | _ => true
  end.

Section Backtracking.
Variable A : Type.

(** [p{lo,hi}], greedy: one more character first, fewer on failure. *)
Fixpoint match_rep (p : charset) (lo : nat) (hi : option nat) (s : text)
         (k : text -> option A) {struct s} : option A :=
  let stop := match lo with O => k s | S _ => None end in
  match s with
  | c :: s' =>
      if p c && may_take hi then
        match match_rep p (Nat.pred lo) (option_map Nat.pred hi) s' k with
        | Some a => Some a
        | None => stop
        end
      else stop
  | [] => stop
  end.

(** The backtracking matcher, in continuation-passing style: [k] is the
    rest of the pattern; the first success in priority order wins. *)
Fixpoint match_re (r : regex) (s : text) (caps : captures)
         (k : text -> captures -> option A) {struct r} : option A :=
  match r with
  | Eps => k s caps
  | Chars p =>
      match s with
      | c :: s' => if p c then k s' caps else None
      | [] => None
      end
  | Cat r1 r2 =>
      match_re r1 s caps (fun s1 caps1 => match_re r2 s1 caps1 k)
  | Opt r1 =>
      match match_re r1 s caps k with
      | Some a => Some a
      | None => k s caps
      end
  | Rep p lo hi => match_rep p lo hi s (fun s' => k s' caps)
  | Group i r1 =>
      match_re r1 s caps (fun s' caps' => k s' ((i, consumed s s') :: caps'))
  end.
End Backtracking.

Arguments match_rep {A} p lo hi s k.
Arguments match_re {A} r s caps k.

(** A match object: where the match starts, what it spans, its groups. *)
Record match_object : Type := MatchObject {
  m_start : nat;
  m_span : text;
  m_groups : captures
}.

Definition group (m : match_object) (i : nat) : option text :=
  lookup_group (m_groups m) i.

Definition match_at (r : regex) (s : text) (pos : nat) : option match_object :=
  match_re r s [] (fun s' caps => Some (MatchObject pos (consumed s s') caps)).

(** [pattern.search(text)]: the first position, left to right, where the
    pattern matches. *)
Fixpoint search_from (r : regex) (s : text) (pos : nat) : option match_object :=
  match match_at r s pos with
  | Some m => Some m
  | None =>
      match s with
      | [] => None
      | _ :: s' => search_from r s' (S pos)
      end
  end.

Definition search (r : regex) (s : text) : option match_object :=
  search_from r s 0.

(* ----------------------------------------------------------------- *)
(** *** The coordinate pattern *)

Definition code (c : ascii) : nat := nat_of_ascii c.

Definition is_char (n : nat) : charset := fun c => Nat.eqb (code c) n.

(** [\d] *)
Definition is_digit : charset :=
  fun c => Nat.leb 48 (code c) && Nat.leb (code c) 57.

Definition minus_sign : nat := 45.
Definition full_stop : nat := 46.
Definition degree_sign : nat := 176.

(** [[ ,°]] *)
Definition is_sep : charset :=
  fun c => is_char 32 c || is_char 44 c || is_char degree_sign c.

(** [[NnSs]] *)
Definition is_ns : charset :=
  fun c => is_char 78 c || is_char 110 c || is_char 83 c || is_char 115 c.

(** [[EeWw]] *)
Definition is_ew : charset :=
  fun c => is_char 69 c || is_char 101 c || is_char 87 c || is_char 119 c.

(** [[^0-9\-]] *)
Definition is_filler : charset :=
  fun c => negb (is_digit c || is_char minus_sign c).

(** [-?\d{1,3}\.\d+] *)
Definition number : regex :=
  Cat (Opt (Chars (is_char minus_sign)))
      (Cat (Rep is_digit 1 (Some 3))
           (Cat (Chars (is_char full_stop))
                (Rep is_digit 1 None))).

(** [(-?\d{1,3}\.\d+)[ ,°]*([NnSs])?[^0-9\-]*(-?\d{1,3}\.\d+)[ ,°]*([EeWw])?] *)
Definition pattern : regex :=
  Cat (Group 1 number)
      (Cat (Rep is_sep 0 None)
           (Cat (Opt (Group 2 (Chars is_ns)))
                (Cat (Rep is_filler 0 None)
                     (Cat (Group 3 number)
                          (Cat (Rep is_sep 0 None)
                               (Opt (Group 4 (Chars is_ew)))))))).

(* ================================================================= *)
(** ** [float(str)] on decimal literals *)

Definition digit_value (c : ascii) : Z := Z.of_nat (code c) - 48.

Definition digits_value (ds : text) : Z :=
  fold_left (fun acc c => 10 * acc + digit_value c)%Z ds 0%Z.

(** The binary64 nearest to [n / d] for positive [n] and [d], ties to even. *)
Definition nearest_quotient (n d : positive) : float :=
  SF2Prim (SFdiv prec emax (S754_finite false n 0) (S754_finite false d 0)).

(** The binary64 nearest to [(-1)^neg * n / 10^k], for [0 <= n]. *)
Definition float_of_decimal (neg : bool) (n : Z) (k : nat) : float :=
  let magnitude :=
    match n with
    | Zpos p => nearest_quotient p (Z.to_pos (10 ^ Z.of_nat k))
    | _ => 0%float
    end in
  if neg then (- magnitude)%float else magnitude.

Definition split_sign (s : text) : bool * text :=
  match s with
  | c :: s' =>
      if is_char minus_sign c then (true, s')
      else if is_char 43 c then (false, s')
      else (false, s)
  | [] => (false, [])
  end.

Fixpoint span_digits (s : text) : text * text :=
  match s with
  | c :: s' =>
      if is_digit c then let (ds, rest) := span_digits s' in (c :: ds, rest)
      else ([], s)
  | [] => ([], [])
  end.

Definition nonempty (s : text) : bool :=
  match s with [] => false | _ :: _ => true end.

(** [float(s)] for the literals [[+-]digits[.digits]] (a digit on one side
    of the point at least).  The other spellings [float] reads (exponents,
    [inf], [nan], blanks, underscores) are answered [ValueError] here: they
    are outside this model, and the pattern's groups never have them. *)
Definition python_float (s : text) : result float :=
  let (neg, body) := split_sign s in
  let (ip, rest) := span_digits body in
  match rest with
  | [] =>
      if nonempty ip then Ok (float_of_decimal neg (digits_value ip) 0)
      else Raise ValueError
  | c :: rest' =>
      if is_char full_stop c then
        let (fp, tail) := span_digits rest' in
        match tail with
        | [] =>
            if nonempty (ip ++ fp)
            then Ok (float_of_decimal neg (digits_value (ip ++ fp)) (length fp))
            else Raise ValueError
        | _ :: _ => Raise ValueError
        end
      else Raise ValueError
  end.

(** [float(match.group(i))]: a group that took no part is [None], and
    [float(None)] raises [TypeError]. *)
Definition float_of_group (g : option text) : result float :=
  match g with
  | Some w => python_float w
  | None => Raise TypeError
  end.

(** [str.upper] on the letters [a]-[z]; the program applies it to one
    hemisphere letter. *)
Definition upper_char (c : ascii) : ascii :=
  if Nat.leb 97 (code c) && Nat.leb (code c) 122
  then ascii_of_nat (code c - 32) else c.

Definition upper (s : text) : text := map upper_char s.

Definition text_eqb (a b : text) : bool :=
  if list_eq_dec ascii_dec a b then true else false.

Definition letter_S : text := [ascii_of_nat 83].
Definition letter_W : text := [ascii_of_nat 87].

(** Truth value of an optional group: [None] and the empty string are false. *)
Definition truthy (g : option text) : option text :=
  match g with
  | Some (c :: w) => Some (c :: w)
  | _ => None
  end.

Local Open Scope py_scope.

(* ================================================================= *)
(** ** [extract_coords_from_text] *)

Definition extract_coords_from_text (txt : text) : result (option (float * float)) :=
  match search pattern txt with
  | Some m =>
      lat <- float_of_group (group m 1) ;;
      lon <- float_of_group (group m 3) ;;
      let ns := group m 2 in
      let ew := group m 4 in
      let lat :=
        match truthy ns with
        | Some l => if text_eqb (upper l) letter_S then (- abs lat)%float else abs lat
        | None => lat
        end in
      let lon :=
        match truthy ew with
        | Some l => if text_eqb (upper l) letter_W then (- abs lon)%float else abs lon
        | None => lon
        end in
      Ok (Some (lat, lon))
  | None => Ok None
  end.

(* ================================================================= *)
(** ** [datetime] *)

(** A naive [datetime.datetime]: the fields Python keeps. *)
Record datetime : Set := Datetime {
  year : Z;
  month : Z;
  day : Z;
  hour : Z;
  minute : Z;
  second : Z;
  microsecond : Z
}.

Local Open Scope Z_scope.

Definition is_leap (y : Z) : bool :=
  (y mod 4 =? 0) && (negb (y mod 100 =? 0) || (y mod 400 =? 0)).

Definition DAYS_IN_MONTH : list Z :=
  [-1; 31; 28; 31; 30; 31; 30; 31; 31; 30; 31; 30; 31].

(** [_days_in_month] *)
Definition days_in_month (y m : Z) : Z :=
  if (m =? 2) && is_leap y then 29 else nth (Z.to_nat m) DAYS_IN_MONTH 0.

(** The ranges the [datetime] constructor enforces ([_check_date_fields] and
    [_check_time_fields]): the year from 1 to 9999, the month from 1 to 12,
    the day from 1 to the length of the month in that year, and the time of
    day. *)
Definition valid_datetime (d : datetime) : Prop :=
  1 <= year d <= 9999 /\ 1 <= month d <= 12 /\
  1 <= day d <= days_in_month (year d) (month d) /\
  0 <= hour d <= 23 /\ 0 <= minute d <= 59 /\ 0 <= second d <= 59 /\
  0 <= microsecond d <= 999999.

Definition days_before_year (y : Z) : Z :=
  let y := y - 1 in y * 365 + y / 4 - y / 100 + y / 400.

Definition DAYS_BEFORE_MONTH : list Z :=
  [-1; 0; 31; 59; 90; 120; 151; 181; 212; 243; 273; 304; 334].

Definition days_before_month (y m : Z) : Z :=
  nth (Z.to_nat m) DAYS_BEFORE_MONTH 0
  + (if (2 <? m) && is_leap y then 1 else 0).

Definition ymd2ord (y m d : Z) : Z :=
  days_before_year y + days_before_month y m + d.

Definition toordinal (d : datetime) : Z := ymd2ord (year d) (month d) (day d).

(** A [timedelta], as the number of microseconds it spans (its normal form
    [(days, seconds, microseconds)] is this number written in mixed radix). *)
Definition timedelta := Z.

(** [datetime.__sub__] *)
Definition datetime_sub (a b : datetime) : timedelta :=
  let days := toordinal a - toordinal b in
  let secs1 := second a + minute a * 60 + hour a * 3600 in
  let secs2 := second b + minute b * 60 + hour b * 3600 in
  (days * 86400 + (secs1 - secs2)) * 1000000 + (microsecond a - microsecond b).

(** [int / int] for a positive divisor: the nearest binary64, the sign put
    on the rounded magnitude. *)
Definition int_true_divide (a : Z) (b : positive) : float :=
  match a with
  | Z0 => 0%float
  | Zpos p => nearest_quotient p b
  | Zneg p => (- nearest_quotient p b)%float
  end.

(** [timedelta.total_seconds] *)
Definition total_seconds (td : timedelta) : float :=
  int_true_divide td 1000000.

(** [timedelta(seconds=n)] added to a [datetime] is outside the sanity check;
    readings are ordered by the instant they stand for. *)
Definition instant (d : datetime) : Z :=
  datetime_sub d (Datetime 1 1 1 0 0 0 0).

(* ----------------------------------------------------------------- *)
(** *** Decimal output *)

Definition digit_char (d : Z) : ascii := ascii_of_nat (48 + Z.to_nat d).

(** The decimal digits of [n], the least significant first; [fuel] bounds
    their number. *)
Fixpoint decimal_rev (fuel : nat) (n : Z) : text :=
  match fuel with
  | O => []
  | S fuel' =>
      digit_char (n mod 10)
      :: (if n <? 10 then [] else decimal_rev fuel' (n / 10))
  end.

(** ["%d" % n] for [0 <= n]: a number has no more decimal digits than
    binary ones. *)
Definition decimal (n : Z) : text :=
  rev (decimal_rev (S (Z.to_nat (Z.log2 n))) n).

(** ["%0wd" % n] for [0 <= n]. *)
Definition zero_padded (w : nat) (n : Z) : text :=
  let ds := decimal n in
  repeat (ascii_of_nat 48) (w - List.length ds) ++ ds.

Definition lit (s : String.string) : text := String.list_ascii_of_string s.

Definition char_hyphen : ascii := ascii_of_nat 45.
Definition char_colon : ascii := ascii_of_nat 58.
Definition char_point : ascii := ascii_of_nat 46.
Definition char_T : ascii := ascii_of_nat 84.
Definition char_Z : ascii := ascii_of_nat 90.
Definition char_quote : ascii := ascii_of_nat 34.
Definition char_newline : ascii := ascii_of_nat 10.

(** [datetime.isoformat()] of a naive datetime. *)
Definition isoformat (d : datetime) : text :=
  zero_padded 4 (year d) ++ [char_hyphen] ++ zero_padded 2 (month d)
  ++ [char_hyphen] ++ zero_padded 2 (day d) ++ [char_T]
  ++ zero_padded 2 (hour d) ++ [char_colon] ++ zero_padded 2 (minute d)
  ++ [char_colon] ++ zero_padded 2 (second d)
  ++ (if microsecond d =? 0 then []
      else [char_point] ++ zero_padded 6 (microsecond d)).

(** [m * 2^e * 10^6] rounded to the nearest integer, ties to even. *)
Definition scaled_micro (m : positive) (e : Z) : Z :=
  match e with
  | Zneg p =>
      let num := Zpos m * 1000000 in
      let den := 2 ^ Zpos p in
      let q := num / den in
      let r := num mod den in
      if (den <? 2 * r) || ((den =? 2 * r) && Z.odd q) then q + 1 else q
  | _ => Zpos m * 2 ^ e * 1000000
  end.

Definition fixed6 (neg : bool) (n : Z) : text :=
  (if neg then [char_hyphen] else [])
  ++ decimal (n / 1000000) ++ [char_point] ++ zero_padded 6 (n mod 1000000).

(** [format(x, ".6f")] *)
Definition format_6f (x : float) : text :=
  match Prim2SF x with
  | S754_nan => lit "nan"
  | S754_infinity neg => (if neg then [char_hyphen] else []) ++ lit "inf"
  | S754_zero neg => fixed6 neg 0
  | S754_finite neg m e => fixed6 neg (scaled_micro m e)
  end.

Local Close Scope Z_scope.
Local Open Scope float_scope.

(* ================================================================= *)
(** ** The [math] module and float arithmetic *)

(** The C library's functions, as the interpreter links them. *)
Class Libm : Type := {
  c_sin : float -> float;
  c_cos : float -> float;
  c_atan2 : float -> float -> float;
  c_pow : float -> float -> float
}.

(** [3.14159265358979323846] and [3.6], as binary64. *)
Definition MATH_PI : float := 0x1.921fb54442d18p+1.
Definition three_point_six : float := 0x1.ccccccccccccdp+1.

Definition copysign (x y : float) : float :=
  if get_sign y then - abs x else abs x.

(** [x / y] *)
Definition float_div (x y : float) : result float :=
  if y =? 0 then Raise ZeroDivisionError else Ok (x / y).

(** Conversion of an [int] operand to [float]. *)
Definition float_of_int (z : Z) : result float :=
  let f := SF2Prim (binary_normalize prec emax z 0 false) in
  if is_infinity f then Raise OverflowError else Ok f.

(** [x * n] for an [int] n *)
Definition float_mul_int (x : float) (n : Z) : result float :=
  y <- float_of_int n ;; Ok (x * y).

(** The check [math] wraps around a one-argument C function that cannot
    overflow: a NaN out of a number, or an infinity out of a finite number,
    is a domain error. *)
Definition math_1 (f : float -> float) (x : float) : result float :=
  let r := f x in
  if is_nan r && negb (is_nan x) then Raise ValueError
  else if is_infinity r && is_finite x then Raise ValueError
  else Ok r.

Definition math_radians (x : float) : float := x * (MATH_PI / 180).

Definition math_sqrt : float -> result float := math_1 sqrt.

Section Math.
Context {L : Libm}.

Definition math_sin : float -> result float := math_1 c_sin.
Definition math_cos : float -> result float := math_1 c_cos.

(** [atan2] with the special cases decided before the C function is
    called. *)
Definition m_atan2 (y x : float) : float :=
  if is_nan x || is_nan y then nan
  else if is_infinity y then
    if is_infinity x then
      if copysign 1 x =? 1 then copysign (0.25 * MATH_PI) y
      else copysign (0.75 * MATH_PI) y
    else copysign (0.5 * MATH_PI) y
  else if is_infinity x || (y =? 0) then
    if copysign 1 x =? 1 then copysign 0 y else copysign MATH_PI y
  else c_atan2 y x.

Definition math_atan2 (y x : float) : result float :=
  let r := m_atan2 y x in
  if is_nan r then
    if negb (is_nan x) && negb (is_nan y) then Raise ValueError else Ok r
  else if is_infinity r then
    if is_finite x && is_finite y then Raise OverflowError else Ok r
  else Ok r.

(** [x ** 2]: the path of [float.__pow__] for the exponent [2.0]. *)
Definition float_pow_2 (iv : float) : result float :=
  if is_nan iv then Ok iv
  else if is_infinity iv then Ok (abs iv)
  else if iv =? 0 then Ok 0
  else
    let iv := if iv <? 0 then - iv else iv in
    if iv =? 1 then Ok 1
    else
      let ix := c_pow iv 2 in
      if is_infinity ix then Raise OverflowError else Ok ix.

(* =============================================================== *)
(** ** [haversine] *)

Definition haversine (lat1 lon1 lat2 lon2 : float) : result float :=
  let R := 6371000 in
  let phi1 := math_radians lat1 in
  let phi2 := math_radians lat2 in
  let dphi := math_radians (lat2 - lat1) in
  let dlambda := math_radians (lon2 - lon1) in
  h1 <- float_div dphi 2 ;;
  s1 <- math_sin h1 ;;
  p1 <- float_pow_2 s1 ;;
  c1 <- math_cos phi1 ;;
  c2 <- math_cos phi2 ;;
  h2 <- float_div dlambda 2 ;;
  s2 <- math_sin h2 ;;
  p2 <- float_pow_2 s2 ;;
  let a := p1 + c1 * c2 * p2 in
  q1 <- math_sqrt a ;;
  q2 <- math_sqrt (1 - a) ;;
  at2 <- math_atan2 q1 q2 ;;
  Ok (R * 2 * at2).
End Math.

(* ================================================================= *)
(** ** [correct_sign] *)

(** [abs(x) > 1 and (x * expected_sign < 0)]; [and] evaluates its right
    operand only when the left one holds. *)
Definition wrong_sign (x : float) (expected_sign : Z) : result bool :=
  if 1 <? abs x then
    p <- float_mul_int x expected_sign ;; Ok (p <? 0)
  else Ok false.

Definition correct_sign (lat lon : float) (expected_lat_sign expected_lon_sign : Z)
  : result (float * float * list bool) :=
  let flipped := [false; false] in
  w0 <- wrong_sign lat expected_lat_sign ;;
  let '(lat, flipped) :=
    if w0 then (- lat, true :: tl flipped) else (lat, flipped) in
  w1 <- wrong_sign lon expected_lon_sign ;;
  let '(lon, flipped) :=
    if w1 then (- lon, [hd false flipped; true]) else (lon, flipped) in
  Ok (lat, lon, flipped).

(** [any] *)
Definition any (bs : list bool) : bool := existsb (fun b => b) bs.

(* ================================================================= *)
(** ** [sanity_check] *)

Definition reading : Set := datetime * float * float.

(** The variables the loop carries from one reading to the next. *)
Record loop_state : Set := LoopState {
  cleaned : list reading;
  flips : nat;
  skipped : nat
}.

Definition initial_state : loop_state := LoopState [] 0 0.

(** [cleaned[-1]] *)
Definition last_reading (l : list reading) : option reading :=
  match rev l with
  | [] => None
  | p :: _ => Some p
  end.

Section Sanity.
Context {L : Libm}.
Variables expected_lat_sign expected_lon_sign : Z.

(** One turn of the [for] loop.  [keep] is the fall-through to
    [cleaned.append]; the [continue] branch leaves [cleaned] alone. *)
Definition loop_body (st : loop_state) (i : nat) (p : reading)
  : result loop_state :=
  let '(t, lat, lon) := p in
  '(lat, lon, flipped) <- correct_sign lat lon expected_lat_sign expected_lon_sign ;;
  let flips := if any flipped then S (flips st) else flips st in
  let keep := Ok (LoopState (cleaned st ++ [(t, lat, lon)]) flips (skipped st)) in
  if Nat.ltb 0 i then
    match last_reading (cleaned st) with
    | Some (prev_t, prev_lat, prev_lon) =>
        let dt := total_seconds (datetime_sub t prev_t) in
        if 0 <? dt then
          dist <- haversine prev_lat prev_lon lat lon ;;
          q <- float_div dist dt ;;
          let speed := q * three_point_six in
          if 300 <? speed
          then Ok (LoopState (cleaned st) flips (S (skipped st)))
          else keep
        else keep
    | None => keep
    end
  else keep.

(** [for i, (t, lat, lon) in enumerate(points)], from index [i] on. *)
Fixpoint loop (points : list reading) (i : nat) (st : loop_state)
  : result loop_state :=
  match points with
  | [] => Ok st
  | p :: rest => st' <- loop_body st i p ;; loop rest (S i) st'
  end.

Definition sanity_check (points : list reading)
  : result (list reading * nat * nat) :=
  st <- loop points 0 initial_state ;;
  Ok (cleaned st, flips st, skipped st).
End Sanity.

(* ================================================================= *)
(** ** [write_gpx] *)

(** The file is what has been written to it so far; opening with ["w"]
    starts from nothing. *)
Definition file := text.

Definition write (f : file) (s : text) : file := f ++ s.

Definition quoted (s : text) : text := [char_quote] ++ s ++ [char_quote].

Definition XML_DECLARATION : text :=
  lit "<?xml version=" ++ quoted (lit "1.0")
  ++ lit " encoding=" ++ quoted (lit "UTF-8")
  ++ lit "?>" ++ [char_newline].

Definition GPX_OPEN : text :=
  lit "<gpx version=" ++ quoted (lit "1.1")
  ++ lit " creator=" ++ quoted (lit "DashcamExtractor")
  ++ lit " xmlns=" ++ quoted (lit "http://www.topografix.com/GPX/1/1")
  ++ lit ">" ++ [char_newline].

Definition TRK_OPEN : text :=
  lit "  <trk>" ++ [char_newline]
  ++ lit "    <trkseg>" ++ [char_newline].

Definition TRK_CLOSE : text :=
  lit "    </trkseg>" ++ [char_newline]
  ++ lit "  </trk>" ++ [char_newline]
  ++ lit "</gpx>" ++ [char_newline].

(** The f-string of one track point. *)
Definition trkpt (p : reading) : text :=
  let '(t, lat, lon) := p in
  lit "      <trkpt lat=" ++ quoted (format_6f lat)
  ++ lit " lon=" ++ quoted (format_6f lon)
  ++ lit "><time>" ++ isoformat t ++ [char_Z]
  ++ lit "</time></trkpt>" ++ [char_newline].

Definition write_gpx (points : list reading) : file :=
  let f : file := [] in
  let f := write f XML_DECLARATION in
  let f := write f GPX_OPEN in
  let f := write f TRK_OPEN in
  let f := fold_left (fun f p => write f (trkpt p)) points f in
  write f TRK_CLOSE.

Local Close Scope float_scope.
Local Open Scope Z_scope.

(* ================================================================= *)
(** ** [datetime + timedelta] *)

Definition MAXORDINAL : Z := 3652059.

(** [_ord2ymd]: the year, month and day of a day number, 1 January of year 1
    being day 1. *)
Definition ord2ymd (n : Z) : Z * Z * Z :=
  let n := n - 1 in
  let n400 := n / 146097 in
  let n := n mod 146097 in
  let year := n400 * 400 + 1 in
  let n100 := n / 36524 in
  let n := n mod 36524 in
  let n4 := n / 1461 in
  let n := n mod 1461 in
  let n1 := n / 365 in
  let n := n mod 365 in
  let year := year + (n100 * 100 + n4 * 4 + n1) in
  if (n1 =? 4) || (n100 =? 4) then (year - 1, 12, 31)
  else
    let leapyear := (n1 =? 3) && (negb (n4 =? 24) || (n100 =? 3)) in
    let month := Z.shiftr (n + 50) 5 in
    let preceding :=
      nth (Z.to_nat month) DAYS_BEFORE_MONTH 0
      + (if (2 <? month) && leapyear then 1 else 0) in
    if n <? preceding then
      let month := month - 1 in
      let preceding :=
        preceding - (nth (Z.to_nat month) DAYS_IN_MONTH 0
                     + (if (month =? 2) && leapyear then 1 else 0)) in
      (year, month, n - preceding + 1)
    else (year, month, n - preceding + 1).

(** [timedelta(seconds=n)] for an integer [n]: more than 999999999 days
    either way are refused. *)
Definition timedelta_seconds (n : Z) : result timedelta :=
  if 999999999 <? Z.abs (n / 86400) then Raise OverflowError
  else Ok (n * 1000000).

(** [datetime.__add__]: the day number and the time of day, as one
    [timedelta], plus the other; the sum is taken apart again, and its day
    number has to be one of the years 1 to 9999. *)
Definition datetime_add (d : datetime) (td : timedelta) : result datetime :=
  let delta :=
    (toordinal d * 86400 + (second d + minute d * 60 + hour d * 3600)) * 1000000
    + microsecond d + td in
  let days := delta / 86400000000 in
  let seconds := delta mod 86400000000 / 1000000 in
  let microseconds := delta mod 86400000000 mod 1000000 in
  let hour := seconds / 3600 in
  let rem := seconds mod 3600 in
  let minute := rem / 60 in
  let second := rem mod 60 in
  if (0 <? days) && (days <=? MAXORDINAL) then
    let '(y, m, dd) := ord2ymd days in
    Ok (Datetime y m dd hour minute second microseconds)
  else Raise OverflowError.

(* ================================================================= *)
(** ** The loop of [extract_coords_from_video]

    Opening the video, grabbing a frame for each second, cropping it and
    recognising its characters are the work of OpenCV and Tesseract, outside
    this model.  What the loop does with the texts recognised is modelled:
    [texts] holds, in order, the text of the frame of second 0, of second 1
    and so on, as far as the loop got (to [int(duration)] or to the first
    frame that could not be read).  The progress line the loop prints, which
    takes no part in the readings, is left out. *)

Fixpoint collect (start_dt : datetime) (sec : Z) (texts : list text)
         (points : list reading) : result (list reading) :=
  match texts with
  | [] => Ok points
  | text :: rest =>
      coords <- extract_coords_from_text text ;;
      match coords with
      | Some (lat, lon) =>
          delta <- timedelta_seconds sec ;;
          timestamp <- datetime_add start_dt delta ;;
          collect start_dt (sec + 1) rest (points ++ [(timestamp, lat, lon)])
      | None => collect start_dt (sec + 1) rest points
      end
  end.

(** What the function prints at the end: the readings extracted, the sign
    corrections, the readings skipped, the readings kept. *)
Record summary : Type := Summary {
  total_extracted : nat;
  sign_corrections : nat;
  skipped_bad_jumps : nat;
  final_kept : nat
}.

(** [extract_coords_from_video] from the loop on: the readings, the sanity
    check, the track file and the numbers of the summary.  The run modelled
    is one in which the video opens, its frames are read and recognised and
    the track file opens for writing: what [cv2], [pytesseract] and [open]
    raise when they fail is outside this model, which has the exceptions of
    the computation only. *)
Definition video_track {L : Libm} (start_dt : datetime) (texts : list text)
           (lat_sign lon_sign : Z) : result (file * summary) :=
  points <- collect start_dt 0 texts [] ;;
  r <- sanity_check lat_sign lon_sign points ;;
  let '(cleaned_points, flips, skipped) := r in
  Ok (write_gpx cleaned_points,
      Summary (length points) flips skipped (length cleaned_points)).

Local Close Scope Z_scope.
Local Open Scope float_scope.

(* ================================================================= *)
(** ** A concrete mathematics library

    Polynomial approximations in binary64, accurate to a few units in the
    last place on the arguments the worked examples use.  They stand in for
    the platform's C library where an example has to be computed. *)

Module Sample.

Definition float_of_Z (z : Z) : float :=
  SF2Prim (binary_normalize prec emax z 0 false).

(** The integer part of a finite float, rounded toward minus infinity. *)
Definition floor_Z (x : float) : Z :=
  match Prim2SF x with
  | S754_finite neg m e =>
      match e with
      | Zneg p =>
          let d := (2 ^ Zpos p)%Z in
          if neg then (- ((Zpos m + d - 1) / d))%Z else (Zpos m / d)%Z
      | _ => let v := (Zpos m * 2 ^ e)%Z in if neg then (- v)%Z else v
      end
  | _ => 0%Z
  end.

(** [sum_{j < n} u_j] where [u_0 = term] and
    [u_{j+1} = - u_j * x2 / ((d + 1) * (d + 2))], [d] stepping by 2. *)
Fixpoint alternating_series (n : nat) (term x2 d acc : float) : float :=
  match n with
  | O => acc
  | S n' =>
      alternating_series n' (- term * x2 / ((d + 1) * (d + 2))) x2 (d + 2)
                         (acc + term)
  end.

Definition sin_poly (r : float) : float :=
  alternating_series 12 r (r * r) 1 0.

Definition cos_poly (r : float) : float :=
  alternating_series 12 1 (r * r) 0 0.

Definition HALF_PI : float := MATH_PI / 2.

Definition quadrant (x : float) : Z * float :=
  let k := floor_Z (x / HALF_PI + 0.5) in
  ((k mod 4)%Z, x - float_of_Z k * HALF_PI).

Definition sin (x : float) : float :=
  if is_finite x then
    let '(q, r) := quadrant x in
    if (q =? 0)%Z then sin_poly r
    else if (q =? 1)%Z then cos_poly r
    else if (q =? 2)%Z then - sin_poly r
    else - cos_poly r
  else nan.

Definition cos (x : float) : float :=
  if is_finite x then
    let '(q, r) := quadrant x in
    if (q =? 0)%Z then cos_poly r
    else if (q =? 1)%Z then - sin_poly r
    else if (q =? 2)%Z then - cos_poly r
    else sin_poly r
  else nan.

(** [sum_{j < n} (-1)^j t^(2j+1) / (2j+1)] *)
Fixpoint atan_series (n : nat) (power t2 d acc : float) : float :=
  match n with
  | O => acc
  | S n' => atan_series n' (- power * t2) t2 (d + 2) (acc + power / d)
  end.

Definition halve_angle (t : float) : float := t / (1 + sqrt (1 + t * t)).

(** [atan t] for [0 <= t <= 1] *)
Definition atan_unit (t : float) : float :=
  let u := halve_angle (halve_angle t) in
  4 * atan_series 16 u (u * u) 1 0.

Definition atan (t : float) : float :=
  let m := abs t in
  let v := if m <=? 1 then atan_unit m else HALF_PI - atan_unit (1 / m) in
  if t <? 0 then - v else v.

Definition atan2 (y x : float) : float :=
  if is_nan x || is_nan y then nan
  else if 0 <? x then atan (y / x)
  else if x <? 0 then
    if y <? 0 then atan (y / x) - MATH_PI else atan (y / x) + MATH_PI
  else if 0 <? y then HALF_PI
  else if y <? 0 then - HALF_PI
  else 0.

Fixpoint pow_nat (x : float) (n : nat) : float :=
  match n with
  | O => 1
  | S n' => x * pow_nat x n'
  end.

(** [pow] for the small whole exponents; the program only squares. *)
Definition pow (x y : float) : float :=
  let n := floor_Z y in
  if (float_of_Z n =? y) && (0 <=? n)%Z && (n <=? 64)%Z
  then pow_nat x (Z.to_nat n) else nan.

Definition libm : Libm :=
  {| c_sin := sin; c_cos := cos; c_atan2 := atan2; c_pow := pow |}.

End Sample.

(* ================================================================= *)
(** ** What the pattern means

    The matcher above is the procedure; these relations say which words a
    pattern matches and which groups a match records, with no reference to
    the order in which alternatives are tried. *)

Definition within (hi : option nat) (n : nat) : Prop :=
  match hi with
  | Some h => (n <= h)%nat
  | None => True
  end.

Definition all_in (p : charset) (w : text) : Prop :=
  Forall (fun c => p c = true) w.

(** [matches r w c0 c1]: [r] matches exactly the word [w], and the groups
    [c0] recorded before it become [c1]. *)
Inductive matches : regex -> text -> captures -> captures -> Prop :=
| matches_eps c0 :
    matches Eps [] c0 c0
| matches_chars p c c0 :
    p c = true -> matches (Chars p) [c] c0 c0
| matches_cat r1 r2 w1 w2 c0 c1 c2 :
    matches r1 w1 c0 c1 -> matches r2 w2 c1 c2 ->
    matches (Cat r1 r2) (w1 ++ w2) c0 c2
| matches_opt_taken r w c0 c1 :
    matches r w c0 c1 -> matches (Opt r) w c0 c1
| matches_opt_skipped r c0 :
    matches (Opt r) [] c0 c0
| matches_rep p lo hi w c0 :
    all_in p w -> (lo <= List.length w)%nat -> within hi (List.length w) ->
    matches (Rep p lo hi) w c0 c0
| matches_group i r w c0 c1 :
    matches r w c0 c1 -> matches (Group i r) w c0 ((i, w) :: c1).

(** The words of the pattern, whatever the groups. *)
Definition in_language (r : regex) (w : text) : Prop :=
  exists caps, matches r w [] caps.

Definition has_match (r : regex) (txt : text) : Prop :=
  exists before w after, txt = before ++ w ++ after /\ in_language r w.

(* ----------------------------------------------------------------- *)
(** *** The coordinate pattern in the specification's words *)

(** A signed decimal number: an optional minus sign, one to three digits, a
    point, one digit or more. *)
Definition signed_decimal (w : text) : Prop :=
  exists sign ip fp,
    w = sign ++ ip ++ [char_point] ++ fp
    /\ (sign = [] \/ sign = [char_hyphen])
    /\ all_in is_digit ip /\ (1 <= List.length ip <= 3)%nat
    /\ all_in is_digit fp /\ (1 <= List.length fp)%nat.

(** An optional letter of a class. *)
Definition optional_letter (p : charset) (w : text) : Prop :=
  w = [] \/ exists c, w = [c] /\ p c = true.

(** Signed decimal number, optional separators, optional N/S letter, (any
    run of characters that are neither digits nor minus signs,) second signed
    decimal number, optional separators, optional E/W letter. *)
Definition coordinate_shaped (w : text) : Prop :=
  exists n1 seps1 ns fill n2 seps2 ew,
    w = n1 ++ seps1 ++ ns ++ fill ++ n2 ++ seps2 ++ ew
    /\ signed_decimal n1 /\ all_in is_sep seps1 /\ optional_letter is_ns ns
    /\ all_in is_filler fill
    /\ signed_decimal n2 /\ all_in is_sep seps2 /\ optional_letter is_ew ew.

Definition has_coordinates (txt : text) : Prop :=
  exists before w after, txt = before ++ w ++ after /\ coordinate_shaped w.

(** The same shape with "separator" read as widely as the pattern allows,
    as any character that is neither a digit nor a minus sign: signed decimal
    number, optional separators, optional N/S letter, second signed decimal
    number, optional separators, optional E/W letter. *)
Definition reads_as_coordinates (w : text) : Prop :=
  exists n1 seps1 ns n2 seps2 ew,
    w = n1 ++ seps1 ++ ns ++ n2 ++ seps2 ++ ew
    /\ signed_decimal n1 /\ all_in is_filler seps1 /\ optional_letter is_ns ns
    /\ signed_decimal n2 /\ all_in is_filler seps2 /\ optional_letter is_ew ew.

Definition mentions_coordinates (txt : text) : Prop :=
  exists before w after, txt = before ++ w ++ after /\ reads_as_coordinates w.

(** What a hemisphere letter makes of a value: with no letter the value
    stands; the letter [negative] forces the negated absolute value, the
    other letter the absolute value. *)
Definition hemisphere (negative : ascii) (l : text) (v : float) : float :=
  match l with
  | [] => v
  | _ :: _ => if text_eqb (upper l) [negative] then (- abs v)%float else abs v
  end.

(* ----------------------------------------------------------------- *)
(** *** Words of the specification about the track file *)

(** [n] decimal digits. *)
Definition digits (n : nat) (w : text) : Prop :=
  all_in is_digit w /\ List.length w = n.

(** A number written with six decimal places: an optional minus sign, the
    whole part, a point, six digits. *)
Definition six_decimal_places (w : text) : Prop :=
  exists sign ip fp,
    w = sign ++ ip ++ [char_point] ++ fp
    /\ (sign = [] \/ sign = [char_hyphen])
    /\ all_in is_digit ip /\ (1 <= List.length ip)%nat
    /\ digits 6 fp.

(** An ISO-8601 date and time, [YYYY-MM-DDTHH:MM:SS] with an optional
    fraction of six digits. *)
Definition iso_8601 (w : text) : Prop :=
  exists Y M D h m s frac,
    w = Y ++ [char_hyphen] ++ M ++ [char_hyphen] ++ D ++ [char_T]
        ++ h ++ [char_colon] ++ m ++ [char_colon] ++ s ++ frac
    /\ digits 4 Y /\ digits 2 M /\ digits 2 D
    /\ digits 2 h /\ digits 2 m /\ digits 2 s
    /\ (frac = [] \/ exists us, frac = [char_point] ++ us /\ digits 6 us).

(* ----------------------------------------------------------------- *)
(** *** Subsequences *)

Inductive subsequence {A : Type} : list A -> list A -> Prop :=
| subsequence_nil : subsequence [] []
| subsequence_take x l1 l2 : subsequence l1 l2 -> subsequence (x :: l1) (x :: l2)
| subsequence_drop x l1 l2 : subsequence l1 l2 -> subsequence l1 (x :: l2).

(* ----------------------------------------------------------------- *)
(** *** Words of the specification about the sanity check *)

(** The sign of [x] disagrees with the expected sign: [x] is negative where
    a positive value is expected, or positive where a negative one is. *)
Definition disagrees (x : float) (expected_sign : Z) : bool :=
  if (expected_sign =? 1)%Z then (x <? 0)%float else (0 <? x)%float.

Definition is_sign (s : Z) : Prop := s = 1%Z \/ s = (-1)%Z.

(** A reading had a correction. *)
Definition sign_flipped (els eos : Z) (p : reading) : bool :=
  let '(_, lat, lon) := p in
  match correct_sign lat lon els eos with
  | Ok (_, _, flipped) => any flipped
  | Raise _ => false
  end.

(** [p'] is the reading [p] with its signs corrected. *)
Definition corrected_from (els eos : Z) (p p' : reading) : Prop :=
  let '(t, lat, lon) := p in
  let '(t', lat', lon') := p' in
  t' = t /\ exists flipped, correct_sign lat lon els eos = Ok (lat', lon', flipped).

(** [p'] differs from [p] at most in the signs of its coordinates. *)
Definition same_up_to_sign (p p' : reading) : Prop :=
  let '(t, lat, lon) := p in
  let '(t', lat', lon') := p' in
  t' = t /\ abs lat' = abs lat /\ abs lon' = abs lon.

(** Every distance the sanity check can ask for, between two readings of
    [points] with their signs corrected, is defined. *)
Definition distances_defined {L : Libm} (els eos : Z) (points : list reading)
  : Prop :=
  forall p q t1 lat1 lon1 t2 lat2 lon2,
    In p points -> In q points ->
    corrected_from els eos p (t1, lat1, lon1) ->
    corrected_from els eos q (t2, lat2, lon2) ->
    exists d, haversine lat1 lon1 lat2 lon2 = Ok d.

(** What a run raises, if anything. *)
Definition raises_only {A : Type} (allowed : exn -> Prop) (r : result A) : Prop :=
  match r with
  | Ok _ => True
  | Raise e => allowed e
  end.

Definition domain_or_range (e : exn) : Prop :=
  e = ValueError \/ e = OverflowError.

(** [float("79.2")] *)
Definition decimal_79_2 : float := 0x1.3cccccccccccdp+6.

(** The instants of the worked examples, one second apart. *)
Definition noon : datetime := Datetime 2024 3 1 12 0 0 0.
Definition noon_1 : datetime := Datetime 2024 3 1 12 0 1 0.

Definition not_zero_division (e : exn) : Prop := e <> ZeroDivisionError.

Definition opt_group (w : text) : option text :=
  match w with [] => None | _ :: _ => Some w end.

(** A binary64 datum that is not negative: a zero, a finite number or an
    infinity with a clear sign bit, or a NaN. *)
Definition not_negative (x : spec_float) : Prop :=
  match x with
  | S754_zero s | S754_infinity s | S754_finite s _ _ => s = false
  | S754_nan => True
  end.

(* ----------------------------------------------------------------- *)
(** *** Worked examples *)

(** The match of the pattern in ["43.5S 79.2E"]. *)
Definition match_43_5S_79_2E : match_object :=
  MatchObject 0 (lit "43.5S 79.2E")
    [(4%nat, lit "E"); (3%nat, lit "79.2"); (2%nat, lit "S"); (1%nat, lit "43.5")].

(** [float("0.31")] *)
Definition decimal_0_31 : float := 0x1.3d70a3d70a3d7p-2.

(** The distance the sample library computes from (43, -79) to (44, -79). *)
Definition sample_distance : float :=
  match haversine (L := Sample.libm) 43 (-79) 44 (-79) with
  | Ok d => d
  | Raise _ => nan
  end.

Local Close Scope float_scope.
Local Open Scope Z_scope.

(** *** Words about the calendar and the order of time *)

(** [f] holds of the [k] integers from [z] on. *)
Fixpoint all_from (f : Z -> bool) (z : Z) (k : nat) : bool :=
  match k with
  | O => true
  | S k' => f z && all_from f (z + 1) k'
  end.

(** The month and the day of day [n] of a year, the first being day 0: the
    last step of [_ord2ymd]. *)
Definition month_and_day (leapyear : bool) (n : Z) : Z * Z :=
  let month := Z.shiftr (n + 50) 5 in
  let preceding :=
    nth (Z.to_nat month) DAYS_BEFORE_MONTH 0
    + (if (2 <? month) && leapyear then 1 else 0) in
  if n <? preceding then
    let month := month - 1 in
    let preceding :=
      preceding - (nth (Z.to_nat month) DAYS_IN_MONTH 0
                   + (if (month =? 2) && leapyear then 1 else 0)) in
    (month, n - preceding + 1)
  else (month, n - preceding + 1).

(** They are a month and a day of that month, and as many days precede them
    in the year as [n] says. *)
Definition month_and_day_ok (leapyear : bool) (n : Z) : bool :=
  let '(m, d) := month_and_day leapyear n in
  (1 <=? m) && (m <=? 12) && (1 <=? d)
  && (d <=? (if (m =? 2) && leapyear then 29
             else nth (Z.to_nat m) DAYS_IN_MONTH 0))
  && (nth (Z.to_nat m) DAYS_BEFORE_MONTH 0
      + (if (2 <? m) && leapyear then 1 else 0) + d =? n + 1).

(** Year [1 + 100 a + 4 b + c] of a 400-year cycle begins after [a]
    centuries, [b] spans of four years and [c] years, and is a leap year as
    [_ord2ymd] has it. *)
Definition year_ok (a b c : Z) : bool :=
  let y := 1 + (a * 100 + b * 4 + c) in
  (days_before_year y =? 36524 * a + 1461 * b + 365 * c)
  && Bool.eqb (is_leap y) ((c =? 3) && (negb (b =? 24) || (a =? 3))).

(** The last day of a span of four years is 31 December of its fourth
    year. *)
Definition leap_day_ok (a b : Z) : bool :=
  ymd2ord (a * 100 + b * 4 + 4) 12 31 =? 36524 * a + 1461 * b + 1461.

(** The reading [q] stands for a later instant than the reading [p]. *)
Definition strictly_later (p q : reading) : Prop :=
  let '(t1, _, _) := p in
  let '(t2, _, _) := q in
  instant t1 < instant t2.

(** *** Words about the numbers and the times written *)

(** [n] is the integer nearest to the fraction [num / den], the even one
    where two integers are equally near. *)
Definition nearest_integer (num den n : Z) : Prop :=
  2 * Z.abs (n * den - num) <= den
  /\ (2 * Z.abs (n * den - num) = den -> Z.even n = true).

(** The magnitude of a finite binary64 number, as a fraction: the mantissa
    times the power of two. *)
Definition magnitude (x : spec_float) : option (Z * Z) :=
  match x with
  | S754_zero _ => Some (0, 1)
  | S754_finite _ m e => Some (Zpos m * 2 ^ Z.max 0 e, 2 ^ Z.max 0 (- e))
  | _ => None
  end.

Definition sign_bit (x : spec_float) : bool :=
  match x with
  | S754_zero s | S754_infinity s | S754_finite s _ _ => s
  | S754_nan => false
  end.

(** A whole number written with no zero to spare in front: if it begins
    with a zero, it is that zero. *)
Definition no_spare_zero (w : text) : Prop :=
  forall rest, w = digit_char 0 :: rest -> rest = [].

(** The text [w] is the number [x] to six decimal places: a minus sign when
    the sign bit of [x] is set, the whole part, a point and six digits; the
    digits, read as a number of millionths, are the magnitude of [x] rounded
    to the nearest millionth, to the even one on a tie. *)
Definition six_decimal_places_of (x : float) (w : text) : Prop :=
  exists ip fp num den,
    w = (if sign_bit (Prim2SF x) then [char_hyphen] else [])
        ++ ip ++ [char_point] ++ fp
    /\ all_in is_digit ip /\ (1 <= length ip)%nat /\ no_spare_zero ip
    /\ digits 6 fp
    /\ magnitude (Prim2SF x) = Some (num, den)
    /\ nearest_integer (num * 1000000) den (digits_value (ip ++ fp)).


(** The text [w] is the date and time [t] in ISO-8601,
    [YYYY-MM-DDTHH:MM:SS]: the year in four digits, the month, the day, the
    hour, the minute and the second in two, and after them a point and the
    microseconds in six digits, unless they are zero. *)
Definition iso_8601_of (t : datetime) (w : text) : Prop :=
  exists Y M D h m s frac,
    w = Y ++ [char_hyphen] ++ M ++ [char_hyphen] ++ D ++ [char_T]
        ++ h ++ [char_colon] ++ m ++ [char_colon] ++ s ++ frac
    /\ (digits 4 Y /\ digits_value Y = year t)
    /\ (digits 2 M /\ digits_value M = month t)
    /\ (digits 2 D /\ digits_value D = day t)
    /\ (digits 2 h /\ digits_value h = hour t)
    /\ (digits 2 m /\ digits_value m = minute t)
    /\ (digits 2 s /\ digits_value s = second t)
    /\ (microsecond t = 0 -> frac = [])
    /\ (microsecond t <> 0 ->
        exists us, frac = [char_point] ++ us
                   /\ digits 6 us /\ digits_value us = microsecond t).

Local Close Scope Z_scope.
Local Open Scope float_scope.

(** *** Words about the cleaned trajectory *)

(** The reading [q] passes the jump test against the anchor [p]: no time has
    passed, or the distance is defined and the speed it implies is not above
    300. *)
Definition passes_jump_test {L : Libm} (p q : reading) : Prop :=
  let '(prev_t, prev_lat, prev_lon) := p in
  let '(t, lat, lon) := q in
  let dt := total_seconds (datetime_sub t prev_t) in
  (0 <? dt) = false
  \/ exists dist,
      haversine prev_lat prev_lon lat lon = Ok dist
      /\ (300 <? dist / dt * three_point_six) = false.

(** A coordinate on the expected side: beyond one degree from zero it does
    not disagree with the expected sign. *)
Definition on_expected_side (x : float) (expected_sign : Z) : Prop :=
  (1 <? abs x) = true -> disagrees x expected_sign = false.

(** Both coordinates of a reading are on the expected side. *)
Definition signs_as_expected (els eos : Z) (p : reading) : Prop :=
  let '(_, lat, lon) := p in
  on_expected_side lat els /\ on_expected_side lon eos.

Local Close Scope py_scope.
Local Close Scope float_scope.

(** *** Words about the characters written *)

(** A character that stands for itself in XML, in an attribute value as in
    text: a digit, one of the letters of [nan], [inf] and the [T] of a time,
    a minus sign, a point or a colon. *)
Definition is_plain : charset :=
  fun c => is_digit c || is_char 110 c || is_char 97 c || is_char 105 c
           || is_char 102 c || is_char 84 c || is_char 45 c || is_char 46 c
           || is_char 58 c.

(** The characters XML gives a meaning to, and the end of a line. *)
Definition is_markup : charset :=
  fun c => is_char 60 c || is_char 62 c || is_char 38 c || is_char 34 c
           || is_char 39 c || is_char 10 c.

(** The number of lines of a text: its newline characters. *)
Definition line_count (s : text) : nat := count_occ ascii_dec s char_newline.

Local Open Scope py_scope.

(** *** Words about readings that come from a text *)





(** *** Words about the readings of a video *)

(** The parser finds coordinates in a text. *)
Definition has_reading (txt : text) : bool :=
  match extract_coords_from_text txt with
  | Ok (Some _) => true
  | _ => false
  end.

(** The reading [p] is made of one of [texts], the texts of the seconds from
    [sec0] on: its coordinates are read from the text, and its time is
    [start_dt + timedelta(seconds=sec)] for the second [sec] of the text.
    That time is a date and time of the calendar, and the only one that many
    seconds after [start_dt]. *)
Definition stamped (start_dt : datetime) (sec0 : nat) (texts : list text)
           (p : reading) : Prop :=
  let '(t, lat, lon) := p in
  exists k txt delta,
    nth_error texts k = Some txt
    /\ extract_coords_from_text txt = Ok (Some (lat, lon))
    /\ timedelta_seconds (Z.of_nat (sec0 + k)) = Ok delta
    /\ datetime_add start_dt delta = Ok t
    /\ valid_datetime t
    /\ instant t = (instant start_dt + 1000000 * Z.of_nat (sec0 + k))%Z
    /\ (forall t', valid_datetime t' -> instant t' = instant t -> t' = t).

(** The reading [q] is later than [p], the distance between them is defined,
    and the speed it takes to cover it is not above 300 km/h. *)
Definition speed_checked {L : Libm} (p q : reading) : Prop :=
  let '(prev_t, prev_lat, prev_lon) := p in
  let '(t, lat, lon) := q in
  let dt := total_seconds (datetime_sub t prev_t) in
  (instant prev_t < instant t)%Z
  /\ (0 <? dt)%float = true
  /\ exists dist,
      haversine prev_lat prev_lon lat lon = Ok dist
      /\ (300 <? dist / dt * three_point_six)%float = false.


Local Close Scope py_scope.

(** *** The coordinate pattern, part by part *)

(** [(-?\d{1,3}\.\d+)[ ,°]*([EeWw])?], the end of the pattern. *)
Definition pattern_from_longitude : regex :=
  Cat (Group 3 number)
      (Cat (Rep is_sep 0 None) (Opt (Group 4 (Chars is_ew)))).

(** The pattern from [[^0-9\-]*] on. *)
Definition pattern_from_filler : regex :=
  Cat (Rep is_filler 0 None) pattern_from_longitude.

(** The pattern from [([NnSs])?] on. *)
Definition pattern_from_letter : regex :=
  Cat (Opt (Group 2 (Chars is_ns))) pattern_from_filler.

(** The pattern after its first number. *)
Definition pattern_after_latitude : regex :=
  Cat (Rep is_sep 0 None) pattern_from_letter.

(** The first character of a word is of a class. *)
Definition starts_with (p : charset) (w : text) : bool :=
  match w with
  | c :: _ => p c
  | [] => false
  end.

(** The word [w] has the shape of the coordinate pattern, with [n1] for its
    first number. *)
Definition coordinates_from (n1 w : text) : Prop :=
  exists seps1 ns fill n2 seps2 ew,
    w = n1 ++ seps1 ++ ns ++ fill ++ n2 ++ seps2 ++ ew
    /\ signed_decimal n1 /\ all_in is_sep seps1 /\ optional_letter is_ns ns
    /\ all_in is_filler fill
    /\ signed_decimal n2 /\ all_in is_sep seps2 /\ optional_letter is_ew ew.

(** The groups of a match whose letters are [ns] and [ew]. *)
Definition groups_of (n1 ns n2 ew : text) : captures :=
  (match ew with [] => [] | _ => [(4, ew)] end)
  ++ [(3, n2)] ++ (match ns with [] => [] | _ => [(2, ns)] end) ++ [(1, n1)].

Local Open Scope py_scope.
Local Open Scope float_scope.

(** *** More worked examples *)

Definition noon_2 : datetime := Datetime 2024 3 1 12 0 2 0.

(** A step of [2^-14] degrees of latitude, under seven metres, in a second. *)
Definition short_step : list reading :=
  [(noon, 43.5, -79); (noon_1, 43.50006103515625, -79)].

(** A reading on the wrong side of the equator, 111 km away. *)
Definition wrong_side : list reading :=
  [(noon, 43, -79); (noon_1, -44, -79)].

(** Two points opposite each other on the sphere. *)
Definition antipodes : list reading :=
  [(noon, decimal_0_31, -0.5); (noon_1, - decimal_0_31, 179.5)].

(** The texts of three frames, the second without a position. *)
Definition three_frames : list text :=
  [lit "43.5N 79.0W"; lit "no fix"; lit "43.50006103515625N 79.0W"].

Definition three_frames_track : list reading :=
  [(noon, 43.5, -79); (noon_2, 43.50006103515625, -79)].

(* ================================================================= *)
(** * Properties *)

Local Close Scope float_scope.
Local Close Scope py_scope.

(** ** The matcher against the meaning of patterns *)

Lemma consumed_app (w s' : text) : consumed (w ++ s') s' = w.
Proof.
  unfold consumed.
  rewrite length_app, Nat.add_sub, firstn_app, firstn_all, Nat.sub_diag.
  simpl. apply app_nil_r.
Qed.

Lemma within_step hi n :
  may_take hi = true -> within (option_map Nat.pred hi) n -> within hi (S n).
Proof.
  destruct hi as [[|h]|]; simpl; intros; try discriminate; try lia; exact I.
Qed.

Lemma within_pred hi n : within hi (S n) -> within (option_map Nat.pred hi) n.
Proof. destruct hi as [[|h]|]; simpl; intros; try lia; exact I. Qed.

Lemma within_may_take hi n : within hi (S n) -> may_take hi = true.
Proof. destruct hi as [[|h]|]; simpl; intros; try lia; reflexivity. Qed.

Section MatcherCorrect.
Variable A : Type.

Lemma match_rep_none p lo hi s (k : text -> option A) :
  match_rep p lo hi s k = None <->
  (forall w s', s = w ++ s' -> all_in p w -> lo <= length w ->
                within hi (length w) -> k s' = None).
Proof.
  revert lo hi. induction s as [|c s IH]; intros lo hi.
  - simpl. split.
    + intros H w s' E _ Hlo _.
      symmetry in E. apply app_eq_nil in E. destruct E; subst.
      simpl in Hlo. destruct lo; [assumption | lia].
    + intros H. destruct lo; [|reflexivity].
      apply (H [] []); simpl; auto. constructor. destruct hi; simpl; lia.
  - assert (Hstop : (match lo with O => k (c :: s) | S _ => None end) = None <->
                    (lo = 0 -> k (c :: s) = None)).
    { destruct lo; split; intros; try reflexivity; try lia; auto. }
    simpl. destruct (p c && may_take hi) eqn:Hc.
    + apply andb_prop in Hc. destruct Hc as [Hp Hm].
      destruct (match_rep p (Nat.pred lo) (option_map Nat.pred hi) s k) eqn:Hr.
      * split; [discriminate|].
        intros H. exfalso.
        assert (N : match_rep p (Nat.pred lo) (option_map Nat.pred hi) s k = None).
        { apply IH. intros w s' E Hall Hlo Hhi.
          apply (H (c :: w) s'); simpl.
          - now rewrite E.
          - constructor; assumption.
          - lia.
          - apply within_step; assumption. }
        congruence.
      * rewrite Hstop. split.
        -- intros H0 w s' E Hall Hlo Hhi. destruct w as [|c' w].
           ++ simpl in E. subst s'. apply H0. simpl in Hlo. lia.
           ++ simpl in E. injection E as -> ->.
              apply (proj1 (IH _ _) Hr w s'); auto.
              ** inversion Hall; assumption.
              ** simpl in Hlo. lia.
              ** apply within_pred. assumption.
        -- intros H ->. apply (H [] (c :: s)); simpl; auto.
           constructor. destruct hi; simpl; lia.
    + rewrite Hstop. split.
      * intros H0 w s' E Hall Hlo Hhi. destruct w as [|c' w].
        -- simpl in E. subst s'. apply H0. simpl in Hlo. lia.
        -- simpl in E. injection E as -> ->. exfalso.
           inversion Hall as [|? ? Hp _]; subst.
           simpl in Hhi. apply within_may_take in Hhi.
           rewrite Hp, Hhi in Hc. discriminate.
      * intros H ->. apply (H [] (c :: s)); simpl; auto.
        constructor. destruct hi; simpl; lia.
Qed.

Lemma match_rep_some p lo hi s (k : text -> option A) a :
  match_rep p lo hi s k = Some a ->
  exists w s', s = w ++ s' /\ all_in p w /\ lo <= length w
               /\ within hi (length w) /\ k s' = Some a.
Proof.
  revert lo hi. induction s as [|c s IH]; intros lo hi.
  - simpl. destruct lo; [|discriminate]. intros H.
    exists [], []. repeat split; simpl; auto. constructor.
    destruct hi; simpl; lia.
  - assert (Hstop : (match lo with O => k (c :: s) | S _ => None end) = Some a ->
                    exists w s', c :: s = w ++ s' /\ all_in p w /\ lo <= length w
                                 /\ within hi (length w) /\ k s' = Some a).
    { destruct lo; [|discriminate]. intros H.
      exists [], (c :: s). repeat split; simpl; auto. constructor.
      destruct hi; simpl; lia. }
    simpl. destruct (p c && may_take hi) eqn:Hc; [|exact Hstop].
    apply andb_prop in Hc. destruct Hc as [Hp Hm].
    destruct (match_rep p (Nat.pred lo) (option_map Nat.pred hi) s k) eqn:Hr;
      [|exact Hstop].
    intros E. injection E as ->.
    destruct (IH _ _ Hr) as (w & s' & -> & Hall & Hlo & Hhi & Hk).
    exists (c :: w), s'. repeat split; simpl; auto.
    + constructor; assumption.
    + lia.
    + apply within_step; assumption.
Qed.

Lemma match_re_none r :
  forall s caps (k : text -> captures -> option A),
    match_re r s caps k = None <->
    (forall w s' caps', s = w ++ s' -> matches r w caps caps' -> k s' caps' = None).
Proof.
  induction r as [|p|r1 IH1 r2 IH2|r IH|p lo hi|i r IH]; intros s caps k; simpl.
  - split.
    + intros H w s' caps' E M. inversion M; subst. assumption.
    + intros H. apply (H [] s caps); [reflexivity | constructor].
  - destruct s as [|c s].
    + split; [|reflexivity]. intros _ w s' caps' E M.
      inversion M; subst. discriminate.
    + destruct (p c) eqn:Hp.
      * split.
        -- intros H w s' caps' E M. inversion M; subst.
           simpl in E. injection E as -> ->. assumption.
        -- intros H. apply (H [c] s caps); [reflexivity | constructor; assumption].
      * split; [|reflexivity]. intros _ w s' caps' E M.
        inversion M; subst. simpl in E. injection E as -> ->. congruence.
  - rewrite IH1. split.
    + intros H w s' caps' E M.
      inversion M as [ | | ? ? w1 w2 ? c1 ? M1 M2 | | | | ]; subst.
      rewrite <- app_assoc in H.
      apply (proj1 (IH2 _ _ _) (H _ _ _ eq_refl M1) w2 s' caps'); auto.
    + intros H w1 s1 c1 E M1. apply IH2. intros w2 s2 c2 E2 M2.
      apply (H (w1 ++ w2) s2 c2).
      * subst. now rewrite app_assoc.
      * econstructor; eassumption.
  - destruct (match_re r s caps k) eqn:Hr.
    + split; [discriminate|]. intros H. exfalso.
      assert (N : match_re r s caps k = None).
      { apply IH. intros w s' caps' E M. apply (H w s' caps'); auto.
        constructor; assumption. }
      congruence.
    + split.
      * intros H w s' caps' E M. inversion M; subst.
        -- apply (proj1 (IH _ _ _) Hr w s' caps'); auto.
        -- assumption.
      * intros H. apply (H [] s caps); [reflexivity | apply matches_opt_skipped].
  - rewrite match_rep_none. split.
    + intros H w s' caps' E M. inversion M; subst. apply (H w s'); auto.
    + intros H w s' E Hall Hlo Hhi. apply (H w s' caps); auto.
      constructor; assumption.
  - rewrite IH. split.
    + intros H w s' caps' E M.
      inversion M as [ | | | | | | ? ? ? ? c1 M1 ]; subst.
      specialize (H w s' c1 eq_refl M1). rewrite consumed_app in H. assumption.
    + intros H w s' caps' E M. subst. rewrite consumed_app.
      apply (H w s'); [reflexivity | constructor; assumption].
Qed.

Lemma match_re_some r :
  forall s caps (k : text -> captures -> option A) a,
    match_re r s caps k = Some a ->
    exists w s' caps', s = w ++ s' /\ matches r w caps caps' /\ k s' caps' = Some a.
Proof.
  induction r as [|p|r1 IH1 r2 IH2|r IH|p lo hi|i r IH]; intros s caps k a; simpl.
  - intros H. exists [], s, caps. repeat split; auto. constructor.
  - destruct s as [|c s]; [discriminate|].
    destruct (p c) eqn:Hp; [|discriminate].
    intros H. exists [c], s, caps. repeat split; auto. constructor; assumption.
  - intros H. apply IH1 in H. destruct H as (w1 & s1 & c1 & -> & M1 & H).
    apply IH2 in H. destruct H as (w2 & s2 & c2 & -> & M2 & H).
    exists (w1 ++ w2), s2, c2. repeat split; auto.
    + now rewrite app_assoc.
    + econstructor; eassumption.
  - destruct (match_re r s caps k) eqn:Hr.
    + intros E. injection E as ->.
      apply IH in Hr. destruct Hr as (w & s' & c' & -> & M & H).
      exists w, s', c'. repeat split; auto. constructor; assumption.
    + intros H. exists [], s, caps. repeat split; auto. apply matches_opt_skipped.
  - intros H. apply match_rep_some in H.
    destruct H as (w & s' & -> & Hall & Hlo & Hhi & H).
    exists w, s', caps. repeat split; auto. constructor; assumption.
  - intros H. apply IH in H. destruct H as (w & s' & c' & -> & M & H).
    rewrite consumed_app in H.
    exists w, s', ((i, w) :: c'). repeat split; auto. constructor; assumption.
Qed.
End MatcherCorrect.

(** ** [search] *)

Lemma match_at_none r s pos :
  match_at r s pos = None <->
  (forall w s', s = w ++ s' -> ~ in_language r w).
Proof.
  unfold match_at. rewrite match_re_none. split.
  - intros H w s' E [caps M]. specialize (H w s' caps E M). discriminate.
  - intros H w s' caps E M. exfalso. apply (H w s' E). exists caps. exact M.
Qed.

Lemma match_at_some r s pos m :
  match_at r s pos = Some m ->
  exists w s', s = w ++ s' /\ matches r w [] (m_groups m)
               /\ m_span m = w /\ m_start m = pos.
Proof.
  unfold match_at. intros H. apply match_re_some in H.
  destruct H as (w & s' & caps & -> & M & E). injection E as <-.
  exists w, s'. simpl. rewrite consumed_app. auto.
Qed.

Lemma search_from_none r s pos :
  search_from r s pos = None <-> ~ has_match r s.
Proof.
  revert pos. induction s as [|c s IH]; intros pos; simpl.
  - destruct (match_at r [] pos) eqn:Hm.
    + split; [discriminate|]. intros H. exfalso. apply H.
      apply match_at_some in Hm. destruct Hm as (w & s' & E & M & _).
      exists [], w, s'. split; [exact E | eexists; exact M].
    + split; [|reflexivity]. intros _ (before & w & after & E & L).
      destruct before; [|discriminate]. simpl in E.
      apply (proj1 (match_at_none _ _ _) Hm w after E L).
  - destruct (match_at r (c :: s) pos) eqn:Hm.
    + split; [discriminate|]. intros H. exfalso. apply H.
      apply match_at_some in Hm. destruct Hm as (w & s' & E & M & _).
      exists [], w, s'. split; [exact E | eexists; exact M].
    + rewrite IH. split.
      * intros H (before & w & after & E & L). destruct before as [|b before].
        -- simpl in E. apply (proj1 (match_at_none _ _ _) Hm w after E L).
        -- simpl in E. injection E as -> ->. apply H.
           exists before, w, after. auto.
      * intros H (before & w & after & -> & L). apply H.
        exists (c :: before), w, after. auto.
Qed.

Lemma search_from_some r s pos m :
  search_from r s pos = Some m ->
  exists before after,
    s = before ++ m_span m ++ after /\ matches r (m_span m) [] (m_groups m)
    /\ m_start m = pos + length before.
Proof.
  revert pos. induction s as [|c s IH]; intros pos; simpl.
  - destruct (match_at r [] pos) eqn:Hm; [|discriminate].
    intros E. injection E as ->. apply match_at_some in Hm.
    destruct Hm as (w & s' & E & M & <- & <-).
    exists [], s'. simpl. repeat split; auto.
  - destruct (match_at r (c :: s) pos) eqn:Hm.
    + intros E. injection E as ->. apply match_at_some in Hm.
      destruct Hm as (w & s' & E & M & <- & <-).
      exists [], s'. simpl. repeat split; auto.
    + intros H. apply IH in H. destruct H as (before & after & -> & M & E).
      exists (c :: before), after. simpl. repeat split; auto. lia.
Qed.

(** ** The pattern and the specification's words *)

Lemma is_char_eq n c : is_char n c = true -> c = ascii_of_nat n.
Proof.
  unfold is_char, code. intros H. apply Nat.eqb_eq in H.
  rewrite <- H. symmetry. apply ascii_nat_embedding.
Qed.

Lemma all_in_app p w1 w2 : all_in p w1 -> all_in p w2 -> all_in p (w1 ++ w2).
Proof. unfold all_in. intros. apply Forall_app. auto. Qed.

Ltac invert_matches :=
  repeat match goal with
         | H : matches Eps _ _ _ |- _ => inversion H; clear H; subst
         | H : matches (Chars _) _ _ _ |- _ => inversion H; clear H; subst
         | H : matches (Cat _ _) _ _ _ |- _ => inversion H; clear H; subst
         | H : matches (Opt _) _ _ _ |- _ => inversion H; clear H; subst
         | H : matches (Rep _ _ _) _ _ _ |- _ => inversion H; clear H; subst
         | H : matches (Group _ _) _ _ _ |- _ => inversion H; clear H; subst
         end.

Lemma number_matches w c0 c1 :
  matches number w c0 c1 <-> signed_decimal w /\ c1 = c0.
Proof.
  unfold number. split.
  - intros M. invert_matches.
    + match goal with H : is_char minus_sign _ = true |- _ =>
        apply is_char_eq in H; subst end.
      match goal with H : is_char full_stop _ = true |- _ =>
        apply is_char_eq in H; subst end.
      split; [|reflexivity].
      match goal with |- signed_decimal (_ ++ ?ip ++ _ ++ ?fp) =>
        exists [char_hyphen], ip, fp end.
      simpl in *. repeat split; auto; lia.
    + match goal with H : is_char full_stop _ = true |- _ =>
        apply is_char_eq in H; subst end.
      split; [|reflexivity].
      match goal with |- signed_decimal (_ ++ ?ip ++ _ ++ ?fp) =>
        exists [], ip, fp end.
      simpl in *. repeat split; auto; lia.
  - intros [(sign & ip & fp & -> & Hs & Hip & Hlip & Hfp & Hlfp) ->].
    apply matches_cat with (c1 := c0).
    + destruct Hs as [-> | ->].
      * apply matches_opt_skipped.
      * apply matches_opt_taken. constructor. reflexivity.
    + apply matches_cat with (c1 := c0).
      * constructor; simpl; auto; lia.
      * apply matches_cat with (c1 := c0).
        -- constructor. reflexivity.
        -- constructor; simpl; auto.
Qed.

Lemma pattern_matches w caps :
  matches pattern w [] caps <->
  exists n1 seps1 ns fill n2 seps2 ew,
    w = n1 ++ seps1 ++ ns ++ fill ++ n2 ++ seps2 ++ ew
    /\ signed_decimal n1 /\ all_in is_sep seps1 /\ optional_letter is_ns ns
    /\ all_in is_filler fill
    /\ signed_decimal n2 /\ all_in is_sep seps2 /\ optional_letter is_ew ew
    /\ caps = (match ew with [] => [] | _ => [(4, ew)] end)
              ++ [(3, n2)]
              ++ (match ns with [] => [] | _ => [(2, ns)] end)
              ++ [(1, n1)].
Proof.
  unfold pattern. split.
  - intros M.
    inversion M as [ | | ? ? n1 r1 ? c1 ? M1 R1 | | | | ]; clear M; subst.
    inversion M1 as [ | | | | | | ? ? ? ? ? N1 ]; clear M1; subst.
    apply number_matches in N1. destruct N1 as [N1 ->].
    inversion R1 as [ | | ? ? seps1 r2 ? c2 ? M2 R2 | | | | ]; clear R1; subst.
    inversion M2; clear M2; subst.
    inversion R2 as [ | | ? ? ns r3 ? c3 ? M3 R3 | | | | ]; clear R2; subst.
    inversion R3 as [ | | ? ? fill r4 ? c4 ? M4 R4 | | | | ]; clear R3; subst.
    inversion M4; clear M4; subst.
    inversion R4 as [ | | ? ? n2 r5 ? c5 ? M5 R5 | | | | ]; clear R4; subst.
    inversion M5 as [ | | | | | | ? ? ? ? ? N2 ]; clear M5; subst.
    apply number_matches in N2. destruct N2 as [N2 ->].
    inversion R5 as [ | | ? ? seps2 ew ? c6 ? M6 R6 | | | | ]; clear R5; subst.
    inversion M6; clear M6; subst.
    exists n1, seps1, ns, fill, n2, seps2, ew.
    split; [reflexivity|].
    assert (Hns : optional_letter is_ns ns /\
                  c4 = (match ns with [] => [] | _ => [(2, ns)] end) ++ [(1, n1)]).
    { inversion M3 as [ | | | ? ? ? ? G | | | ]; clear M3; subst.
      - inversion G as [ | | | | | | ? ? ? ? ? C ]; clear G; subst.
        inversion C; clear C; subst.
        split; [right; eexists; split; [reflexivity | assumption] | reflexivity].
      - split; [left; reflexivity | reflexivity]. }
    destruct Hns as [Hns ->].
    assert (Hew : optional_letter is_ew ew /\
                  caps = (match ew with [] => [] | _ => [(4, ew)] end)
                           ++ (3, n2) :: (match ns with [] => [] | _ => [(2, ns)] end)
                           ++ [(1, n1)]).
    { inversion R6 as [ | | | ? ? ? ? G | | | ]; clear R6; subst.
      - inversion G as [ | | | | | | ? ? ? ? ? C ]; clear G; subst.
        inversion C; clear C; subst.
        split; [right; eexists; split; [reflexivity | assumption] | reflexivity].
      - split; [left; reflexivity | reflexivity]. }
    destruct Hew as [Hew ->].
    repeat split; auto.
  - intros (n1 & seps1 & ns & fill & n2 & seps2 & ew & -> & N1 & S1 & Hns & F
            & N2 & S2 & Hew & ->).
    destruct Hns as [-> | (c & -> & Hc)]; destruct Hew as [-> | (c' & -> & Hc')];
      repeat match goal with
             | |- matches (Cat _ _) _ _ _ => eapply matches_cat
             | |- matches (Group _ number) _ _ _ =>
                 apply matches_group; apply number_matches;
                 split; [eassumption | reflexivity]
             | |- matches (Rep _ _ _) _ _ _ =>
                 apply matches_rep; [assumption | simpl; lia | exact I]
             | |- matches (Opt _) [] _ _ => apply matches_opt_skipped
             | |- matches (Opt _) [_] _ _ =>
                 apply matches_opt_taken; apply matches_group;
                 apply matches_chars; assumption
             end.
Qed.

Lemma pattern_language w : in_language pattern w <-> coordinate_shaped w.
Proof.
  unfold in_language, coordinate_shaped. split.
  - intros [caps M]. apply pattern_matches in M.
    destruct M as (n1 & seps1 & ns & fill & n2 & seps2 & ew & M).
    exists n1, seps1, ns, fill, n2, seps2, ew. tauto.
  - intros (n1 & seps1 & ns & fill & n2 & seps2 & ew & M).
    eexists. apply pattern_matches.
    exists n1, seps1, ns, fill, n2, seps2, ew.
    repeat (split; [tauto|]). reflexivity.
Qed.

Lemma has_match_pattern txt : has_match pattern txt <-> has_coordinates txt.
Proof.
  unfold has_match, has_coordinates. split;
    intros (b & w & a & E & H); exists b, w, a; split; auto;
    apply pattern_language; assumption.
Qed.

Local Open Scope py_scope.

(** ** [float] on the pattern's numbers *)

Lemma digit_is_no_sign c :
  is_digit c = true ->
  is_char minus_sign c = false /\ is_char 43 c = false /\ is_char full_stop c = false.
Proof.
  unfold is_digit, is_char, minus_sign, full_stop. intros H.
  apply andb_prop in H. destruct H as [H1 H2].
  apply Nat.leb_le in H1. apply Nat.leb_le in H2.
  repeat split; apply Nat.eqb_neq; lia.
Qed.

Lemma span_digits_app ds rest :
  all_in is_digit ds ->
  span_digits (ds ++ rest) =
  (ds ++ fst (span_digits rest), snd (span_digits rest)).
Proof.
  induction 1 as [|c ds Hc _ IH]; simpl.
  - destruct (span_digits rest); reflexivity.
  - rewrite Hc, IH. reflexivity.
Qed.

Lemma span_digits_all ds : all_in is_digit ds -> span_digits ds = (ds, []).
Proof.
  intros H. rewrite <- (app_nil_r ds) at 1.
  rewrite span_digits_app by assumption. simpl. now rewrite app_nil_r.
Qed.

Lemma python_float_signed_decimal sign ip fp :
  (sign = [] \/ sign = [char_hyphen]) ->
  all_in is_digit ip -> (1 <= length ip)%nat ->
  all_in is_digit fp -> (1 <= length fp)%nat ->
  python_float (sign ++ ip ++ [char_point] ++ fp) =
  Ok (float_of_decimal (nonempty sign) (digits_value (ip ++ fp)) (length fp)).
Proof.
  intros Hs Hip Hlip Hfp Hlfp. unfold python_float.
  assert (Hsplit : split_sign (sign ++ ip ++ [char_point] ++ fp) =
                   (nonempty sign, ip ++ [char_point] ++ fp)).
  { destruct Hs as [-> | ->]; [|reflexivity].
    destruct ip as [|c ip]; [simpl in Hlip; lia|].
    inversion Hip as [|? ? Hc _]; subst.
    destruct (digit_is_no_sign _ Hc) as (H1 & H2 & _).
    simpl. rewrite H1, H2. reflexivity. }
  rewrite Hsplit. rewrite span_digits_app by assumption.
  change (span_digits ([char_point] ++ fp)) with ([] : text, char_point :: fp).
  simpl fst; simpl snd. rewrite app_nil_r.
  change (is_char full_stop char_point) with true. cbv iota.
  rewrite span_digits_all by assumption.
  destruct ip as [|c ip]; [simpl in Hlip; lia|]. reflexivity.
Qed.

Lemma python_float_number w :
  signed_decimal w -> exists v, python_float w = Ok v.
Proof.
  intros (sign & ip & fp & -> & Hs & Hip & Hlip & Hfp & Hlfp).
  eexists. apply python_float_signed_decimal; auto; lia.
Qed.

(** ** The parser, case by case *)

Lemma lookup_pattern_groups n1 ns n2 ew :
  let caps := (match ew with [] => [] | _ => [(4, ew)] end)
              ++ [(3, n2)] ++ (match ns with [] => [] | _ => [(2, ns)] end)
              ++ [(1, n1)] in
  lookup_group caps 1 = Some n1 /\ lookup_group caps 3 = Some n2
  /\ lookup_group caps 2 = opt_group ns /\ lookup_group caps 4 = opt_group ew.
Proof. destruct ew, ns; simpl; auto. Qed.

Lemma truthy_opt_group w : truthy (opt_group w) = opt_group w.
Proof. destruct w; reflexivity. Qed.

Lemma extract_of_match txt m :
  search pattern txt = Some m ->
  exists n1 ns n2 ew v1 v2,
    signed_decimal n1 /\ signed_decimal n2
    /\ optional_letter is_ns ns /\ optional_letter is_ew ew
    /\ group m 1 = Some n1 /\ group m 3 = Some n2
    /\ group m 2 = opt_group ns /\ group m 4 = opt_group ew
    /\ python_float n1 = Ok v1 /\ python_float n2 = Ok v2
    /\ extract_coords_from_text txt =
       Ok (Some (hemisphere (ascii_of_nat 83) ns v1, hemisphere (ascii_of_nat 87) ew v2)).
Proof.
  intros Hs. unfold extract_coords_from_text. rewrite Hs.
  apply search_from_some in Hs. destruct Hs as (before & after & _ & M & _).
  apply pattern_matches in M.
  destruct M as (n1 & seps1 & ns & fill & n2 & seps2 & ew & _ & N1 & _ & Hns & _
                 & N2 & _ & Hew & Hcaps).
  destruct (python_float_number _ N1) as [v1 F1].
  destruct (python_float_number _ N2) as [v2 F2].
  destruct (lookup_pattern_groups n1 ns n2 ew) as (G1 & G3 & G2 & G4).
  exists n1, ns, n2, ew, v1, v2. unfold group. rewrite Hcaps.
  repeat (split; [assumption|]).
  rewrite G1, G3, G2, G4. simpl. rewrite F1. simpl. rewrite F2. simpl.
  rewrite !truthy_opt_group.
  destruct ns, ew; reflexivity.
Qed.

Lemma extract_never_raises txt : exists r, extract_coords_from_text txt = Ok r.
Proof.
  destruct (search pattern txt) as [m|] eqn:Hs.
  - apply extract_of_match in Hs.
    destruct Hs as (n1 & ns & n2 & ew & v1 & v2 & H). eexists. apply H.
  - unfold extract_coords_from_text. rewrite Hs. eexists. reflexivity.
Qed.

Lemma extract_none_iff txt :
  extract_coords_from_text txt = Ok None <-> ~ has_coordinates txt.
Proof.
  rewrite <- has_match_pattern, <- (search_from_none pattern txt 0).
  fold (search pattern txt).
  destruct (search pattern txt) as [m|] eqn:Hs.
  - apply extract_of_match in Hs.
    destruct Hs as (n1 & ns & n2 & ew & v1 & v2 & H).
    decompose [and] H. split; intros E; [congruence | discriminate].
  - unfold extract_coords_from_text. rewrite Hs. tauto.
Qed.

Lemma sep_is_filler c : is_sep c = true -> is_filler c = true.
Proof.
  unfold is_sep, is_filler, is_digit, is_char, minus_sign, degree_sign.
  intros H. apply orb_prop in H. destruct H as [H | H];
    [apply orb_prop in H; destruct H as [H | H]|];
    apply Nat.eqb_eq in H; rewrite H; reflexivity.
Qed.

Lemma ns_is_filler c : is_ns c = true -> is_filler c = true.
Proof.
  unfold is_ns, is_filler, is_digit, is_char, minus_sign.
  intros H. repeat (apply orb_prop in H; destruct H as [H | H]);
    apply Nat.eqb_eq in H; rewrite H; reflexivity.
Qed.

Lemma all_in_weaken (p q : charset) w :
  (forall c, p c = true -> q c = true) -> all_in p w -> all_in q w.
Proof. intros H. unfold all_in. apply Forall_impl. exact H. Qed.

Lemma optional_letter_filler w : optional_letter is_ns w -> all_in is_filler w.
Proof.
  intros [-> | (c & -> & H)]; [constructor|].
  constructor; [now apply ns_is_filler | constructor].
Qed.

Lemma has_coordinates_mentions txt : has_coordinates txt <-> mentions_coordinates txt.
Proof.
  split.
  - intros (before & w & after & -> & n1 & seps1 & ns & fill & n2 & seps2 & ew
            & -> & N1 & S1 & Hns & F & N2 & S2 & Hew).
    exists before, (n1 ++ (seps1 ++ ns ++ fill) ++ [] ++ n2 ++ seps2 ++ ew), after.
    split.
    { repeat (cbn [app]; rewrite <- ?app_assoc, ?app_nil_r). reflexivity. }
    exists n1, (seps1 ++ ns ++ fill), [], n2, seps2, ew.
    split; [reflexivity|]. split; [exact N1|]. split.
    { repeat apply all_in_app; auto.
      - apply (all_in_weaken is_sep); [apply sep_is_filler | exact S1].
      - now apply optional_letter_filler. }
    split; [left; reflexivity|]. split; [exact N2|]. split; [|exact Hew].
    apply (all_in_weaken is_sep); [apply sep_is_filler | exact S2].
  - intros (before & w & after & -> & n1 & seps1 & ns & n2 & seps2 & ew
            & -> & N1 & S1 & Hns & N2 & S2 & Hew).
    exists before, (n1 ++ [] ++ [] ++ (seps1 ++ ns) ++ n2 ++ [] ++ []),
      (seps2 ++ ew ++ after).
    split.
    { repeat (cbn [app]; rewrite <- ?app_assoc, ?app_nil_r). reflexivity. }
    exists n1, [], [], (seps1 ++ ns), n2, [], [].
    split; [reflexivity|]. split; [exact N1|]. split; [constructor|].
    split; [left; reflexivity|]. split.
    { apply all_in_app; [exact S1 | now apply optional_letter_filler]. }
    split; [exact N2|]. split; [constructor | left; reflexivity].
Qed.

Lemma ns_letters c :
  is_ns c = true ->
  (c = "N" \/ c = "n" \/ c = "S" \/ c = "s")%char.
Proof.
  unfold is_ns. intros H.
  repeat (apply orb_prop in H; destruct H as [H | H]);
    apply is_char_eq in H; subst; auto.
Qed.

Lemma ew_letters c :
  is_ew c = true ->
  (c = "E" \/ c = "e" \/ c = "W" \/ c = "w")%char.
Proof.
  unfold is_ew. intros H.
  repeat (apply orb_prop in H; destruct H as [H | H]);
    apply is_char_eq in H; subst; auto.
Qed.

(** ** Decimal output *)

Lemma digit_char_is_digit d : (0 <= d < 10)%Z -> is_digit (digit_char d) = true.
Proof.
  intros H.
  assert (E : (d = 0 \/ d = 1 \/ d = 2 \/ d = 3 \/ d = 4 \/ d = 5 \/ d = 6
               \/ d = 7 \/ d = 8 \/ d = 9)%Z) by lia.
  repeat (destruct E as [-> | E]; [reflexivity|]). subst. reflexivity.
Qed.

Lemma all_in_cons p c w : p c = true -> all_in p w -> all_in p (c :: w).
Proof. intros. constructor; assumption. Qed.

Lemma all_in_rev p w : all_in p w -> all_in p (rev w).
Proof. unfold all_in. apply Forall_rev. Qed.

Lemma all_in_repeat p c n : p c = true -> all_in p (repeat c n).
Proof. intros H. induction n; simpl; constructor; auto. Qed.

Lemma decimal_rev_digits fuel : forall n, all_in is_digit (decimal_rev fuel n).
Proof.
  induction fuel as [|fuel IH]; intros n; cbn [decimal_rev].
  - constructor.
  - apply all_in_cons.
    + apply digit_char_is_digit. apply Z.mod_pos_bound. lia.
    + destruct (n <? 10)%Z; [constructor | apply IH].
Qed.


Lemma decimal_digits n : all_in is_digit (decimal n).
Proof. unfold decimal. apply all_in_rev, decimal_rev_digits. Qed.




(** ** [format(x, ".6f")] *)





(** ** [isoformat] *)

Lemma days_in_month_bounds y m :
  (1 <= m <= 12 -> 28 <= days_in_month y m <= 31)%Z.
Proof.
  intros H. unfold days_in_month.
  assert (C : (m = 1 \/ m = 2 \/ m = 3 \/ m = 4 \/ m = 5 \/ m = 6 \/ m = 7
               \/ m = 8 \/ m = 9 \/ m = 10 \/ m = 11 \/ m = 12)%Z) by lia.
  set (b := is_leap y). clearbody b.
  repeat (destruct C as [-> | C]); try subst m;
    destruct b; vm_compute; split; discriminate.
Qed.


Local Open Scope Z_scope.

(** ** The digits written, read back *)


Lemma digit_value_range c : is_digit c = true -> 0 <= digit_value c <= 9.
Proof.
  unfold is_digit, digit_value. intros H. apply andb_prop in H.
  destruct H as [H1 H2]. apply Nat.leb_le in H1. apply Nat.leb_le in H2. lia.
Qed.

Lemma digits_value_from ds : all_in is_digit ds -> forall acc,
  0 <= acc ->
  0 <= fold_left (fun acc c => 10 * acc + digit_value c) ds acc
    < (acc + 1) * 10 ^ Z.of_nat (length ds).
Proof.
  induction 1 as [|c ds Hc _ IH]; intros acc Hacc.
  - cbn [fold_left length]. change (10 ^ Z.of_nat 0) with 1. lia.
  - cbn [fold_left length]. pose proof (digit_value_range c Hc) as R.
    specialize (IH (10 * acc + digit_value c) ltac:(lia)).
    rewrite Nat2Z.inj_succ, Z.pow_succ_r by lia.
    assert (0 < 10 ^ Z.of_nat (length ds)) by (apply Z.pow_pos_nonneg; lia).
    nia.
Qed.

Lemma digits_value_bound ds :
  all_in is_digit ds -> 0 <= digits_value ds < 10 ^ Z.of_nat (length ds).
Proof.
  intros H. pose proof (digits_value_from ds H 0 ltac:(lia)) as B.
  unfold digits_value. lia.
Qed.











(** ** Rounding to millionths *)




Lemma six_decimal_places_of_shape x w :
  six_decimal_places_of x w -> six_decimal_places w.
Proof.
  intros (ip & fp & num & den & E & H1 & H2 & _ & H4 & _).
  exists (if sign_bit (Prim2SF x) then [char_hyphen] else []), ip, fp.
  split; [exact E|]. split; [destruct (sign_bit _); auto|].
  repeat (split; [assumption|]). assumption.
Qed.

Local Open Scope float_scope.



Local Close Scope float_scope.

(** ** The time written, read back *)


Lemma iso_8601_of_shape t w : iso_8601_of t w -> iso_8601 w.
Proof.
  intros (Y & M & D & h & m & s & frac & E & [HY _] & [HM _] & [HD _] & [Hh _]
          & [Hm _] & [Hs _] & F0 & F1).
  exists Y, M, D, h, m, s, frac. repeat (split; [assumption|]).
  destruct (Z.eq_dec (microsecond t) 0) as [Z0 | N]; [left; auto|].
  right. destruct (F1 N) as (us & Eu & Du & _). exists us. auto.
Qed.

(** ** One text for each number and for each time *)











Local Close Scope Z_scope.

(** ** [write_gpx] *)

Lemma write_all f points :
  fold_left (fun f p => write f (trkpt p)) points f
  = f ++ concat (map trkpt points).
Proof.
  revert f. induction points as [|p points IH]; intros f; cbn [fold_left map concat].
  - now rewrite app_nil_r.
  - rewrite IH. unfold write. now rewrite app_assoc.
Qed.

Lemma write_gpx_structure points :
  write_gpx points =
  XML_DECLARATION ++ GPX_OPEN ++ TRK_OPEN ++ concat (map trkpt points) ++ TRK_CLOSE.
Proof.
  unfold write_gpx. rewrite write_all. unfold write.
  cbn [app]. repeat rewrite <- app_assoc. reflexivity.
Qed.

Local Open Scope float_scope.

(** ** Binary64 facts *)

Lemma abs_opp x : abs (- x) = abs x.
Proof.
  apply Prim2SF_inj. rewrite !abs_spec, opp_spec.
  destruct (Prim2SF x); reflexivity.
Qed.

Lemma opp_involutive x : - - x = x.
Proof.
  apply Prim2SF_inj. rewrite !opp_spec.
  destruct (Prim2SF x) as [s|s| |s m e]; simpl; try rewrite negb_involutive; reflexivity.
Qed.

Lemma SFcompare_swap x y :
  SFcompare y x = option_map CompOpp (SFcompare x y).
Proof.
  destruct x as [sx|sx| |sx mx ex], y as [sy|sy| |sy my ey]; simpl;
    try destruct sx; try destruct sy; try reflexivity.
  all: rewrite (Z.compare_antisym ey ex); destruct (ey ?= ex)%Z; simpl;
    try reflexivity;
    change (PosDef.Pos.compare_cont Eq my mx) with (Pos.compare my mx);
    change (PosDef.Pos.compare_cont Eq mx my) with (Pos.compare mx my);
    rewrite (Pos.compare_antisym my mx); destruct (my ?= mx)%positive; reflexivity.
Qed.

Lemma leb_not_ltb x y : (x <=? y) = true -> (y <? x) = false.
Proof.
  rewrite leb_spec, ltb_spec. unfold SFleb, SFltb.
  rewrite (SFcompare_swap (Prim2SF x) (Prim2SF y)).
  destruct (SFcompare (Prim2SF x) (Prim2SF y)) as [[| |]|]; simpl; congruence.
Qed.

Lemma ltb_not_eqb x y : (x <? y) = true -> (y =? x) = false.
Proof.
  rewrite eqb_spec, ltb_spec. unfold SFeqb, SFltb.
  rewrite (SFcompare_swap (Prim2SF x) (Prim2SF y)).
  destruct (SFcompare (Prim2SF x) (Prim2SF y)) as [[| |]|]; simpl; congruence.
Qed.

Lemma opp_ltb_zero x : (- x <? 0) = (0 <? x).
Proof.
  rewrite !ltb_spec, opp_spec. change (Prim2SF 0) with (S754_zero false).
  destruct (Prim2SF x) as [s|s| |s m e]; try destruct s; reflexivity.
Qed.

(** Multiplying by one is exact. *)

Lemma round_exact_shifted s m e :
  bounded prec emax m e = true ->
  binary_round_aux prec emax s (Zpos (m * 4503599627370496)) (e + -52) loc_Exact
  = S754_finite s m e.
Proof.
  unfold bounded, canonical_mantissa. intros H.
  apply andb_prop in H. destruct H as [Hc Hb].
  apply Z.eqb_eq in Hc.
  rewrite Pos.mul_comm.
  unfold binary_round_aux, shr_fexp.
  assert (D : (Zdigits2 (Zpos (4503599627370496 * m)) =
               Zpos (digits2_pos m) + 52)%Z).
  { cbn [Pos.mul Zdigits2 digits2_pos]. rewrite !Pos2Z.inj_succ. lia. }
  rewrite D.
  replace (Zpos (digits2_pos m) + 52 + (e + -52))%Z
    with (Zpos (digits2_pos m) + e)%Z by lia.
  rewrite Hc.
  replace (e - (e + -52))%Z with 52%Z by lia.
  cbn -[fexp Z.add Z.sub Z.leb digits2_pos].
  replace (e + -52 + 52)%Z with e by lia.
  rewrite Hc, Z.sub_diag. cbn -[Z.leb Z.sub].
  rewrite Hb. reflexivity.
Qed.

Lemma mul_one_r x : x * 1 = x.
Proof.
  apply Prim2SF_inj. rewrite mul_spec.
  change (Prim2SF 1) with (S754_finite false 4503599627370496 (-52)).
  pose proof (Prim2SF_valid x) as V.
  destruct (Prim2SF x) as [s|s| |s m e]; unfold SF64mul, SFmul;
    try rewrite xorb_false_r; try reflexivity.
  apply round_exact_shifted. exact V.
Qed.

Lemma mul_minus_one_r x : x * (-1) = - x.
Proof.
  apply Prim2SF_inj. rewrite mul_spec, opp_spec.
  change (Prim2SF (-1)) with (S754_finite true 4503599627370496 (-52)).
  pose proof (Prim2SF_valid x) as V.
  destruct (Prim2SF x) as [s|s| |s m e]; unfold SF64mul, SFmul, SFopp;
    try rewrite xorb_true_r; try reflexivity.
  apply round_exact_shifted. exact V.
Qed.

Lemma float_of_int_one : float_of_int 1 = Ok 1.
Proof. reflexivity. Qed.

Lemma float_of_int_minus_one : float_of_int (-1) = Ok (-1).
Proof. reflexivity. Qed.

(** The sign of what rounding returns. *)

Lemma binary_round_aux_not_negative m e l :
  not_negative (binary_round_aux prec emax false m e l).
Proof.
  unfold binary_round_aux.
  destruct (shr_fexp prec emax m e l) as [mrs' e'].
  destruct (shr_fexp prec emax _ e' loc_Exact) as [mrs'' e''].
  destruct (shr_m mrs''); simpl; auto.
  destruct (e'' <=? 971)%Z; reflexivity.
Qed.

Lemma binary_round_not_negative m e :
  not_negative (binary_round prec emax false m e).
Proof.
  unfold binary_round. destruct (shl_align _ _ _) as [mz ez].
  apply binary_round_aux_not_negative.
Qed.

Lemma SF2Prim_not_negative x :
  not_negative x -> not_negative (Prim2SF (SF2Prim x)).
Proof.
  destruct x as [s|s| |s m e]; simpl; intros H; try subst s; try exact I;
    try reflexivity.
  rewrite Z_ldexp_spec, of_uint63_spec.
  pose proof (Uint63.to_Z_bounded (Uint63Axioms.of_pos m)) as B.
  destruct (Uint63Axioms.to_Z (Uint63Axioms.of_pos m)) as [|p|p];
    [simpl; reflexivity| |lia].
  unfold binary_normalize.
  pose proof (binary_round_not_negative p 0) as R.
  destruct (binary_round prec emax false p 0) as [s|s| |s m' e']; simpl in *;
    auto.
  subst s. apply binary_round_not_negative.
Qed.

Lemma nearest_quotient_not_negative n d :
  not_negative (Prim2SF (nearest_quotient n d)).
Proof.
  unfold nearest_quotient. apply SF2Prim_not_negative.
  unfold SFdiv. destruct (SFdiv_core_binary _ _ _ _ _ _) as [[mz ez] lz].
  apply binary_round_aux_not_negative.
Qed.

Lemma not_negative_opp_not_positive x :
  not_negative (Prim2SF x) -> (0 <? - x) = false.
Proof.
  rewrite ltb_spec, opp_spec. change (Prim2SF 0) with (S754_zero false).
  destruct (Prim2SF x) as [s|s| |s m e]; simpl; intros H; try subst s; reflexivity.
Qed.

Lemma int_true_divide_not_positive a b :
  (a <= 0)%Z -> (0 <? int_true_divide a b) = false.
Proof.
  destruct a as [|p|p]; intros H; [reflexivity | lia |].
  apply not_negative_opp_not_positive, nearest_quotient_not_negative.
Qed.

Lemma ltb_asym x y : (x <? y) = true -> (y <? x) = false.
Proof.
  rewrite !ltb_spec. unfold SFltb.
  rewrite (SFcompare_swap (Prim2SF x) (Prim2SF y)).
  destruct (SFcompare (Prim2SF x) (Prim2SF y)) as [[| |]|]; simpl; congruence.
Qed.

Lemma zero_ltb_opp x : (0 <? - x) = (x <? 0).
Proof.
  rewrite !ltb_spec, opp_spec. change (Prim2SF 0) with (S754_zero false).
  destruct (Prim2SF x) as [s|s| |s m e]; try destruct s; reflexivity.
Qed.

(** ** [correct_sign] *)

Lemma wrong_sign_spec x s :
  is_sign s -> wrong_sign x s = Ok ((1 <? abs x) && disagrees x s).
Proof.
  unfold wrong_sign, float_mul_int, disagrees.
  intros [-> | ->]; destruct (1 <? abs x); try reflexivity.
  - rewrite float_of_int_one. simpl. now rewrite mul_one_r.
  - rewrite float_of_int_minus_one. simpl.
    now rewrite mul_minus_one_r, opp_ltb_zero.
Qed.

Lemma wrong_sign_small x s : (abs x <=? 1) = true -> wrong_sign x s = Ok false.
Proof.
  intros H. unfold wrong_sign. now rewrite (leb_not_ltb _ _ H).
Qed.

Lemma correct_sign_inv lat lon els eos lat' lon' flipped :
  correct_sign lat lon els eos = Ok (lat', lon', flipped) ->
  exists f0 f1,
    wrong_sign lat els = Ok f0 /\ wrong_sign lon eos = Ok f1
    /\ lat' = (if f0 then - lat else lat)
    /\ lon' = (if f1 then - lon else lon)
    /\ flipped = [f0; f1].
Proof.
  unfold correct_sign.
  destruct (wrong_sign lat els) as [f0|e]; [|discriminate].
  destruct (wrong_sign lon eos) as [f1|e]; [|destruct f0; discriminate].
  exists f0, f1. destruct f0, f1; simpl in H; injection H as <- <- <-; auto.
Qed.

Lemma correct_sign_spec lat lon els eos :
  is_sign els -> is_sign eos ->
  let f0 := (1 <? abs lat) && disagrees lat els in
  let f1 := (1 <? abs lon) && disagrees lon eos in
  correct_sign lat lon els eos =
  Ok (if f0 then - lat else lat, if f1 then - lon else lon, [f0; f1]).
Proof.
  intros H1 H2. unfold correct_sign.
  rewrite (wrong_sign_spec lat els H1), (wrong_sign_spec lon eos H2). simpl.
  destruct ((1 <? abs lat) && disagrees lat els),
           ((1 <? abs lon) && disagrees lon eos); reflexivity.
Qed.

Lemma corrected_sign_agrees x s :
  is_sign s ->
  let w := (1 <? abs x) && disagrees x s in
  wrong_sign (if w then - x else x) s = Ok false.
Proof.
  intros Hs w. rewrite (wrong_sign_spec _ s Hs).
  destruct w eqn:Hw; [|exact (f_equal Ok Hw)].
  apply andb_prop in Hw. destruct Hw as [Ha Hd].
  rewrite abs_opp, Ha. simpl. f_equal.
  unfold disagrees in *. destruct Hs as [-> | ->]; simpl in *.
  - rewrite opp_ltb_zero. now apply ltb_asym.
  - rewrite zero_ltb_opp. now apply ltb_asym.
Qed.

(** ** The loop *)

Section Loop.
Context {L : Libm}.
Variables els eos : Z.

Lemma loop_app pre post i st :
  loop els eos (pre ++ post) i st =
  (st' <- loop els eos pre i st ;; loop els eos post (i + length pre) st').
Proof.
  revert i st. induction pre as [|p pre IH]; intros i st;
    cbn [loop app length bind].
  - now rewrite Nat.add_0_r.
  - destruct (loop_body els eos st i p) as [st1|e]; cbn [bind]; [|reflexivity].
    rewrite IH. now rewrite Nat.add_succ_r.
Qed.

Lemma loop_snoc pre r st :
  loop els eos pre 0 initial_state = Ok st ->
  loop els eos (pre ++ [r]) 0 initial_state = loop_body els eos st (length pre) r.
Proof.
  intros H. rewrite loop_app, H. cbn [bind loop Nat.add].
  destruct (loop_body els eos st (length pre) r); reflexivity.
Qed.

Lemma loop_body_inv st i t lat lon st' :
  loop_body els eos st i (t, lat, lon) = Ok st' ->
  exists lat' lon' flipped,
    correct_sign lat lon els eos = Ok (lat', lon', flipped)
    /\ flips st' = (if any flipped then S (flips st) else flips st)
    /\ ((cleaned st' = cleaned st /\ skipped st' = S (skipped st))
        \/ (cleaned st' = cleaned st ++ [(t, lat', lon')]
            /\ skipped st' = skipped st)).
Proof.
  unfold loop_body.
  destruct (correct_sign lat lon els eos) as [[[lat' lon'] flipped]|e];
    [|discriminate].
  simpl. intros H. exists lat', lon', flipped. split; [reflexivity|].
  destruct (Nat.ltb 0 i);
    [destruct (last_reading (cleaned st)) as [[[pt plat] plon]|] |];
    try (injection H as <-; simpl; auto).
  destruct (0 <? total_seconds (datetime_sub t pt));
    try (injection H as <-; simpl; auto).
  destruct (haversine plat plon lat' lon') as [dist|e]; [|discriminate].
  simpl in H.
  destruct (float_div dist (total_seconds (datetime_sub t pt))) as [q|e];
    [|discriminate].
  simpl in H. destruct (300 <? q * three_point_six);
    injection H as <-; simpl; auto.
Qed.

Lemma loop_conservation points :
  forall i st st',
    loop els eos points i st = Ok st' ->
    (length (cleaned st') + skipped st'
     = length (cleaned st) + skipped st + length points)%nat.
Proof.
  induction points as [|[[t lat] lon] points IH]; intros i st st'; cbn [loop].
  - intros H. injection H as <-. simpl. lia.
  - destruct (loop_body els eos st i (t, lat, lon)) as [st1|e] eqn:Hb;
      cbn [bind]; intros H; [|discriminate].
    apply IH in H. apply loop_body_inv in Hb.
    destruct Hb as (lat' & lon' & flipped & _ & _ & [[Hc Hs] | [Hc Hs]]);
      rewrite Hc, Hs in H; cbn [length];
      [|rewrite length_app in H; cbn [length] in H]; lia.
Qed.

Lemma last_reading_snoc l p : last_reading (l ++ [p]) = Some p.
Proof. unfold last_reading. now rewrite rev_app_distr. Qed.

Lemma last_reading_some l p : last_reading l = Some p -> (0 < length l)%nat.
Proof. destruct l; [discriminate | simpl; lia]. Qed.
End Loop.

(** ** What can be raised *)

Lemma raises_only_bind {A B} (allowed : exn -> Prop) (m : result A)
      (f : A -> result B) :
  raises_only allowed m -> (forall a, raises_only allowed (f a)) ->
  raises_only allowed (bind m f).
Proof. destruct m; simpl; auto. Qed.

Lemma raises_only_weaken {A} (P Q : exn -> Prop) (r : result A) :
  (forall e, P e -> Q e) -> raises_only P r -> raises_only Q r.
Proof. destruct r; simpl; auto. Qed.

Lemma math_1_raises f x : raises_only domain_or_range (math_1 f x).
Proof.
  unfold math_1.
  destruct (is_nan (f x) && negb (is_nan x)); [left; reflexivity|].
  destruct (is_infinity (f x) && is_finite x); [left; reflexivity | exact I].
Qed.

Lemma float_div_two x : float_div x 2 = Ok (x / 2).
Proof. reflexivity. Qed.

Lemma float_div_positive x y : (0 <? y) = true -> float_div x y = Ok (x / y).
Proof. intros H. unfold float_div. now rewrite (ltb_not_eqb _ _ H). Qed.

Section Raises.
Context {L : Libm}.

Lemma float_pow_2_raises x : raises_only domain_or_range (float_pow_2 x).
Proof.
  unfold float_pow_2.
  destruct (is_nan x); [exact I|].
  destruct (is_infinity x); [exact I|].
  destruct (x =? 0); [exact I|].
  destruct ((if x <? 0 then - x else x) =? 1); [exact I|].
  destruct (is_infinity _); [right; reflexivity | exact I].
Qed.

Lemma math_atan2_raises y x : raises_only domain_or_range (math_atan2 y x).
Proof.
  unfold math_atan2.
  destruct (is_nan (m_atan2 y x)).
  - destruct (negb (is_nan x) && negb (is_nan y)); [left; reflexivity | exact I].
  - destruct (is_infinity (m_atan2 y x)); [|exact I].
    destruct (is_finite x && is_finite y); [right; reflexivity | exact I].
Qed.

Lemma haversine_raises lat1 lon1 lat2 lon2 :
  raises_only domain_or_range (haversine lat1 lon1 lat2 lon2).
Proof.
  unfold haversine. rewrite !float_div_two. cbn [bind].
  repeat (apply raises_only_bind;
          [first [apply math_1_raises | apply float_pow_2_raises
                 | apply math_atan2_raises] | intros ?]).
  exact I.
Qed.

Lemma wrong_sign_raises x s : raises_only (eq OverflowError) (wrong_sign x s).
Proof.
  unfold wrong_sign, float_mul_int, float_of_int.
  destruct (1 <? abs x); [|exact I].
  destruct (is_infinity _); [reflexivity | exact I].
Qed.

Lemma correct_sign_raises lat lon els eos :
  raises_only (eq OverflowError) (correct_sign lat lon els eos).
Proof.
  unfold correct_sign.
  apply raises_only_bind; [apply wrong_sign_raises | intros w0].
  destruct w0; cbn [tl hd];
    (apply raises_only_bind; [apply wrong_sign_raises | intros w1]);
    destruct w1; exact I.
Qed.

Lemma loop_body_raises els eos st i p :
  raises_only not_zero_division (loop_body els eos st i p).
Proof.
  destruct p as [[t lat] lon]. unfold loop_body.
  apply raises_only_bind.
  { eapply raises_only_weaken; [|apply correct_sign_raises].
    intros e <-. discriminate. }
  intros [[lat' lon'] flipped].
  destruct (Nat.ltb 0 i); [|exact I].
  destruct (last_reading (cleaned st)) as [[[pt plat] plon]|]; [|exact I].
  destruct (0 <? total_seconds (datetime_sub t pt)) eqn:Hdt; [|exact I].
  apply raises_only_bind.
  { eapply raises_only_weaken; [|apply haversine_raises].
    intros e [-> | ->]; discriminate. }
  intros dist. rewrite (float_div_positive _ _ Hdt). cbn [bind].
  destruct (300 <? _); exact I.
Qed.

Lemma loop_raises els eos points :
  forall i st, raises_only not_zero_division (loop els eos points i st).
Proof.
  induction points as [|p points IH]; intros i st; cbn [loop]; [exact I|].
  apply raises_only_bind; [apply loop_body_raises | intros st'; apply IH].
Qed.

Lemma sanity_check_raises els eos points :
  raises_only not_zero_division (sanity_check els eos points).
Proof.
  unfold sanity_check.
  apply raises_only_bind; [apply loop_raises | intros st; exact I].
Qed.
End Raises.

Lemma datetime_sub_instant a b : datetime_sub a b = (instant a - instant b)%Z.
Proof. unfold instant, datetime_sub. cbn [year month day hour minute second microsecond]. lia. Qed.

Section Turn.
Context {L : Libm}.
Variables els eos : Z.

(** The index of a reading that finds an anchor is positive. *)
Lemma anchor_index pre st p :
  loop els eos pre 0 initial_state = Ok st ->
  last_reading (cleaned st) = Some p ->
  Nat.ltb 0 (length pre) = true.
Proof.
  intros Hl Ha. apply loop_conservation in Hl. apply last_reading_some in Ha.
  cbn [cleaned skipped initial_state length] in Hl.
  apply Nat.ltb_lt. lia.
Qed.

Lemma turn_with_anchor pre st t lat lon prev_t prev_lat prev_lon lat' lon' flipped :
  loop els eos pre 0 initial_state = Ok st ->
  last_reading (cleaned st) = Some (prev_t, prev_lat, prev_lon) ->
  correct_sign lat lon els eos = Ok (lat', lon', flipped) ->
  loop els eos (pre ++ [(t, lat, lon)]) 0 initial_state =
  let flips := if any flipped then S (flips st) else flips st in
  let keep := Ok (LoopState (cleaned st ++ [(t, lat', lon')]) flips (skipped st)) in
  let dt := total_seconds (datetime_sub t prev_t) in
  if 0 <? dt then
    dist <- haversine prev_lat prev_lon lat' lon' ;;
    q <- float_div dist dt ;;
    if 300 <? q * three_point_six
    then Ok (LoopState (cleaned st) flips (S (skipped st)))
    else keep
  else keep.
Proof.
  intros Hl Ha Hc. rewrite (loop_snoc _ _ _ _ _ Hl).
  unfold loop_body. rewrite Hc. cbn [bind].
  rewrite (anchor_index _ _ _ Hl Ha), Ha. reflexivity.
Qed.
End Turn.

Lemma last_reading_in l p : last_reading l = Some p -> In p l.
Proof.
  unfold last_reading. intros H. apply in_rev.
  destruct (rev l); [discriminate|]. injection H as ->. left. reflexivity.
Qed.

Lemma corrected_same_up_to_sign els eos p p' :
  corrected_from els eos p p' -> same_up_to_sign p p'.
Proof.
  destruct p as [[t lat] lon], p' as [[t' lat'] lon'].
  intros [-> [flipped H]]. apply correct_sign_inv in H.
  destruct H as (f0 & f1 & _ & _ & -> & -> & _).
  split; [reflexivity|].
  destruct f0, f1; rewrite ?abs_opp; auto.
Qed.

Lemma subsequence_in {A} (l1 l2 : list A) x :
  subsequence l1 l2 -> In x l1 -> In x l2.
Proof.
  induction 1 as [|y l1 l2 _ IH|y l1 l2 _ IH]; simpl; intros H; auto.
  destruct H; auto.
Qed.

Lemma Forall2_in_right {A B} (R : A -> B -> Prop) l1 l2 y :
  Forall2 R l1 l2 -> In y l2 -> exists x, In x l1 /\ R x y.
Proof.
  induction 1 as [|a b l1 l2 Hab _ IH]; simpl; intros H; [contradiction|].
  destruct H as [<- | H].
  - exists a. auto.
  - destruct (IH H) as (x & Hx & Hr). exists x. auto.
Qed.

Section Runs.
Context {L : Libm}.
Variables els eos : Z.

Lemma single_reading t lat lon lat' lon' flipped :
  correct_sign lat lon els eos = Ok (lat', lon', flipped) ->
  sanity_check els eos [(t, lat, lon)] =
  Ok ([(t, lat', lon')], if any flipped then 1%nat else 0%nat, 0%nat).
Proof.
  intros H. unfold sanity_check. cbn [loop]. unfold loop_body.
  rewrite H. cbn [bind Nat.ltb Nat.leb initial_state cleaned flips skipped app].
  destruct (any flipped); reflexivity.
Qed.

Lemma loop_subsequence points :
  forall i st st',
    loop els eos points i st = Ok st' ->
    exists corrected kept,
      Forall2 (corrected_from els eos) points corrected
      /\ subsequence kept corrected
      /\ cleaned st' = cleaned st ++ kept.
Proof.
  induction points as [|[[t lat] lon] points IH]; intros i st st'; cbn [loop].
  - intros H. injection H as <-. exists [], [].
    repeat split; [constructor | constructor | now rewrite app_nil_r].
  - destruct (loop_body els eos st i (t, lat, lon)) as [st1|e] eqn:Hb;
      cbn [bind]; intros H; [|discriminate].
    apply IH in H. destruct H as (corrected & kept & HF & HS & HC).
    apply loop_body_inv in Hb.
    destruct Hb as (lat' & lon' & flipped & Hc & _ & [[Hk _] | [Hk _]]).
    + exists ((t, lat', lon') :: corrected), kept. repeat split.
      * constructor; [|assumption]. split; [reflexivity | eexists; exact Hc].
      * constructor. assumption.
      * now rewrite HC, Hk.
    + exists ((t, lat', lon') :: corrected), ((t, lat', lon') :: kept).
      repeat split.
      * constructor; [|assumption]. split; [reflexivity | eexists; exact Hc].
      * constructor. assumption.
      * rewrite HC, Hk, <- app_assoc. reflexivity.
Qed.

Lemma loop_flips points :
  forall i st st',
    loop els eos points i st = Ok st' ->
    flips st' = (flips st + length (filter (sign_flipped els eos) points))%nat.
Proof.
  induction points as [|[[t lat] lon] points IH]; intros i st st'; cbn [loop].
  - intros H. injection H as <-. cbn [filter length]. lia.
  - destruct (loop_body els eos st i (t, lat, lon)) as [st1|e] eqn:Hb;
      cbn [bind]; intros H; [|discriminate].
    apply IH in H. apply loop_body_inv in Hb.
    destruct Hb as (lat' & lon' & flipped & Hc & Hf & _).
    cbn [filter]. unfold sign_flipped at 1. rewrite Hc.
    rewrite H, Hf. destruct (any flipped); cbn [length]; lia.
Qed.

Lemma loop_returns all_points points :
  is_sign els -> is_sign eos ->
  distances_defined els eos all_points ->
  forall i st,
    incl points all_points ->
    (forall q, In q (cleaned st) ->
               exists p, In p all_points /\ corrected_from els eos p q) ->
    exists st', loop els eos points i st = Ok st'.
Proof.
  intros H1 H2 HD.
  induction points as [|[[t lat] lon] points IH]; intros i st Hincl Hinv;
    cbn [loop].
  - eexists. reflexivity.
  - pose proof (correct_sign_spec lat lon els eos H1 H2) as Hc. cbv zeta in Hc.
    set (lat' := if (1 <? abs lat) && disagrees lat els then - lat else lat) in *.
    set (lon' := if (1 <? abs lon) && disagrees lon eos then - lon else lon) in *.
    assert (Hp : In (t, lat, lon) all_points) by (apply Hincl; left; reflexivity).
    assert (Hcf : corrected_from els eos (t, lat, lon) (t, lat', lon')).
    { split; [reflexivity | eexists; exact Hc]. }
    assert (Hb : exists st1,
               loop_body els eos st i (t, lat, lon) = Ok st1
               /\ (cleaned st1 = cleaned st
                   \/ cleaned st1 = cleaned st ++ [(t, lat', lon')])).
    { unfold loop_body. rewrite Hc. cbn [bind].
      destruct (Nat.ltb 0 i); [|eexists; split; [reflexivity | right; reflexivity]].
      destruct (last_reading (cleaned st)) as [[[pt plat] plon]|] eqn:Ha;
        [|eexists; split; [reflexivity | right; reflexivity]].
      destruct (0 <? total_seconds (datetime_sub t pt)) eqn:Hdt;
        [|eexists; split; [reflexivity | right; reflexivity]].
      apply last_reading_in in Ha. destruct (Hinv _ Ha) as (p0 & Hp0 & Hcf0).
      destruct (HD p0 (t, lat, lon) pt plat plon t lat' lon' Hp0 Hp Hcf0 Hcf)
        as [d Hd].
      rewrite Hd. cbn [bind]. rewrite (float_div_positive _ _ Hdt). cbn [bind].
      destruct (300 <? _); eexists; split; try reflexivity; auto. }
    destruct Hb as (st1 & Hb & Hk). rewrite Hb. cbn [bind].
    apply IH.
    + intros x Hx. apply Hincl. right. exact Hx.
    + intros q Hq. destruct Hk as [Hk | Hk]; rewrite Hk in Hq.
      * apply Hinv. exact Hq.
      * apply in_app_or in Hq. destruct Hq as [Hq | [<- | []]].
        -- apply Hinv. exact Hq.
        -- exists (t, lat, lon). auto.
Qed.

Lemma sanity_check_conserves points c f s :
  sanity_check els eos points = Ok (c, f, s) ->
  (length c + s = length points)%nat.
Proof.
  unfold sanity_check.
  destruct (loop els eos points 0 initial_state) as [st|e] eqn:Hl;
    cbn [bind]; intros H; [|discriminate].
  injection H as <- <- <-. apply loop_conservation in Hl.
  cbn [initial_state cleaned skipped length] in Hl. lia.
Qed.

Lemma sanity_check_returns points :
  is_sign els -> is_sign eos -> distances_defined els eos points ->
  exists c f s, sanity_check els eos points = Ok (c, f, s)
                /\ (length c + s = length points)%nat.
Proof.
  intros H1 H2 HD.
  destruct (loop_returns points points H1 H2 HD 0%nat initial_state)
    as [st Hl].
  - intros x Hx. exact Hx.
  - intros q [].
  - exists (cleaned st), (flips st), (skipped st).
    assert (E : sanity_check els eos points = Ok (cleaned st, flips st, skipped st)).
    { unfold sanity_check. rewrite Hl. reflexivity. }
    split; [exact E|]. apply (sanity_check_conserves _ _ _ _ E).
Qed.
End Runs.

(* ================================================================= *)
(** * The claims *)

Section SanityCheckClaims.
Context {L : Libm}.

(** C1. A reading that finds an anchor (the last reading kept so far), lies a
  positive time [dt] after it, and whose haversine distance to it (on the
  sphere of radius 6,371,000 m) divided by [dt] and multiplied by 3.6
  exceeds 300, is not appended to [cleaned]; [skipped] grows by exactly one;
  the anchor of the next reading is the same. *)
Theorem unrealistic_jump_is_skipped
      els eos pre st t lat lon prev_t prev_lat prev_lon lat' lon' flipped dist :
loop els eos pre 0 initial_state = Ok st ->
last_reading (cleaned st) = Some (prev_t, prev_lat, prev_lon) ->
correct_sign lat lon els eos = Ok (lat', lon', flipped) ->
(0 <? total_seconds (datetime_sub t prev_t)) = true ->
haversine prev_lat prev_lon lat' lon' = Ok dist ->
(300 <? dist / total_seconds (datetime_sub t prev_t) * three_point_six) = true ->
exists st',
  loop els eos (pre ++ [(t, lat, lon)]) 0 initial_state = Ok st'
  /\ cleaned st' = cleaned st
  /\ skipped st' = S (skipped st)
  /\ last_reading (cleaned st') = Some (prev_t, prev_lat, prev_lon).
Proof.
intros Hl Ha Hc Hdt Hd Hs.
rewrite (turn_with_anchor _ _ _ _ _ _ _ _ _ _ _ _ _ Hl Ha Hc).
cbv zeta. rewrite Hdt, Hd. cbn [bind].
rewrite (float_div_positive _ _ Hdt). cbn [bind]. rewrite Hs.
eexists. split; [reflexivity|]. cbn [cleaned skipped]. auto.
Qed.

(** C2. The latitude is negated exactly when its magnitude exceeds 1 and its
  sign disagrees with the expected one, and the longitude likewise, each on
  its own; a value of magnitude at most 1 is left alone; the corrections
  counter of a turn of the loop grows by one when an axis flipped (one, not
  two, when both did) and stays otherwise. *)
Theorem sign_correction_rule lat lon els eos :
is_sign els -> is_sign eos ->
let f0 := (1 <? abs lat) && disagrees lat els in
let f1 := (1 <? abs lon) && disagrees lon eos in
correct_sign lat lon els eos =
Ok (if f0 then - lat else lat, if f1 then - lon else lon, [f0; f1])
/\ ((abs lat <=? 1) = true -> f0 = false)
/\ ((abs lon <=? 1) = true -> f1 = false)
/\ (forall st i t st',
       loop_body els eos st i (t, lat, lon) = Ok st' ->
       flips st' = (flips st + (if f0 || f1 then 1 else 0))%nat).
Proof.
intros H1 H2 f0 f1.
pose proof (correct_sign_spec lat lon els eos H1 H2) as Hc. cbv zeta in Hc.
fold f0 f1 in Hc. split; [exact Hc|]. split; [|split].
- intros H. unfold f0. now rewrite (leb_not_ltb _ _ H).
- intros H. unfold f1. now rewrite (leb_not_ltb _ _ H).
- intros st i t st' Hb. apply loop_body_inv in Hb.
  destruct Hb as (lat' & lon' & flipped & Hc' & Hf & _).
  rewrite Hc in Hc'. injection Hc' as _ _ <-. rewrite Hf.
  unfold any. cbn [existsb]. rewrite orb_false_r.
  destruct (f0 || f1); lia.
Qed.

(** C4. A reading whose elapsed time to the anchor is zero or negative (its
  timestamp is the anchor's or an earlier one) is appended whatever the
  distance: no speed is computed.  The sanity check never raises
  [ZeroDivisionError]. *)
Theorem elapsed_time_not_positive_is_accepted
      els eos pre st t lat lon prev_t prev_lat prev_lon lat' lon' flipped :
loop els eos pre 0 initial_state = Ok st ->
last_reading (cleaned st) = Some (prev_t, prev_lat, prev_lon) ->
correct_sign lat lon els eos = Ok (lat', lon', flipped) ->
(total_seconds (datetime_sub t prev_t) <=? 0) = true
\/ (instant t <= instant prev_t)%Z ->
(exists st',
    loop els eos (pre ++ [(t, lat, lon)]) 0 initial_state = Ok st'
    /\ cleaned st' = cleaned st ++ [(t, lat', lon')]
    /\ skipped st' = skipped st)
/\ (forall points, sanity_check els eos points <> Raise ZeroDivisionError).
Proof.
intros Hl Ha Hc Hdt. split.
- assert (H : (0 <? total_seconds (datetime_sub t prev_t)) = false).
  { destruct Hdt as [H | H].
    - now apply leb_not_ltb.
    - apply int_true_divide_not_positive. rewrite datetime_sub_instant. lia. }
  rewrite (turn_with_anchor _ _ _ _ _ _ _ _ _ _ _ _ _ Hl Ha Hc).
  cbv zeta. rewrite H. eexists. split; [reflexivity|]. auto.
- intros points E. pose proof (sanity_check_raises els eos points) as R.
  rewrite E in R. apply R. reflexivity.
Qed.

(** C7. With expected signs (+1, -1) the single reading (t, 43.5, 79.2)
  comes out as (t, 43.5, -79.2) with one correction, and that output, given
  again, comes out unchanged with none.  So it is for every single reading
  and every pair of expected signs. *)
Theorem sign_correction_is_idempotent t :
(sanity_check 1 (-1) [(t, 43.5, decimal_79_2)]
 = Ok ([(t, 43.5, - decimal_79_2)], 1%nat, 0%nat)
 /\ sanity_check 1 (-1) [(t, 43.5, - decimal_79_2)]
    = Ok ([(t, 43.5, - decimal_79_2)], 0%nat, 0%nat))
/\ (forall els eos lat lon,
       is_sign els -> is_sign eos ->
       exists lat' lon' n,
         sanity_check els eos [(t, lat, lon)] = Ok ([(t, lat', lon')], n, 0%nat)
         /\ sanity_check els eos [(t, lat', lon')]
            = Ok ([(t, lat', lon')], 0%nat, 0%nat)).
Proof.
split; [split; reflexivity|].
intros els eos lat lon H1 H2.
pose proof (correct_sign_spec lat lon els eos H1 H2) as Hc.
pose proof (corrected_sign_agrees lat els H1) as A0.
pose proof (corrected_sign_agrees lon eos H2) as A1.
cbv zeta in Hc, A0, A1.
set (f0 := (1 <? abs lat) && disagrees lat els) in *.
set (f1 := (1 <? abs lon) && disagrees lon eos) in *.
exists (if f0 then - lat else lat), (if f1 then - lon else lon),
  (if any [f0; f1] then 1%nat else 0%nat).
split; [exact (single_reading els eos t _ _ _ _ _ Hc)|].
apply (single_reading els eos t _ _ _ _ [false; false]).
unfold correct_sign. rewrite A0, A1. reflexivity.
Qed.

(** C9. Whatever the sanity check returns, its cleaned sequence is a
  subsequence, in the original order, of the input readings with their
  signs corrected; a sign-corrected reading has the timestamp of the input
  reading and coordinates of the same absolute values. *)
Theorem sanitize_changes_signs_only els eos points c f s :
sanity_check els eos points = Ok (c, f, s) ->
exists corrected,
  Forall2 (corrected_from els eos) points corrected
  /\ Forall2 same_up_to_sign points corrected
  /\ subsequence c corrected
  /\ (forall q, In q c -> exists p, In p points /\ same_up_to_sign p q).
Proof.
unfold sanity_check.
destruct (loop els eos points 0 initial_state) as [st|e] eqn:Hl;
  cbn [bind]; intros H; [|discriminate].
injection H as <- <- <-. apply loop_subsequence in Hl.
destruct Hl as (corrected & kept & HF & HS & HC). cbn [initial_state cleaned app] in HC.
subst kept. exists corrected.
assert (HU : Forall2 same_up_to_sign points corrected).
{ eapply Forall2_impl; [|exact HF]. apply corrected_same_up_to_sign. }
repeat split; auto.
intros q Hq. apply (subsequence_in _ _ _ HS) in Hq.
apply (Forall2_in_right _ _ _ _ HU Hq).
Qed.

(** C10. The corrections counter counts the readings whose sign was flipped
  among all the readings processed, those that the jump test then skips
  included.  Where the mathematics library puts (43, -79) and (44, -79)
  far enough apart for a speed above 300 over one second, the reading
  (-44, -79) is counted as corrected and skipped: one correction, and no
  corrected reading in the output. *)
Theorem corrections_count_skipped_readings :
(forall els eos points c f s,
    sanity_check els eos points = Ok (c, f, s) ->
    f = length (filter (sign_flipped els eos) points))
/\ (forall d,
       haversine 43 (-79) 44 (-79) = Ok d ->
       (300 <? d / total_seconds (datetime_sub noon_1 noon) * three_point_six) = true ->
       let p1 := (noon, 43, -79) in
       let p2 := (noon_1, -44, -79) in
       sanity_check 1 (-1) [p1; p2] = Ok ([p1], 1%nat, 1%nat)
       /\ sign_flipped 1 (-1) p1 = false
       /\ sign_flipped 1 (-1) p2 = true
       /\ (length (filter (sign_flipped 1 (-1)) [p1]) < 1)%nat).
Proof.
split.
- intros els eos points c f s. unfold sanity_check.
  destruct (loop els eos points 0 initial_state) as [st|e] eqn:Hl;
    cbn [bind]; intros H; [|discriminate].
  injection H as <- <- <-. apply loop_flips in Hl.
  cbn [initial_state flips] in Hl. lia.
- intros d Hd Hs p1 p2. repeat split; try reflexivity; [|cbn; lia].
  unfold sanity_check. change [p1; p2] with ([p1] ++ [p2]).
  rewrite (turn_with_anchor 1 (-1) [p1] (LoopState [p1] 0 0) noon_1 (-44) (-79)
             noon 43 (-79) 44 (-79) [true; false] eq_refl eq_refl eq_refl).
  cbv zeta.
  change (0 <? total_seconds (datetime_sub noon_1 noon)) with true.
  cbv iota. rewrite Hd. cbn [bind].
  rewrite float_div_positive by reflexivity. cbn [bind]. rewrite Hs.
  reflexivity.
Qed.
End SanityCheckClaims.

(** C5. The hemisphere letters decide the sign.  [parse("43.5S 79.2E")] is
    (-43.5, 79.2), [parse("43.5N 79.2W")] is (43.5, -79.2), and
    [parse("43.5 79.2")], with no letter, is (43.5, 79.2).  Whatever the text,
    when the pattern is found the first and the third group are read as
    floats; an S or W letter makes the value its negated absolute value, an N
    or E letter its absolute value, and no letter leaves it as read. *)
Theorem hemisphere_letters_decide_the_sign :
  (extract_coords_from_text (lit "43.5S 79.2E")
   = Ok (Some ((-43.5)%float, decimal_79_2))
   /\ extract_coords_from_text (lit "43.5N 79.2W")
      = Ok (Some (43.5%float, (- decimal_79_2)%float))
   /\ extract_coords_from_text (lit "43.5 79.2")
      = Ok (Some (43.5%float, decimal_79_2)))
  /\ (forall txt m,
         search pattern txt = Some m ->
         exists n1 n2 v1 v2 lat lon,
           group m 1 = Some n1 /\ python_float n1 = Ok v1
           /\ group m 3 = Some n2 /\ python_float n2 = Ok v2
           /\ extract_coords_from_text txt = Ok (Some (lat, lon))
           /\ (group m 2 = None -> lat = v1)
           /\ (group m 2 = Some ["S"%char] \/ group m 2 = Some ["s"%char] ->
               lat = (- abs v1)%float)
           /\ (group m 2 = Some ["N"%char] \/ group m 2 = Some ["n"%char] ->
               lat = abs v1)
           /\ (group m 2 = None
               \/ exists c, group m 2 = Some [c] /\ is_ns c = true)
           /\ (group m 4 = None -> lon = v2)
           /\ (group m 4 = Some ["W"%char] \/ group m 4 = Some ["w"%char] ->
               lon = (- abs v2)%float)
           /\ (group m 4 = Some ["E"%char] \/ group m 4 = Some ["e"%char] ->
               lon = abs v2)
           /\ (group m 4 = None
               \/ exists c, group m 4 = Some [c] /\ is_ew c = true)).
Proof.
  split; [repeat split; reflexivity|].
  intros txt m Hs. apply extract_of_match in Hs.
  destruct Hs as (n1 & ns & n2 & ew & v1 & v2 & _ & _ & Hns & Hew
                  & G1 & G3 & G2 & G4 & F1 & F2 & E).
  exists n1, n2, v1, v2, (hemisphere "S" ns v1), (hemisphere "W" ew v2).
  rewrite G2, G4.
  repeat (split; [assumption|]).
  assert (Lat : (opt_group ns = None -> hemisphere "S" ns v1 = v1)
                /\ (opt_group ns = Some ["S"%char] \/ opt_group ns = Some ["s"%char] ->
                    hemisphere "S" ns v1 = (- abs v1)%float)
                /\ (opt_group ns = Some ["N"%char] \/ opt_group ns = Some ["n"%char] ->
                    hemisphere "S" ns v1 = abs v1)
                /\ (opt_group ns = None
                    \/ exists c, opt_group ns = Some [c] /\ is_ns c = true)).
  { destruct Hns as [-> | (c & -> & Hc)]; cbn [opt_group].
    - repeat split; auto; intros [H | H]; discriminate.
    - repeat split.
      + discriminate.
      + intros [H | H]; injection H as ->; reflexivity.
      + intros [H | H]; injection H as ->; reflexivity.
      + right. exists c. auto. }
  assert (Lon : (opt_group ew = None -> hemisphere "W" ew v2 = v2)
                /\ (opt_group ew = Some ["W"%char] \/ opt_group ew = Some ["w"%char] ->
                    hemisphere "W" ew v2 = (- abs v2)%float)
                /\ (opt_group ew = Some ["E"%char] \/ opt_group ew = Some ["e"%char] ->
                    hemisphere "W" ew v2 = abs v2)
                /\ (opt_group ew = None
                    \/ exists c, opt_group ew = Some [c] /\ is_ew c = true)).
  { destruct Hew as [-> | (c & -> & Hc)]; cbn [opt_group].
    - repeat split; auto; intros [H | H]; discriminate.
    - repeat split.
      + discriminate.
      + intros [H | H]; injection H as ->; reflexivity.
      + intros [H | H]; injection H as ->; reflexivity.
      + right. exists c. auto. }
  tauto.
Qed.

(** C6. The parser never raises, and answers "no reading" exactly when
    no part of the text has the shape of the coordinate pattern: a signed
    decimal number, optional separators, an optional N/S letter, a second
    signed decimal number, optional separators, an optional E/W letter.  The
    empty text has no reading. *)
Theorem no_reading_iff_no_coordinates txt :
  exists r,
    extract_coords_from_text txt = Ok r
    /\ (r = None <-> ~ has_coordinates txt)
    /\ (r = None <-> ~ mentions_coordinates txt)
    /\ extract_coords_from_text [] = Ok None.
Proof.
  destruct (extract_never_raises txt) as [r Hr]. exists r.
  split; [exact Hr|].
  assert (H : r = None <-> ~ has_coordinates txt).
  { rewrite <- extract_none_iff, Hr. split; congruence. }
  split; [exact H|]. split; [|reflexivity].
  rewrite <- has_coordinates_mentions. exact H.
Qed.


(** C3 (a failing input).  The texts ["0.31 -0.5"] and ["-0.31 179.5"] are
    read as two points opposite each other on the sphere, one second apart,
    with expected signs (+1, +1).  The formula's [a] is 1 but for rounding;
    it rounds above 1, the square root of [1 - a] raises [ValueError], and the
    sanity check returns nothing where the jump was to be skipped. *)
Theorem antipodal_jump_raises :
  extract_coords_from_text (lit "0.31 -0.5") = Ok (Some (decimal_0_31, -0.5))
  /\ extract_coords_from_text (lit "-0.31 179.5")
     = Ok (Some (- decimal_0_31, 179.5))
  /\ sanity_check (L := Sample.libm) 1 1
       [(noon, decimal_0_31, -0.5); (noon_1, - decimal_0_31, 179.5)]
     = Raise ValueError.
Proof. repeat split; vm_compute; reflexivity. Qed.

(* ================================================================= *)
(** * The claims on concrete inputs *)

(** The specification's outlier: (43, -79), then (44, -79) a second later,
    about 111 km away. *)
Lemma unrealistic_jump_is_skipped_witness :
  exists st',
    loop (L := Sample.libm) 1 (-1) ([(noon, 43, -79)] ++ [(noon_1, 44, -79)])
         0 initial_state = Ok st'
    /\ cleaned st' = [(noon, 43, -79)]
    /\ skipped st' = 1%nat
    /\ last_reading (cleaned st') = Some (noon, 43, -79).
Proof.
  apply (unrealistic_jump_is_skipped (L := Sample.libm) 1 (-1)
           [(noon, 43, -79)] (LoopState [(noon, 43, -79)] 0 0)
           noon_1 44 (-79) noon 43 (-79) 44 (-79) [false; false]
           sample_distance);
    vm_compute; reflexivity.
Defined.

(** The specification's near-origin reading: (0.5, 0.5) with expected signs
    (-1, -1) is left as it is. *)
Lemma sign_correction_rule_witness :
  correct_sign 0.5 0.5 (-1) (-1) = Ok (0.5, 0.5, [false; false]).
Proof.
  exact (proj1 (sign_correction_rule (L := Sample.libm) 0.5 0.5 (-1) (-1)
                  (or_intror eq_refl) (or_intror eq_refl))).
Defined.

(** Two readings with the same timestamp, 111 km apart: both are kept. *)
Lemma elapsed_time_not_positive_witness :
  exists st',
    loop (L := Sample.libm) 1 (-1) ([(noon, 43, -79)] ++ [(noon, 44, -79)])
         0 initial_state = Ok st'
    /\ cleaned st' = [(noon, 43, -79)] ++ [(noon, 44, -79)]
    /\ skipped st' = 0%nat.
Proof.
  apply (elapsed_time_not_positive_is_accepted (L := Sample.libm) 1 (-1)
           [(noon, 43, -79)] (LoopState [(noon, 43, -79)] 0 0)
           noon 44 (-79) noon 43 (-79) 44 (-79) [false; false]);
    try reflexivity.
  left. reflexivity.
Defined.

Lemma hemisphere_letters_witness :
  exists n1 n2 v1 v2 lat lon,
    group match_43_5S_79_2E 1 = Some n1 /\ python_float n1 = Ok v1
    /\ group match_43_5S_79_2E 3 = Some n2 /\ python_float n2 = Ok v2
    /\ extract_coords_from_text (lit "43.5S 79.2E") = Ok (Some (lat, lon))
    /\ lat = - abs v1 /\ lon = abs v2.
Proof.
  destruct (proj2 hemisphere_letters_decide_the_sign (lit "43.5S 79.2E")
              match_43_5S_79_2E eq_refl)
    as (n1 & n2 & v1 & v2 & lat & lon & G1 & F1 & G3 & F2 & E & _ & HS & _ & _
        & _ & _ & HE & _).
  exists n1, n2, v1, v2, lat, lon.
  repeat (split; [assumption|]).
  split; [apply HS | apply HE]; left; reflexivity.
Defined.

Lemma sign_correction_is_idempotent_witness :
  exists lat' lon' n,
    sanity_check (L := Sample.libm) 1 (-1) [(noon, 43.5, decimal_79_2)]
    = Ok ([(noon, lat', lon')], n, 0%nat)
    /\ sanity_check (L := Sample.libm) 1 (-1) [(noon, lat', lon')]
       = Ok ([(noon, lat', lon')], 0%nat, 0%nat).
Proof.
  apply (proj2 (sign_correction_is_idempotent (L := Sample.libm) noon)
           1%Z (-1)%Z 43.5 decimal_79_2).
  - left. reflexivity.
  - right. reflexivity.
Defined.


Lemma sanitize_changes_signs_only_witness :
  exists corrected,
    Forall2 (corrected_from 1 (-1)) [(noon, 43, -79); (noon_1, -44, -79)] corrected
    /\ Forall2 same_up_to_sign [(noon, 43, -79); (noon_1, -44, -79)] corrected
    /\ subsequence [(noon, 43, -79)] corrected
    /\ (forall q, In q [(noon, 43, -79)] ->
                  exists p, In p [(noon, 43, -79); (noon_1, -44, -79)]
                            /\ same_up_to_sign p q).
Proof.
  apply (sanitize_changes_signs_only (L := Sample.libm) 1 (-1)
           [(noon, 43, -79); (noon_1, -44, -79)] [(noon, 43, -79)] 1 1).
  vm_compute. reflexivity.
Defined.

Lemma corrections_count_witness :
  sanity_check (L := Sample.libm) 1 (-1) [(noon, 43, -79); (noon_1, -44, -79)]
  = Ok ([(noon, 43, -79)], 1%nat, 1%nat)
  /\ sign_flipped 1 (-1) (noon, 43, -79) = false
  /\ sign_flipped 1 (-1) (noon_1, -44, -79) = true
  /\ (length (filter (sign_flipped 1 (-1)) [(noon, 43%float, (-79)%float)]) < 1)%nat.
Proof.
  apply (proj2 (corrections_count_skipped_readings (L := Sample.libm))
           sample_distance); vm_compute; reflexivity.
Defined.

(* ================================================================= *)
(** * Further properties *)

(** ** Chains of neighbours *)

Lemma LocallySorted_snoc {A} (R : A -> A -> Prop) l x y :
  LocallySorted R (l ++ [x]) -> R x y -> LocallySorted R (l ++ [x; y]).
Proof.
  induction l as [|a l IH]; cbn [app]; intros H Hxy.
  - constructor; [constructor | exact Hxy].
  - destruct l as [|b l]; cbn [app] in *.
    + inversion H; subst. constructor; [|assumption].
      constructor; [constructor | exact Hxy].
    + inversion H; subst. constructor; [|assumption]. apply IH; assumption.
Qed.

Lemma LocallySorted_middle {A} (R : A -> A -> Prop) l1 x y l2 :
  LocallySorted R (l1 ++ x :: y :: l2) -> R x y.
Proof.
  induction l1 as [|a l1 IH]; cbn [app]; intros H.
  - inversion H; subst. assumption.
  - apply IH. destruct l1; cbn [app] in *; inversion H; subst; assumption.
Qed.

Lemma last_reading_split l p :
  last_reading l = Some p -> exists l', l = l' ++ [p].
Proof.
  unfold last_reading. intros H. destruct (rev l) as [|q r] eqn:E; [discriminate|].
  injection H as ->. exists (rev r).
  rewrite <- (rev_involutive l), E. reflexivity.
Qed.

Lemma last_reading_none l : last_reading l = None -> l = [].
Proof.
  unfold last_reading. intros H. destruct (rev l) eqn:E; [|discriminate].
  rewrite <- (rev_involutive l), E. reflexivity.
Qed.

Section CleanedInvariants.
Context {L : Libm}.
Variables els eos : Z.

Lemma loop_body_chain st i p st' :
  loop_body els eos st i p = Ok st' ->
  (i = 0%nat -> cleaned st = []) ->
  LocallySorted passes_jump_test (cleaned st) ->
  LocallySorted passes_jump_test (cleaned st').
Proof.
  destruct p as [[t lat] lon]. unfold loop_body.
  destruct (correct_sign lat lon els eos) as [[[lat' lon'] flipped]|e];
    [|discriminate].
  cbn [bind]. intros H Hi Hc.
  assert (Hfirst : cleaned st = [] ->
                   LocallySorted passes_jump_test (cleaned st ++ [(t, lat', lon')])).
  { intros ->. constructor. }
  destruct (Nat.ltb 0 i) eqn:Hlt.
  - destruct (last_reading (cleaned st)) as [[[pt plat] plon]|] eqn:Ha.
    + destruct (last_reading_split _ _ Ha) as [l' El].
      assert (Hkeep : passes_jump_test (pt, plat, plon) (t, lat', lon') ->
                      LocallySorted passes_jump_test
                        (cleaned st ++ [(t, lat', lon')])).
      { intros Hp. rewrite El, <- app_assoc. cbn [app].
        apply LocallySorted_snoc; [rewrite <- El; exact Hc | exact Hp]. }
      destruct (0 <? total_seconds (datetime_sub t pt)) eqn:Hdt.
      * destruct (haversine plat plon lat' lon') as [dist|e] eqn:Hd;
          [|discriminate].
        cbn [bind] in H. rewrite (float_div_positive _ _ Hdt) in H.
        cbn [bind] in H.
        destruct (300 <? dist / total_seconds (datetime_sub t pt) * three_point_six)
          eqn:Hs; injection H as <-; cbn [cleaned]; [exact Hc|].
        apply Hkeep. right. exists dist. auto.
      * injection H as <-. cbn [cleaned]. apply Hkeep. left. exact Hdt.
    + injection H as <-. cbn [cleaned]. apply Hfirst.
      now apply last_reading_none.
  - injection H as <-. cbn [cleaned]. apply Hfirst. apply Hi.
    apply Nat.ltb_ge in Hlt. lia.
Qed.

Lemma loop_chain points :
  forall i st st',
    loop els eos points i st = Ok st' ->
    (i = 0%nat -> cleaned st = []) ->
    LocallySorted passes_jump_test (cleaned st) ->
    LocallySorted passes_jump_test (cleaned st').
Proof.
  induction points as [|p points IH]; intros i st st'; cbn [loop].
  - intros H _ Hc. injection H as <-. exact Hc.
  - destruct (loop_body els eos st i p) as [st1|e] eqn:Hb; cbn [bind];
      intros H Hi Hc; [|discriminate].
    apply (IH _ _ _ H); [discriminate|].
    apply (loop_body_chain _ _ _ _ Hb Hi Hc).
Qed.

Lemma corrected_signs_as_expected p p' :
  is_sign els -> is_sign eos ->
  corrected_from els eos p p' -> signs_as_expected els eos p'.
Proof.
  intros H1 H2. destruct p as [[t lat] lon], p' as [[t' lat'] lon'].
  intros [_ [flipped Hc]].
  rewrite (correct_sign_spec lat lon els eos H1 H2) in Hc.
  injection Hc as <- <- _.
  pose proof (corrected_sign_agrees lat els H1) as A0.
  pose proof (corrected_sign_agrees lon eos H2) as A1.
  cbv zeta in A0, A1.
  rewrite (wrong_sign_spec _ _ H1) in A0. rewrite (wrong_sign_spec _ _ H2) in A1.
  injection A0 as A0. injection A1 as A1.
  split; intros Hm; [rewrite Hm in A0; exact A0 | rewrite Hm in A1; exact A1].
Qed.

Lemma signs_as_expected_fixed t lat lon :
  is_sign els -> is_sign eos ->
  signs_as_expected els eos (t, lat, lon) ->
  correct_sign lat lon els eos = Ok (lat, lon, [false; false]).
Proof.
  intros H1 H2 [Ha Ho].
  rewrite (correct_sign_spec lat lon els eos H1 H2). cbv zeta.
  assert (E0 : (1 <? abs lat) && disagrees lat els = false).
  { unfold on_expected_side in Ha.
    destruct (1 <? abs lat); [apply Ha; reflexivity | reflexivity]. }
  assert (E1 : (1 <? abs lon) && disagrees lon eos = false).
  { unfold on_expected_side in Ho.
    destruct (1 <? abs lon); [apply Ho; reflexivity | reflexivity]. }
  rewrite E0, E1. reflexivity.
Qed.

(** Running the loop over a list that is already clean keeps all of it. *)
Lemma loop_clean_list rest :
  is_sign els -> is_sign eos ->
  forall done,
    LocallySorted passes_jump_test (done ++ rest) ->
    Forall (signs_as_expected els eos) rest ->
    loop els eos rest (length done) (LoopState done 0 0)
    = Ok (LoopState (done ++ rest) 0 0).
Proof.
  intros H1 H2. induction rest as [|[[t lat] lon] rest IH]; intros done Hc Hs;
    cbn [loop].
  - now rewrite app_nil_r.
  - inversion Hs as [|? ? Hq Hs']; subst.
    assert (Hb : loop_body els eos (LoopState done 0 0) (length done) (t, lat, lon)
                 = Ok (LoopState (done ++ [(t, lat, lon)]) 0 0)).
    { unfold loop_body. rewrite (signs_as_expected_fixed _ _ _ H1 H2 Hq).
      cbn [bind any existsb orb cleaned flips skipped].
      destruct (Nat.ltb 0 (length done)); [|reflexivity].
      destruct (last_reading done) as [[[pt plat] plon]|] eqn:Ha; [|reflexivity].
      destruct (last_reading_split _ _ Ha) as [l' ->].
      rewrite <- app_assoc in Hc. cbn [app] in Hc.
      apply LocallySorted_middle in Hc.
      unfold passes_jump_test in Hc. cbv beta iota zeta in Hc.
      destruct (0 <? total_seconds (datetime_sub t pt)) eqn:Hdt; [|reflexivity].
      destruct Hc as [Hc | (dist & Hd & Hv)]; [congruence|].
      rewrite Hd. cbn [bind]. rewrite (float_div_positive _ _ Hdt). cbn [bind].
      rewrite Hv. reflexivity. }
    rewrite Hb. cbn [bind].
    replace (S (length done)) with (length (done ++ [(t, lat, lon)]))
      by (rewrite length_app; cbn [length]; lia).
    rewrite IH; [| rewrite <- app_assoc; exact Hc | exact Hs'].
    rewrite <- app_assoc. reflexivity.
Qed.
End CleanedInvariants.

Lemma subsequence_length {A} (l1 l2 : list A) :
  subsequence l1 l2 -> (length l1 <= length l2)%nat.
Proof. induction 1; cbn [length]; lia. Qed.

Lemma Forall2_length_eq {A B} (R : A -> B -> Prop) l1 l2 :
  Forall2 R l1 l2 -> length l1 = length l2.
Proof. induction 1; cbn [length]; lia. Qed.

Section Runs2.
Context {L : Libm}.
Variables els eos : Z.

Lemma loop_skipped_grows points i st st' :
  loop els eos points i st = Ok st' -> (skipped st <= skipped st')%nat.
Proof.
  intros H. pose proof (loop_conservation els eos _ _ _ _ H) as Hc.
  apply loop_subsequence in H.
  destruct H as (corrected & kept & HF & HS & HC).
  apply subsequence_length in HS. apply Forall2_length_eq in HF.
  rewrite HC, length_app in Hc. lia.
Qed.

(** Where the loop raises, a distance between two sign-corrected readings
    of the input raised it. *)
Lemma loop_raise_source all_points points :
  is_sign els -> is_sign eos ->
  forall i st e,
    incl points all_points ->
    (forall q, In q (cleaned st) ->
               exists p, In p all_points /\ corrected_from els eos p q) ->
    loop els eos points i st = Raise e ->
    exists p q t1 lat1 lon1 t2 lat2 lon2,
      In p all_points /\ In q all_points
      /\ corrected_from els eos p (t1, lat1, lon1)
      /\ corrected_from els eos q (t2, lat2, lon2)
      /\ haversine lat1 lon1 lat2 lon2 = Raise e.
Proof.
  intros H1 H2.
  induction points as [|[[t lat] lon] points IH]; intros i st e Hincl Hinv;
    cbn [loop]; [discriminate|].
  pose proof (correct_sign_spec lat lon els eos H1 H2) as Hc. cbv zeta in Hc.
  set (lat' := if (1 <? abs lat) && disagrees lat els then - lat else lat) in *.
  set (lon' := if (1 <? abs lon) && disagrees lon eos then - lon else lon) in *.
  assert (Hp : In (t, lat, lon) all_points) by (apply Hincl; left; reflexivity).
  assert (Hcf : corrected_from els eos (t, lat, lon) (t, lat', lon')).
  { split; [reflexivity | eexists; exact Hc]. }
  destruct (loop_body els eos st i (t, lat, lon)) as [st1|e1] eqn:Hb; cbn [bind].
  - intros H. apply (IH _ _ _) in H; [exact H | |].
    + intros x Hx. apply Hincl. right. exact Hx.
    + apply loop_body_inv in Hb.
      destruct Hb as (la & lo & fl & Hc' & _ & Hk).
      rewrite Hc in Hc'. injection Hc' as <- <- _.
      intros q Hq. destruct Hk as [[Hk _] | [Hk _]]; rewrite Hk in Hq.
      * apply Hinv. exact Hq.
      * apply in_app_or in Hq. destruct Hq as [Hq | [<- | []]].
        -- apply Hinv. exact Hq.
        -- exists (t, lat, lon). auto.
  - intros H. injection H as <-. unfold loop_body in Hb. rewrite Hc in Hb.
    cbn [bind] in Hb.
    destruct (Nat.ltb 0 i); [|discriminate].
    destruct (last_reading (cleaned st)) as [[[pt plat] plon]|] eqn:Ha;
      [|discriminate].
    destruct (0 <? total_seconds (datetime_sub t pt)) eqn:Hdt; [|discriminate].
    apply last_reading_in in Ha. destruct (Hinv _ Ha) as (p0 & Hp0 & Hcf0).
    destruct (haversine plat plon lat' lon') as [dist|e2] eqn:Hd.
    + cbn [bind] in Hb. rewrite (float_div_positive _ _ Hdt) in Hb.
      cbn [bind] in Hb. destruct (300 <? _); discriminate.
    + cbn [bind] in Hb. injection Hb as <-.
      exists p0, (t, lat, lon), pt, plat, plon, t, lat', lon'. auto.
Qed.
Lemma sanity_check_loop points c f s :
  sanity_check els eos points = Ok (c, f, s) ->
  loop els eos points 0 initial_state = Ok (LoopState c f s).
Proof.
  unfold sanity_check.
  destruct (loop els eos points 0 initial_state) as [[c' f' s']|e];
    cbn [bind cleaned flips skipped]; intros H; [|discriminate].
  injection H as <- <- <-. reflexivity.
Qed.

Lemma loop_raises_math points :
  forall i st, raises_only domain_or_range (loop els eos points i st).
Proof.
  induction points as [|p points IH]; intros i st; cbn [loop]; [exact I|].
  apply raises_only_bind; [|intros st'; apply IH].
  destruct p as [[t lat] lon]. unfold loop_body.
  apply raises_only_bind.
  { eapply raises_only_weaken; [|apply correct_sign_raises].
    intros x <-. right. reflexivity. }
  intros [[lat' lon'] fl].
  destruct (Nat.ltb 0 i); [|exact I].
  destruct (last_reading (cleaned st)) as [[[pt plat] plon]|]; [|exact I].
  destruct (0 <? total_seconds (datetime_sub t pt)) eqn:Hdt; [|exact I].
  apply raises_only_bind; [apply haversine_raises|].
  intros dist. rewrite (float_div_positive _ _ Hdt). cbn [bind].
  destruct (300 <? _); exact I.
Qed.

Lemma sanity_check_raises_math points :
  raises_only domain_or_range (sanity_check els eos points).
Proof.
  unfold sanity_check.
  apply raises_only_bind; [apply loop_raises_math | intros st; exact I].
Qed.

Lemma kept_are_corrected points c f s q :
  sanity_check els eos points = Ok (c, f, s) -> In q c ->
  exists p, In p points /\ corrected_from els eos p q.
Proof.
  intros H Hq. apply sanity_check_loop, loop_subsequence in H.
  destruct H as (corrected & kept & HF & HS & HC).
  cbn [initial_state cleaned app] in HC. subst kept.
  apply (subsequence_in _ _ _ HS) in Hq.
  apply (Forall2_in_right _ _ _ _ HF Hq).
Qed.
End Runs2.

(** ** What the sanity check returns *)

Section SanityCheckExtras.
Context {L : Libm}.
Variables els eos : Z.

(** X1. Whenever [sanity_check] returns, every reading is in [cleaned] or
    counted in [skipped]: their numbers add up to the number of readings.  It
    does return when the expected signs are +1 or -1 and every distance
    between two sign-corrected readings of the input is defined. *)
Theorem returned_counts_add_up points :
  (forall c f s,
      sanity_check els eos points = Ok (c, f, s) ->
      (length c + s = length points)%nat)
  /\ (is_sign els -> is_sign eos -> distances_defined els eos points ->
      exists c f s, sanity_check els eos points = Ok (c, f, s)).
Proof.
  split.
  - apply sanity_check_conserves.
  - intros H1 H2 HD.
    destruct (sanity_check_returns els eos points H1 H2 HD) as (c & f & s & E & _).
    exists c, f, s. exact E.
Qed.

(** X2. In what [sanity_check] returns, every reading passed the jump test
    against the reading just before it in [cleaned]: no time had passed, or
    the speed between the two is not above 300. *)
Theorem kept_neighbours_pass_the_jump_test points c f s before p q after :
  sanity_check els eos points = Ok (c, f, s) ->
  c = before ++ p :: q :: after ->
  passes_jump_test p q.
Proof.
  unfold sanity_check.
  destruct (loop els eos points 0 initial_state) as [st|e] eqn:Hl;
    cbn [bind]; intros H; [|discriminate].
  injection H as <- <- <-. intros E.
  apply loop_chain in Hl; [| reflexivity | constructor].
  rewrite E in Hl. apply (LocallySorted_middle _ _ _ _ _ Hl).
Qed.

(** X3. With expected signs +1 or -1, every coordinate of a kept reading
    that lies more than one degree from zero has the expected sign. *)
Theorem kept_readings_have_expected_signs points c f s :
  is_sign els -> is_sign eos ->
  sanity_check els eos points = Ok (c, f, s) ->
  Forall (signs_as_expected els eos) c.
Proof.
  intros H1 H2 H. apply Forall_forall. intros q Hq.
  destruct (kept_are_corrected els eos points c f s q H Hq) as (p & _ & Hc).
  apply (corrected_signs_as_expected els eos p q H1 H2 Hc).
Qed.

(** X4. The sanity check is idempotent: given its own output again, with
    the same expected signs (+1 or -1), it returns that output unchanged, with
    no correction and nothing skipped. *)
Theorem sanity_check_is_idempotent points c f s :
  is_sign els -> is_sign eos ->
  sanity_check els eos points = Ok (c, f, s) ->
  sanity_check els eos c = Ok (c, 0%nat, 0%nat).
Proof.
  intros H1 H2 H.
  assert (HS : Forall (signs_as_expected els eos) c).
  { apply Forall_forall. intros q Hq.
    destruct (kept_are_corrected els eos points c f s q H Hq) as (p & _ & Hc).
    apply (corrected_signs_as_expected els eos p q H1 H2 Hc). }
  assert (HC : LocallySorted passes_jump_test c).
  { apply sanity_check_loop in H.
    apply loop_chain in H; [exact H | reflexivity | constructor]. }
  unfold sanity_check.
  change initial_state with (LoopState [] 0 0).
  change 0%nat with (length (@nil reading)) at 1.
  rewrite (loop_clean_list els eos c H1 H2 [] HC HS). reflexivity.
Qed.

(** X5. The first reading is always kept: for an input that is not empty
    the output begins with the first reading, signs corrected, so at least
    one reading is kept, at most all but one are skipped, and there are no
    more corrections than readings. *)
Theorem first_reading_is_kept p rest c f s :
  sanity_check els eos (p :: rest) = Ok (c, f, s) ->
  (exists p' c', c = p' :: c' /\ corrected_from els eos p p')
  /\ (s <= length rest)%nat
  /\ (f <= S (length rest))%nat.
Proof.
  intros H. pose proof (sanity_check_conserves els eos _ _ _ _ H) as Hn.
  apply sanity_check_loop in H.
  pose proof (loop_flips els eos _ _ _ _ H) as Hf.
  cbn [initial_state flips Nat.add] in Hf.
  pose proof (filter_length_le (sign_flipped els eos) (p :: rest)) as Hle.
  cbn [loop] in H.
  destruct (loop_body els eos initial_state 0 p) as [st1|e] eqn:Hb;
    cbn [bind] in H; [|discriminate].
  assert (Hfirst : exists p', cleaned st1 = [p'] /\ corrected_from els eos p p').
  { destruct p as [[t lat] lon]. unfold loop_body in Hb.
    destruct (correct_sign lat lon els eos) as [[[lat' lon'] fl]|e] eqn:Hc;
      [|discriminate].
    cbn [bind Nat.ltb Nat.leb] in Hb. injection Hb as <-.
    exists (t, lat', lon'). split; [reflexivity|].
    split; [reflexivity | eexists; exact Hc]. }
  destruct Hfirst as (p' & Hk & Hc).
  apply loop_subsequence in H. destruct H as (corrected & kept & _ & _ & HC).
  rewrite Hk in HC. cbn [cleaned app] in HC.
  split; [exists p', kept; auto|].
  rewrite HC in Hn. cbn [length] in *. lia.
Qed.

(** X6. The pass is online: what it returns for a longer input begins
    with what it returns for the shorter one, and neither counter is lower.
    Later readings never revise the fate of earlier ones. *)
Theorem earlier_output_is_never_revised pre post c f s :
  sanity_check els eos (pre ++ post) = Ok (c, f, s) ->
  exists c1 f1 s1 c2,
    sanity_check els eos pre = Ok (c1, f1, s1)
    /\ c = c1 ++ c2 /\ (f1 <= f)%nat /\ (s1 <= s)%nat.
Proof.
  intros H. apply sanity_check_loop in H. rewrite loop_app in H.
  destruct (loop els eos pre 0 initial_state) as [st1|e] eqn:H1;
    cbn [bind] in H; [|discriminate].
  pose proof (loop_flips els eos _ _ _ _ H) as Hf.
  pose proof (loop_skipped_grows els eos _ _ _ _ H) as Hs.
  apply loop_subsequence in H. destruct H as (corrected & kept & _ & _ & HC).
  cbn [cleaned flips skipped] in *.
  exists (cleaned st1), (flips st1), (skipped st1), kept.
  split; [unfold sanity_check; rewrite H1; reflexivity|].
  split; [exact HC | lia].
Qed.

(** X7. The sanity check raises nothing but [ValueError] and
    [OverflowError]; with expected signs +1 or -1, what it raises was raised
    by [haversine] on two readings of the input, signs corrected. *)
Theorem sanity_check_raises_only_math_errors points e :
  sanity_check els eos points = Raise e ->
  (e = ValueError \/ e = OverflowError)
  /\ (is_sign els -> is_sign eos ->
      exists p q t1 lat1 lon1 t2 lat2 lon2,
        In p points /\ In q points
        /\ corrected_from els eos p (t1, lat1, lon1)
        /\ corrected_from els eos q (t2, lat2, lon2)
        /\ haversine lat1 lon1 lat2 lon2 = Raise e).
Proof.
  intros H.
  assert (Hl : loop els eos points 0 initial_state = Raise e).
  { unfold sanity_check in H.
    destruct (loop els eos points 0 initial_state); cbn [bind] in H;
      [discriminate | injection H as ->; reflexivity]. }
  split.
  - pose proof (loop_raises_math els eos points 0%nat initial_state) as R.
    rewrite Hl in R. exact R.
  - intros H1 H2.
    apply (loop_raise_source els eos points points H1 H2 0%nat initial_state e);
      [intros x Hx; exact Hx | intros q [] | exact Hl].
Qed.
End SanityCheckExtras.

(** X8. With expected signs +1 or -1, [correct_sign] returns for every pair
    of floats, and correcting what it returned changes nothing: the second
    time both coordinates come back as they are and neither is flagged. *)
Theorem correcting_twice_changes_nothing lat lon els eos :
  is_sign els -> is_sign eos ->
  exists lat' lon' flipped,
    correct_sign lat lon els eos = Ok (lat', lon', flipped)
    /\ correct_sign lat' lon' els eos = Ok (lat', lon', [false; false]).
Proof.
  intros H1 H2.
  pose proof (correct_sign_spec lat lon els eos H1 H2) as Hc. cbv zeta in Hc.
  eexists _, _, _. split; [exact Hc|].
  apply (signs_as_expected_fixed els eos (Datetime 1 1 1 0 0 0 0) _ _ H1 H2).
  apply (corrected_signs_as_expected els eos (Datetime 1 1 1 0 0 0 0, lat, lon));
    try assumption.
  split; [reflexivity | eexists; exact Hc].
Qed.

Local Close Scope float_scope.

(** ** The leftmost match *)

Lemma search_from_leftmost r s :
  forall pos m,
    search_from r s pos = Some m ->
    forall before w after,
      s = before ++ w ++ after -> in_language r w ->
      (m_start m <= pos + length before)%nat.
Proof.
  induction s as [|c s IH]; intros pos m; cbn [search_from].
  - destruct (match_at r [] pos) eqn:Hm; [|discriminate].
    intros E. injection E as ->. apply match_at_some in Hm.
    destruct Hm as (_ & _ & _ & _ & _ & ->). intros. lia.
  - destruct (match_at r (c :: s) pos) eqn:Hm.
    + intros E. injection E as ->. apply match_at_some in Hm.
      destruct Hm as (_ & _ & _ & _ & _ & ->). intros. lia.
    + intros H before w after E Lw. destruct before as [|b before].
      * exfalso. cbn [app] in E.
        apply (proj1 (match_at_none _ _ _) Hm w after E Lw).
      * cbn [app] in E. injection E as -> ->.
        specialize (IH _ _ H before w after eq_refl Lw). cbn [length]. lia.
Qed.

Local Close Scope py_scope.

(** ** The order in which the matcher tries *)

Section Priority.
Variable A : Type.

(** A repetition takes as many characters as the rest of the pattern
    allows: with more of them, the rest fails. *)
Lemma match_rep_greedy p lo hi s (k : text -> option A) a :
  match_rep p lo hi s k = Some a ->
  exists w s',
    s = w ++ s' /\ all_in p w /\ lo <= length w /\ within hi (length w)
    /\ k s' = Some a
    /\ (forall w2 s2,
           s = w2 ++ s2 -> all_in p w2 -> within hi (length w2) ->
           length w < length w2 -> k s2 = None).
Proof.
  revert lo hi. induction s as [|c s IH]; intros lo hi.
  - cbn [match_rep]. destruct lo; [|discriminate]. intros H.
    exists [], []. repeat split; cbn [length]; auto.
    + constructor.
    + destruct hi; cbn [within]; lia.
    + intros w2 s2 E _ _ Hl. symmetry in E. apply app_eq_nil in E.
      destruct E as [-> _]. cbn [length] in Hl. lia.
  - cbn [match_rep]. destruct (p c && may_take hi) eqn:Hc.
    + apply andb_prop in Hc. destruct Hc as [Hp Hm].
      destruct (match_rep p (Nat.pred lo) (option_map Nat.pred hi) s k) eqn:Hr.
      * intros E. injection E as ->.
        destruct (IH _ _ Hr) as (w & s' & -> & Hall & Hlo & Hhi & Hk & Hmax).
        exists (c :: w), s'. repeat split; cbn [length app]; auto.
        -- constructor; assumption.
        -- lia.
        -- apply within_step; assumption.
        -- intros w2 s2 E Hall2 Hhi2 Hl. destruct w2 as [|c2 w2];
             [cbn [length] in Hl; lia|].
           cbn [app] in E. injection E as <- E.
           apply (Hmax w2 s2 E).
           ++ inversion Hall2; assumption.
           ++ apply within_pred. exact Hhi2.
           ++ cbn [length] in Hl. lia.
      * destruct lo; [|discriminate]. intros H.
        exists [], (c :: s). repeat split; cbn [length]; auto.
        -- constructor.
        -- destruct hi; cbn [within]; lia.
        -- intros w2 s2 E Hall2 Hhi2 Hl. destruct w2 as [|c2 w2];
             [cbn [length] in Hl; lia|].
           cbn [app] in E. injection E as <- E.
           apply (proj1 (match_rep_none A p _ _ s k) Hr w2 s2 E).
           ++ inversion Hall2; assumption.
           ++ cbn [Nat.pred]. lia.
           ++ apply within_pred. exact Hhi2.
    + destruct lo; [|discriminate]. intros H.
      exists [], (c :: s). repeat split; cbn [length]; auto.
      * constructor.
      * destruct hi; cbn [within]; lia.
      * intros w2 s2 E Hall2 Hhi2 Hl. destruct w2 as [|c2 w2];
          [cbn [length] in Hl; lia|].
        cbn [app] in E. injection E as <- E.
        inversion Hall2 as [|? ? Hp2 _]; subst.
        apply within_may_take in Hhi2. rewrite Hp2, Hhi2 in Hc. discriminate.
Qed.
End Priority.

(** Whether a word matches does not depend on the groups so far. *)
Lemma matches_any_caps r w c0 c1 :
  matches r w c0 c1 -> forall c0', exists c1', matches r w c0' c1'.
Proof.
  induction 1 as [c0|p c c0 Hp|r1 r2 w1 w2 c0 c1 c2 _ IH1 _ IH2|r w c0 c1 _ IH
                  |r c0|p lo hi w c0 Ha Hlo Hhi|i r w c0 c1 _ IH]; intros c0'.
  - eexists. constructor.
  - eexists. constructor. exact Hp.
  - destruct (IH1 c0') as [c1' M1]. destruct (IH2 c1') as [c2' M2].
    eexists. econstructor; eassumption.
  - destruct (IH c0') as [c1' M]. eexists. apply matches_opt_taken. exact M.
  - eexists. apply matches_opt_skipped.
  - eexists. constructor; assumption.
  - destruct (IH c0') as [c1' M]. eexists. constructor. exact M.
Qed.

Lemma search_from_match_at r s : forall pos m,
  search_from r s pos = Some m ->
  exists before s',
    s = before ++ s' /\ match_at r s' (pos + length before) = Some m.
Proof.
  induction s as [|c s IH]; intros pos m; cbn [search_from].
  - destruct (match_at r [] pos) eqn:Hm; [|discriminate].
    intros E. injection E as ->. exists [], []. cbn [length app].
    rewrite Nat.add_0_r. auto.
  - destruct (match_at r (c :: s) pos) eqn:Hm.
    + intros E. injection E as ->. exists [], (c :: s). cbn [length app].
      rewrite Nat.add_0_r. auto.
    + intros H. apply IH in H. destruct H as (before & s' & -> & H).
      exists (c :: before), s'. cbn [length app].
      rewrite <- Nat.add_succ_comm. auto.
Qed.

(** ** The match the pattern settles on *)

Lemma consumed_cons c (s : text) : consumed (c :: s) s = [c].
Proof. apply (consumed_app [c] s). Qed.

Lemma match_re_cat {A} r1 r2 s caps (k : text -> captures -> option A) :
  match_re (Cat r1 r2) s caps k
  = match_re r1 s caps (fun s1 caps1 => match_re r2 s1 caps1 k).
Proof. reflexivity. Qed.

Lemma match_re_rep {A} p lo hi s caps (k : text -> captures -> option A) :
  match_re (Rep p lo hi) s caps k = match_rep p lo hi s (fun s' => k s' caps).
Proof. reflexivity. Qed.

Lemma match_re_group {A} i r s caps (k : text -> captures -> option A) :
  match_re (Group i r) s caps k
  = match_re r s caps (fun s' caps' => k s' ((i, consumed s s') :: caps')).
Proof. reflexivity. Qed.

Lemma digit_is_no_point : is_digit char_point = false.
Proof. reflexivity. Qed.

Lemma digits_before_point ip : forall ip' x x',
  all_in is_digit ip -> all_in is_digit ip' ->
  ip ++ char_point :: x = ip' ++ char_point :: x' -> ip = ip' /\ x = x'.
Proof.
  induction ip as [|c ip IH]; intros [|c' ip'] x x' H H' E; cbn [app] in E.
  - injection E as ->. auto.
  - injection E as <- _. inversion H' as [|? ? Hc _]. discriminate.
  - injection E as -> _. inversion H as [|? ? Hc _]. discriminate.
  - injection E as <- E. inversion H; inversion H'; subst.
    destruct (IH ip' x x') as [-> ->]; auto.
Qed.

Lemma number_head_unique sign ip x sign' ip' x' :
  (sign = [] \/ sign = [char_hyphen]) -> (sign' = [] \/ sign' = [char_hyphen]) ->
  all_in is_digit ip -> 1 <= length ip ->
  all_in is_digit ip' -> 1 <= length ip' ->
  sign ++ ip ++ [char_point] ++ x = sign' ++ ip' ++ [char_point] ++ x' ->
  sign = sign' /\ ip = ip' /\ x = x'.
Proof.
  intros Hs Hs' Hip Hl Hip' Hl' E.
  assert (D : forall c w, all_in is_digit (c :: w) -> c <> char_hyphen).
  { intros c w Hc ->. inversion Hc as [|? ? Hd _]. discriminate. }
  destruct Hs as [-> | ->], Hs' as [-> | ->]; cbn [app] in E.
  - split; [reflexivity|]. apply digits_before_point; assumption.
  - destruct ip as [|c ip]; [cbn [length] in Hl; lia|].
    cbn [app] in E. injection E as -> _. exfalso. apply (D _ _ Hip eq_refl).
  - destruct ip' as [|c ip']; [cbn [length] in Hl'; lia|].
    cbn [app] in E. injection E as <- _. exfalso. apply (D _ _ Hip' eq_refl).
  - injection E as E. split; [reflexivity|].
    apply digits_before_point; assumption.
Qed.

Section NumberChoice.
Variable A : Type.

(** A number group takes the longest number after which the rest of the
    pattern goes through. *)
Lemma number_choice i s caps (K : text -> captures -> option A) a :
  match_re (Group i number) s caps K = Some a ->
  exists n rest,
    s = n ++ rest /\ signed_decimal n /\ K rest ((i, n) :: caps) = Some a
    /\ (forall n' rest',
           s = n' ++ rest' -> signed_decimal n' -> length n < length n' ->
           K rest' ((i, n') :: caps) = None).
Proof.
  rewrite match_re_group. unfold number. rewrite match_re_cat. intros H.
  apply match_re_some in H. destruct H as (sign & s1 & c1 & -> & M1 & H).
  rewrite match_re_cat in H.
  apply match_re_some in H. destruct H as (ip & s2 & c2 & -> & M2 & H).
  rewrite match_re_cat in H.
  apply match_re_some in H. destruct H as (dot & s3 & c3 & -> & M3 & H).
  rewrite match_re_rep in H. apply match_rep_greedy in H.
  destruct H as (fp & s4 & -> & Hfp & Hlfp & _ & Hk & Hmax).
  assert (Hsign : (sign = [] \/ sign = [char_hyphen]) /\ c1 = caps).
  { inversion M1 as [ | | | ? ? ? ? C | | | ]; subst.
    - inversion C as [ | ? c ? Hc | | | | | ]; subst.
      apply is_char_eq in Hc. subst c. split; [right|]; reflexivity.
    - split; [left|]; reflexivity. }
  destruct Hsign as [Hsign ->].
  inversion M2 as [ | | | | | ? ? ? ? ? Hip Hlo Hhi | ]; subst.
  inversion M3 as [ | ? c ? Hc | | | | | ]; subst.
  apply is_char_eq in Hc. subst c.
  change (ascii_of_nat full_stop) with char_point in *.
  cbn [within] in Hhi.
  set (n := sign ++ ip ++ [char_point] ++ fp).
  assert (En : sign ++ ip ++ [char_point] ++ fp ++ s4 = n ++ s4).
  { unfold n. rewrite <- !app_assoc. reflexivity. }
  rewrite En in *. rewrite consumed_app in Hk.
  exists n, s4. split; [reflexivity|]. split.
  { exists sign, ip, fp. repeat split; auto. }
  split; [exact Hk|].
  intros n' rest' E (sign' & ip' & fp' & -> & Hs' & Hip' & Hlip' & Hfp' & Hlfp') Hl.
  unfold n in E, Hl. rewrite <- !app_assoc in E.
  destruct (number_head_unique _ _ _ _ _ _ Hsign Hs' Hip Hlo Hip' (proj1 Hlip') E)
    as (<- & <- & E').
  specialize (Hmax fp' rest' E' Hfp' I).
  rewrite !length_app in Hl. cbn [length] in Hl.
  specialize (Hmax ltac:(lia)).
  replace (n ++ s4) with ((sign ++ ip ++ [char_point] ++ fp') ++ rest') in Hmax.
  - rewrite consumed_app in Hmax. exact Hmax.
  - unfold n. rewrite <- !app_assoc. cbn [app]. cbn [app] in E'.
    rewrite E'. reflexivity.
Qed.
End NumberChoice.

(** ** The shape of the parts of the pattern *)

Lemma longitude_shape w c0 c1 :
  matches pattern_from_longitude w c0 c1 ->
  exists n2 seps2 ew,
    w = n2 ++ seps2 ++ ew /\ signed_decimal n2 /\ all_in is_sep seps2
    /\ optional_letter is_ew ew.
Proof.
  unfold pattern_from_longitude. intros M.
  inversion M as [ | | ? ? n2 r ? ? ? M1 R | | | | ]; clear M; subst.
  inversion M1 as [ | | | | | | ? ? ? ? ? N ]; clear M1; subst.
  apply number_matches in N. destruct N as [N _].
  inversion R as [ | | ? ? seps2 ew ? ? ? M2 M3 | | | | ]; clear R; subst.
  inversion M2; clear M2; subst.
  exists n2, seps2, ew. repeat split; auto.
  inversion M3 as [ | | | ? ? ? ? G | | | ]; clear M3; subst.
  - inversion G as [ | | | | | | ? ? ? ? ? C ]; clear G; subst.
    inversion C; clear C; subst. right. eexists. split; [reflexivity | assumption].
  - left. reflexivity.
Qed.

Lemma longitude_matches n2 seps2 ew c0 :
  signed_decimal n2 -> all_in is_sep seps2 -> optional_letter is_ew ew ->
  exists c1, matches pattern_from_longitude (n2 ++ seps2 ++ ew) c0 c1.
Proof.
  intros N S Hew. unfold pattern_from_longitude.
  destruct Hew as [-> | (c & -> & Hc)]; eexists;
    (eapply matches_cat;
     [apply matches_group; apply number_matches; split; [exact N | reflexivity]|]);
    (eapply matches_cat;
     [apply matches_rep; [exact S | cbn [length]; lia | exact I]|]).
  - apply matches_opt_skipped.
  - apply matches_opt_taken. apply matches_group. apply matches_chars. exact Hc.
Qed.

Lemma filler_shape w c0 c1 :
  matches pattern_from_filler w c0 c1 ->
  exists fill w4 c1',
    w = fill ++ w4 /\ all_in is_filler fill
    /\ matches pattern_from_longitude w4 c0 c1'.
Proof.
  unfold pattern_from_filler. intros M.
  inversion M as [ | | ? ? fill w4 ? ? ? M1 R | | | | ]; clear M; subst.
  inversion M1; clear M1; subst.
  exists fill, w4, c1. auto.
Qed.

Lemma filler_matches fill w4 c0 c1 :
  all_in is_filler fill -> matches pattern_from_longitude w4 c0 c1 ->
  matches pattern_from_filler (fill ++ w4) c0 c1.
Proof.
  intros F M. unfold pattern_from_filler.
  eapply matches_cat; [|exact M].
  apply matches_rep; [exact F | cbn [length]; lia | exact I].
Qed.

(** A number begins with a digit or a minus sign, which no filler is. *)
Lemma number_starts_with_no_filler n w :
  signed_decimal n -> starts_with is_filler (n ++ w) = false.
Proof.
  intros (sign & ip & fp & -> & Hs & Hip & Hlip & _).
  destruct ip as [|c ip]; [cbn [length] in Hlip; lia|].
  inversion Hip as [|? ? Hc _]; subst.
  destruct Hs as [-> | ->]; cbn [app starts_with]; [|reflexivity].
  unfold is_filler. rewrite Hc. reflexivity.
Qed.

Lemma longitude_starts_with_no_filler w c0 c1 s :
  matches pattern_from_longitude w c0 c1 -> starts_with is_filler (w ++ s) = false.
Proof.
  intros M. apply longitude_shape in M.
  destruct M as (n2 & seps2 & ew & -> & N & _).
  rewrite <- app_assoc. apply number_starts_with_no_filler. exact N.
Qed.

Lemma sep_is_no_letter c : is_sep c = true -> is_ns c = false.
Proof.
  unfold is_sep, is_ns, is_char, degree_sign. intros H.
  repeat (apply orb_prop in H; destruct H as [H | H]);
    apply Nat.eqb_eq in H; rewrite H; reflexivity.
Qed.

Section Absorbing.
Variable A : Type.
Variable k : text -> captures -> option A.
Hypothesis k_total : forall s caps, k s caps <> None.

(** The filler takes in a character that is neither digit nor minus sign:
    where the pattern goes on with it, it goes on without it. *)
Lemma filler_absorbs c s caps caps' :
  is_filler c = true ->
  match_re pattern_from_filler (c :: s) caps k <> None ->
  match_re pattern_from_filler s caps' k <> None.
Proof.
  intros Hc H.
  destruct (match_re pattern_from_filler (c :: s) caps k) as [a|] eqn:Hm;
    [clear H | contradiction].
  apply match_re_some in Hm. destruct Hm as (w & s' & c1 & E & M & _).
  apply filler_shape in M. destruct M as (fill & w4 & c1' & -> & F & M).
  destruct fill as [|c' fill].
  - cbn [app] in E.
    pose proof (longitude_starts_with_no_filler _ _ _ s' M) as N.
    rewrite <- E in N. cbn [starts_with] in N. congruence.
  - cbn [app] in E. injection E as <- ->.
    inversion F as [|? ? _ F']; subst.
    destruct (matches_any_caps _ _ _ _ M caps') as [c2 M'].
    intros Hn.
    pose proof (proj1 (match_re_none A _ _ _ _) Hn (fill ++ w4) s' c2
                      eq_refl (filler_matches _ _ _ _ F' M')) as K.
    exact (k_total _ _ K).
Qed.

(** The same from the hemisphere letter on, for a separator. *)
Lemma letter_absorbs c s caps :
  is_sep c = true ->
  match_re pattern_from_letter (c :: s) caps k <> None ->
  match_re pattern_from_letter s caps k <> None.
Proof.
  intros Hc. unfold pattern_from_letter. rewrite !match_re_cat.
  cbn [match_re]. rewrite (sep_is_no_letter _ Hc).
  intros H Hn.
  apply (filler_absorbs c s caps caps (sep_is_filler _ Hc) H).
  destruct s as [|c2 s2]; [exact Hn|].
  destruct (is_ns c2); [|exact Hn].
  destruct (match_re pattern_from_filler s2 _ k); [discriminate | exact Hn].
Qed.
End Absorbing.

Lemma all_in_snoc p w c : all_in p w -> p c = true -> all_in p (w ++ [c]).
Proof. intros H Hc. apply all_in_app; [exact H | repeat constructor; exact Hc]. Qed.

Lemma signed_decimal_snoc n c :
  signed_decimal n -> is_digit c = true -> signed_decimal (n ++ [c]).
Proof.
  intros (sign & ip & fp & -> & Hs & Hip & Hlip & Hfp & Hlfp) Hc.
  exists sign, ip, (fp ++ [c]). rewrite <- !app_assoc.
  repeat split; auto; try lia.
  - apply all_in_snoc; assumption.
  - rewrite length_app. lia.
Qed.

Section Choice.
Variable A : Type.
Variable k : text -> captures -> option A.
Hypothesis k_total : forall s caps, k s caps <> None.

Lemma letter_E_W_choice s caps a :
  match_re (Opt (Group 4 (Chars is_ew))) s caps k = Some a ->
  exists ew after,
    s = ew ++ after /\ optional_letter is_ew ew
    /\ k after ((match ew with [] => [] | _ => [(4, ew)] end) ++ caps) = Some a
    /\ (ew = [] -> starts_with is_ew after = false).
Proof.
  cbn [match_re]. destruct s as [|c s'].
  - intros H. exists [], []. repeat split; auto. left. reflexivity.
  - destruct (is_ew c) eqn:Hc.
    + rewrite consumed_cons.
      destruct (k s' _) as [a'|] eqn:Hk;
        [|exfalso; exact (k_total _ _ Hk)].
      intros E. injection E as ->. exists [c], s'.
      repeat split; auto; [|discriminate].
      right. exists c. auto.
    + intros H. exists [], (c :: s'). repeat split; auto. left. reflexivity.
Qed.

Lemma letter_E_W_total s caps :
  match_re (Opt (Group 4 (Chars is_ew))) s caps k <> None.
Proof.
  cbn [match_re].
  destruct (match s with
            | [] => None
            | c :: s' => if is_ew c then k s' ((4, consumed s s') :: caps) else None
            end); [discriminate | apply k_total].
Qed.

Lemma after_longitude_choice s caps a :
  match_re (Cat (Rep is_sep 0 None) (Opt (Group 4 (Chars is_ew)))) s caps k
  = Some a ->
  exists seps2 ew after,
    s = seps2 ++ ew ++ after /\ all_in is_sep seps2 /\ optional_letter is_ew ew
    /\ k after ((match ew with [] => [] | _ => [(4, ew)] end) ++ caps) = Some a
    /\ starts_with is_sep (ew ++ after) = false
    /\ (ew = [] -> starts_with is_ew after = false).
Proof.
  rewrite match_re_cat, match_re_rep. intros H.
  apply match_rep_greedy in H.
  destruct H as (seps2 & s' & -> & Hall & _ & _ & Hk & Hmax).
  assert (Hs : starts_with is_sep s' = false).
  { destruct s' as [|c r]; [reflexivity|]. cbn [starts_with].
    destruct (is_sep c) eqn:Hc; [|reflexivity]. exfalso.
    apply (letter_E_W_total r caps).
    apply (Hmax (seps2 ++ [c]) r).
    - rewrite <- app_assoc. reflexivity.
    - apply all_in_snoc; assumption.
    - exact I.
    - rewrite length_app. cbn [length]. lia. }
  apply letter_E_W_choice in Hk.
  destruct Hk as (ew & after & -> & Hew & Hk & He).
  exists seps2, ew, after. repeat split; auto.
Qed.

Lemma after_longitude_total s caps :
  match_re (Cat (Rep is_sep 0 None) (Opt (Group 4 (Chars is_ew)))) s caps k
  <> None.
Proof.
  intros Hn.
  pose proof (proj1 (match_re_none A _ _ _ _) Hn [] s caps eq_refl) as K.
  apply (k_total s caps), K.
  apply matches_cat with (w1 := []) (w2 := []) (c1 := caps).
  - apply matches_rep; [constructor | cbn [length]; lia | exact I].
  - apply matches_opt_skipped.
Qed.

(** The end of the pattern: the second number with all its digits, all the
    separators after it, and the letter if there is one. *)
Lemma longitude_choice s caps a :
  match_re pattern_from_longitude s caps k = Some a ->
  exists n2 seps2 ew after,
    s = n2 ++ seps2 ++ ew ++ after
    /\ signed_decimal n2 /\ all_in is_sep seps2 /\ optional_letter is_ew ew
    /\ k after ((match ew with [] => [] | _ => [(4, ew)] end) ++ (3, n2) :: caps)
       = Some a
    /\ starts_with is_digit (seps2 ++ ew ++ after) = false
    /\ starts_with is_sep (ew ++ after) = false
    /\ (ew = [] -> starts_with is_ew after = false).
Proof.
  unfold pattern_from_longitude. rewrite match_re_cat. intros H.
  apply number_choice in H. destruct H as (n2 & rest & -> & N & Hk & Hmax).
  assert (Hd : starts_with is_digit rest = false).
  { destruct rest as [|c r]; [reflexivity|]. cbn [starts_with].
    destruct (is_digit c) eqn:Hc; [|reflexivity]. exfalso.
    apply (after_longitude_total r ((3, n2 ++ [c]) :: caps)).
    apply (Hmax (n2 ++ [c]) r).
    - rewrite <- app_assoc. reflexivity.
    - apply signed_decimal_snoc; assumption.
    - rewrite length_app. cbn [length]. lia. }
  apply after_longitude_choice in Hk.
  destruct Hk as (seps2 & ew & after & -> & S & Hew & Hk & Hs & He).
  exists n2, seps2, ew, after. repeat split; auto.
Qed.

(** From the hemisphere letter of the latitude on. *)
Lemma letter_choice s caps a :
  match_re pattern_from_letter s caps k = Some a ->
  exists ns rest,
    s = ns ++ rest /\ optional_letter is_ns ns
    /\ match_re pattern_from_filler rest
         ((match ns with [] => [] | _ => [(2, ns)] end) ++ caps) k = Some a
    /\ (ns = [] -> starts_with is_ns rest = false).
Proof.
  unfold pattern_from_letter. rewrite match_re_cat. cbn [match_re].
  destruct s as [|c s'].
  - intros H. exists [], []. repeat split; auto. left. reflexivity.
  - destruct (is_ns c) eqn:Hc.
    + rewrite consumed_cons.
      destruct (match_re pattern_from_filler s' _ k) as [a'|] eqn:Hk.
      * intros E. injection E as ->. exists [c], s'.
        repeat split; auto; [|discriminate]. right. exists c. auto.
      * intros H. exfalso.
        apply (filler_absorbs A k k_total c s' caps ((2, [c]) :: caps)
                              (ns_is_filler _ Hc)); [|exact Hk].
        rewrite H. discriminate.
    + intros H. exists [], (c :: s'). repeat split; auto. left. reflexivity.
Qed.

(** After the first number: all the separators, then the letter. *)
Lemma after_latitude_choice s caps a :
  match_re pattern_after_latitude s caps k = Some a ->
  exists seps1 ns rest,
    s = seps1 ++ ns ++ rest /\ all_in is_sep seps1 /\ optional_letter is_ns ns
    /\ match_re pattern_from_filler rest
         ((match ns with [] => [] | _ => [(2, ns)] end) ++ caps) k = Some a
    /\ starts_with is_sep (ns ++ rest) = false
    /\ (ns = [] -> starts_with is_ns rest = false).
Proof.
  unfold pattern_after_latitude. rewrite match_re_cat, match_re_rep. intros H.
  apply match_rep_greedy in H.
  destruct H as (seps1 & s' & -> & Hall & _ & _ & Hk & Hmax).
  assert (Hs : starts_with is_sep s' = false).
  { destruct s' as [|c r]; [reflexivity|]. cbn [starts_with].
    destruct (is_sep c) eqn:Hc; [|reflexivity]. exfalso.
    apply (letter_absorbs A k k_total c r caps Hc).
    - rewrite Hk. discriminate.
    - apply (Hmax (seps1 ++ [c]) r).
      + rewrite <- app_assoc. reflexivity.
      + apply all_in_snoc; assumption.
      + exact I.
      + rewrite length_app. cbn [length]. lia. }
  apply letter_choice in Hk. destruct Hk as (ns & rest & -> & Hns & Hk & Hn).
  exists seps1, ns, rest. repeat split; auto.
Qed.
End Choice.

Local Open Scope py_scope.

Lemma after_latitude_matches seps1 ns fill n2 seps2 ew c0 :
  all_in is_sep seps1 -> optional_letter is_ns ns -> all_in is_filler fill ->
  signed_decimal n2 -> all_in is_sep seps2 -> optional_letter is_ew ew ->
  exists c1,
    matches pattern_after_latitude
            (seps1 ++ ns ++ fill ++ n2 ++ seps2 ++ ew) c0 c1.
Proof.
  intros S1 Hns F N2 S2 Hew. unfold pattern_after_latitude, pattern_from_letter.
  destruct Hns as [-> | (c & -> & Hc)].
  - destruct (longitude_matches n2 seps2 ew c0 N2 S2 Hew) as [c1 M].
    exists c1. eapply matches_cat;
      [apply matches_rep; [exact S1 | cbn [length]; lia | exact I]|].
    eapply matches_cat; [apply matches_opt_skipped|].
    apply filler_matches; assumption.
  - destruct (longitude_matches n2 seps2 ew ((2, [c]) :: c0) N2 S2 Hew) as [c1 M].
    exists c1. eapply matches_cat;
      [apply matches_rep; [exact S1 | cbn [length]; lia | exact I]|].
    eapply matches_cat;
      [apply matches_opt_taken, matches_group, matches_chars; exact Hc|].
    apply filler_matches; assumption.
Qed.

(** The match found at a place: its parts, its groups, and the choices the
    matcher made among the ways the text can be read there. *)
Lemma match_at_choice s pos m :
  match_at pattern s pos = Some m ->
  exists n1 seps1 ns fill n2 seps2 ew after,
    s = n1 ++ seps1 ++ ns ++ fill ++ n2 ++ seps2 ++ ew ++ after
    /\ signed_decimal n1 /\ all_in is_sep seps1 /\ optional_letter is_ns ns
    /\ all_in is_filler fill
    /\ signed_decimal n2 /\ all_in is_sep seps2 /\ optional_letter is_ew ew
    /\ m_groups m = groups_of n1 ns n2 ew
    /\ (forall n1' w' a',
           s = w' ++ a' -> coordinates_from n1' w' ->
           (length n1' <= length n1)%nat)
    /\ starts_with is_sep (ns ++ fill ++ n2 ++ seps2 ++ ew ++ after) = false
    /\ (ns = [] ->
        starts_with is_ns (fill ++ n2 ++ seps2 ++ ew ++ after) = false)
    /\ starts_with is_digit (seps2 ++ ew ++ after) = false
    /\ starts_with is_sep (ew ++ after) = false
    /\ (ew = [] -> starts_with is_ew after = false).
Proof.
  unfold match_at.
  set (k0 := fun (s' : text) (caps : captures) =>
               Some (MatchObject pos (consumed s s') caps)).
  assert (T : forall s' caps, k0 s' caps <> None) by (intros; discriminate).
  change pattern with (Cat (Group 1 number) pattern_after_latitude).
  rewrite match_re_cat. intros H.
  apply number_choice in H. destruct H as (n1 & rest1 & E1 & N1 & Hk & Hmax).
  apply (after_latitude_choice _ k0 T) in Hk.
  destruct Hk as (seps1 & ns & rest2 & -> & S1 & Hns & Hk & Hsep & Hlet).
  unfold pattern_from_filler in Hk. rewrite match_re_cat, match_re_rep in Hk.
  apply match_rep_some in Hk.
  destruct Hk as (fill & rest3 & -> & F & _ & _ & Hk).
  apply (longitude_choice _ k0 T) in Hk.
  destruct Hk as (n2 & seps2 & ew & after & -> & N2 & S2 & Hew & Hk & Hd & Hs2 & He).
  unfold k0 in Hk. injection Hk as <-. cbn [m_groups].
  exists n1, seps1, ns, fill, n2, seps2, ew, after.
  split; [exact E1|].
  repeat (split; [assumption|]).
  split; [reflexivity|].
  split; [|repeat split; assumption].
  intros n1' w' a' E (seps1' & ns' & fill' & n2' & seps2' & ew' & -> & N1' & S1'
                      & Hns' & F' & N2' & S2' & Hew').
  destruct (Nat.le_gt_cases (length n1') (length n1)) as [Hle | Hgt];
    [exact Hle | exfalso].
  assert (E' : s = n1' ++ (seps1' ++ ns' ++ fill' ++ n2' ++ seps2' ++ ew') ++ a').
  { rewrite E, <- !app_assoc. reflexivity. }
  specialize (Hmax n1' _ E' N1' Hgt).
  destruct (after_latitude_matches seps1' ns' fill' n2' seps2' ew' [(1, n1')]
                                   S1' Hns' F' N2' S2' Hew') as [c1 M].
  pose proof (proj1 (match_re_none _ _ _ _ _) Hmax _ a' c1 eq_refl M) as K.
  discriminate.
Qed.

Lemma lookup_groups_of n1 ns n2 ew :
  lookup_group (groups_of n1 ns n2 ew) 1 = Some n1
  /\ lookup_group (groups_of n1 ns n2 ew) 3 = Some n2
  /\ lookup_group (groups_of n1 ns n2 ew) 2 = opt_group ns
  /\ lookup_group (groups_of n1 ns n2 ew) 4 = opt_group ew.
Proof. destruct ew, ns; cbn; auto. Qed.

(** X9. The reading comes from the leftmost place where the pattern is
    found and, of the ways the text can be read as coordinates from there,
    from the one the pattern prefers.  The text splits into what precedes
    the match, the seven parts of the match and the rest; the two numbers
    returned are the first and the second number, read as floats, with the
    hemisphere letters applied.  No part of the text with the pattern's shape
    begins earlier; no reading of the text from the same place has a longer
    first number; the separators after the first number are all taken, and
    so is an N or S letter that follows them; the second number is taken
    with all its digits, then all the separators, then an E or W letter if
    there is one. *)
Theorem reading_is_the_leftmost_longest_match txt lat lon :
  extract_coords_from_text txt = Ok (Some (lat, lon)) ->
  exists before n1 seps1 ns fill n2 seps2 ew after v1 v2,
    txt = before ++ n1 ++ seps1 ++ ns ++ fill ++ n2 ++ seps2 ++ ew ++ after
    /\ signed_decimal n1 /\ all_in is_sep seps1 /\ optional_letter is_ns ns
    /\ all_in is_filler fill
    /\ signed_decimal n2 /\ all_in is_sep seps2 /\ optional_letter is_ew ew
    /\ python_float n1 = Ok v1 /\ python_float n2 = Ok v2
    /\ lat = hemisphere "S" ns v1 /\ lon = hemisphere "W" ew v2
    /\ (forall b w a,
           txt = b ++ w ++ a -> coordinate_shaped w ->
           (length before <= length b)%nat)
    /\ (forall n1' w' a',
           txt = before ++ w' ++ a' -> coordinates_from n1' w' ->
           (length n1' <= length n1)%nat)
    /\ starts_with is_sep (ns ++ fill ++ n2 ++ seps2 ++ ew ++ after) = false
    /\ (ns = [] ->
        starts_with is_ns (fill ++ n2 ++ seps2 ++ ew ++ after) = false)
    /\ starts_with is_digit (seps2 ++ ew ++ after) = false
    /\ starts_with is_sep (ew ++ after) = false
    /\ (ew = [] -> starts_with is_ew after = false).
Proof.
  unfold extract_coords_from_text.
  destruct (search pattern txt) as [m|] eqn:Hs; [|discriminate].
  intros H.
  pose proof (search_from_leftmost pattern txt 0 m Hs) as Hleft.
  pose proof (search_from_some pattern txt 0 m Hs) as (before0 & after0 & _ & _ & Hstart).
  destruct (search_from_match_at pattern txt 0 m Hs) as (before & s & Etxt & Hm).
  pose proof (match_at_some _ _ _ _ Hm) as (_ & _ & _ & _ & _ & Hpos).
  apply match_at_choice in Hm.
  destruct Hm as (n1 & seps1 & ns & fill & n2 & seps2 & ew & after & Es & N1 & S1
                  & Hns & F & N2 & S2 & Hew & Hcaps & Hlong & Hrest).
  destruct (python_float_number _ N1) as [v1 F1].
  destruct (python_float_number _ N2) as [v2 F2].
  destruct (lookup_groups_of n1 ns n2 ew) as (G1 & G3 & G2 & G4).
  unfold group in H. rewrite Hcaps in H.
  rewrite G1, G3, G2, G4 in H. cbn [float_of_group] in H.
  rewrite F1 in H. cbn [bind] in H. rewrite F2 in H. cbn [bind] in H.
  rewrite !truthy_opt_group in H.
  exists before, n1, seps1, ns, fill, n2, seps2, ew, after, v1, v2.
  split; [rewrite Etxt, Es; reflexivity|].
  repeat (split; [assumption|]).
  assert (E : (lat, lon) = (hemisphere "S" ns v1, hemisphere "W" ew v2)).
  { destruct ns, ew; cbn [opt_group] in H; injection H as <- <-; reflexivity. }
  injection E as -> ->.
  split; [reflexivity|]. split; [reflexivity|].
  split.
  { intros b w a E Hw. apply pattern_language in Hw.
    specialize (Hleft b w a E Hw). cbn [Nat.add] in *. lia. }
  split; [|exact Hrest].
  intros n1' w' a' E Hc. apply (Hlong n1' w' a'); [|exact Hc].
  rewrite Etxt in E. apply app_inv_head in E. exact E.
Qed.

Local Close Scope py_scope.
Local Open Scope Z_scope.

(** ** Rounding to binary64 keeps a quotient in range *)

Lemma digits2_pos_size p : digits2_pos p = Pos.size p.
Proof. induction p; cbn [digits2_pos Pos.size]; congruence. Qed.

Lemma Zdigits2_log2 m : 0 < m -> Zdigits2 m = Z.log2 m + 1.
Proof.
  destruct m as [|p|p]; try lia. intros _. cbn [Zdigits2].
  rewrite digits2_pos_size.
  destruct p; cbn [Z.log2 Pos.size]; lia.
Qed.

Lemma Zdigits2_nonneg m : 0 <= Zdigits2 m.
Proof. destruct m; cbn [Zdigits2]; lia. Qed.

(** [m] has at most [d] binary digits when it is below [2^d]. *)
Lemma Zdigits2_le_iff m d : 0 <= m -> 0 <= d -> (Zdigits2 m <= d <-> m < 2 ^ d).
Proof.
  intros Hm Hd. destruct (Z.eq_dec m 0) as [-> | Hn].
  - cbn [Zdigits2]. split; intros _; [apply Z.pow_pos_nonneg; lia | lia].
  - rewrite Zdigits2_log2 by lia.
    rewrite (Z.log2_lt_pow2 m d) by lia. lia.
Qed.

Lemma Zdigits2_shift m n :
  0 <= m -> 0 <= n -> Zdigits2 (m / 2 ^ n) = Z.max (Zdigits2 m - n) 0.
Proof.
  intros Hm Hn.
  assert (P : 0 < 2 ^ n) by (apply Z.pow_pos_nonneg; lia).
  assert (Q : 0 <= m / 2 ^ n) by (apply Z.div_pos; lia).
  assert (E : forall d, 0 <= d -> (Zdigits2 (m / 2 ^ n) <= d <-> Zdigits2 m <= d + n)).
  { intros d Hd. rewrite Zdigits2_le_iff by lia. rewrite Zdigits2_le_iff by lia.
    rewrite Z.pow_add_r by lia. split; intros H.
    - pose proof (Z.div_mod m (2 ^ n) ltac:(lia)) as Dm.
      pose proof (Z.mod_pos_bound m (2 ^ n) P) as Rm. nia.
    - apply Z.div_lt_upper_bound; lia. }
  pose proof (Zdigits2_nonneg (m / 2 ^ n)) as N1.
  pose proof (Zdigits2_nonneg m) as N2.
  pose proof (proj1 (E (Zdigits2 (m / 2 ^ n)) N1)) as A.
  pose proof (proj2 (E (Z.max (Zdigits2 m - n) 0) ltac:(lia))) as B.
  lia.
Qed.

Lemma Zdigits2_mono m m' : 0 <= m <= m' -> Zdigits2 m <= Zdigits2 m'.
Proof.
  intros H. apply Zdigits2_le_iff; [lia | apply Zdigits2_nonneg |].
  pose proof (proj1 (Zdigits2_le_iff m' (Zdigits2 m') ltac:(lia) (Zdigits2_nonneg m'))
                    ltac:(lia)).
  lia.
Qed.

Lemma Zdigits2_succ m : 0 <= m -> Zdigits2 (m + 1) <= Zdigits2 m + 1.
Proof.
  intros H. pose proof (Zdigits2_nonneg m) as N.
  apply Zdigits2_le_iff; [lia | lia |].
  pose proof (proj1 (Zdigits2_le_iff m (Zdigits2 m) H N) ltac:(lia)) as B.
  rewrite Z.pow_add_r by lia. change (2 ^ 1) with 2.
  assert (0 < 2 ^ Zdigits2 m) by (apply Z.pow_pos_nonneg; lia). lia.
Qed.

Lemma shr_1_m mrs : 0 <= shr_m mrs -> shr_m (shr_1 mrs) = shr_m mrs / 2.
Proof.
  destruct mrs as [m r s]. cbn [shr_m]. intros H.
  destruct m as [|p|p]; [reflexivity| |lia].
  destruct p as [p|p|]; cbn [shr_1 shr_m].
  - rewrite Pos2Z.inj_xI. apply Z.div_unique with (r := 1); lia.
  - rewrite Pos2Z.inj_xO. apply Z.div_unique with (r := 0); lia.
  - reflexivity.
Qed.

Lemma shr_m_iter p : forall mrs,
  0 <= shr_m mrs -> shr_m (iter_pos shr_1 p mrs) = shr_m mrs / 2 ^ Zpos p.
Proof.
  assert (D : forall m a b, 0 <= m -> 0 < a -> 0 < b -> 0 <= m / a /\ m / a / b = m / (a * b)).
  { intros m a b Hm Ha Hb. split; [apply Z.div_pos; lia|]. apply Z.div_div; lia. }
  induction p as [p IH|p IH|]; intros mrs H; cbn [iter_pos].
  - assert (P : 0 < 2 ^ Zpos p) by (apply Z.pow_pos_nonneg; lia).
    assert (H1 : 0 <= shr_m (shr_1 mrs)).
    { rewrite shr_1_m by exact H. apply Z.div_pos; lia. }
    assert (H2 : 0 <= shr_m (iter_pos shr_1 p (shr_1 mrs))).
    { rewrite IH by exact H1. apply Z.div_pos; lia. }
    rewrite IH by exact H2. rewrite IH by exact H1. rewrite shr_1_m by exact H.
    rewrite (Pos2Z.inj_xI p).
    replace (2 * Zpos p + 1) with (1 + Zpos p + Zpos p) by lia.
    rewrite !Z.pow_add_r by lia. change (2 ^ 1) with 2.
    destruct (D (shr_m mrs) 2 (2 ^ Zpos p) H ltac:(lia) P) as [A1 A2].
    rewrite A2.
    destruct (D (shr_m mrs) (2 * 2 ^ Zpos p) (2 ^ Zpos p) H ltac:(lia) P) as [B1 B2].
    exact B2.
  - assert (P : 0 < 2 ^ Zpos p) by (apply Z.pow_pos_nonneg; lia).
    assert (H2 : 0 <= shr_m (iter_pos shr_1 p mrs)).
    { rewrite IH by exact H. apply Z.div_pos; lia. }
    rewrite IH by exact H2. rewrite IH by exact H.
    rewrite (Pos2Z.inj_xO p).
    replace (2 * Zpos p) with (Zpos p + Zpos p) by lia.
    rewrite !Z.pow_add_r by lia.
    destruct (D (shr_m mrs) (2 ^ Zpos p) (2 ^ Zpos p) H P P) as [B1 B2].
    exact B2.
  - rewrite shr_1_m by exact H. reflexivity.
Qed.

Lemma fexp_binary64 e : fexp prec emax e = Z.max (e - 53) (-1074).
Proof. reflexivity. Qed.

Lemma shr_record_of_loc_m m l : shr_m (shr_record_of_loc m l) = m.
Proof. destruct l as [|[ | | ]]; reflexivity. Qed.

(** Shifting a mantissa that has digits enough leaves it canonical, at the
    exponent its size calls for. *)
Lemma shr_fexp_canonical m e l :
  0 <= m -> e <= fexp prec emax (Zdigits2 m + e) ->
  let '(mrs, e') := shr_fexp prec emax m e l in
  0 <= shr_m mrs
  /\ e' = fexp prec emax (Zdigits2 m + e)
  /\ fexp prec emax (Zdigits2 (shr_m mrs) + e') = e'
  /\ shr_m mrs = m / 2 ^ (e' - e).
Proof.
  intros Hm He. unfold shr_fexp.
  remember (fexp prec emax (Zdigits2 m + e)) as f eqn:Ef.
  unfold shr. destruct (f - e) as [|n|n] eqn:En; [| |lia].
  - rewrite shr_record_of_loc_m.
    assert (H : f = e) by lia.
    repeat split; try lia.
    replace (e - e) with 0 by lia. rewrite Z.pow_0_r, Z.div_1_r. reflexivity.
  - rewrite shr_m_iter by (rewrite shr_record_of_loc_m; exact Hm).
    rewrite shr_record_of_loc_m.
    assert (P : 0 < 2 ^ Zpos n) by (apply Z.pow_pos_nonneg; lia).
    replace (e + Zpos n) with f by lia.
    split; [apply Z.div_pos; lia|]. split; [reflexivity|]. split.
    + rewrite Zdigits2_shift by lia.
      rewrite fexp_binary64 in Ef |- *. lia.
    + replace (f - e) with (Zpos n) by lia. reflexivity.
Qed.

Lemma round_nearest_even_bounds m l :
  m <= round_nearest_even m l <= m + 1.
Proof.
  unfold round_nearest_even. destruct l as [|[ | | ]]; try lia.
  destruct (Z.even m); lia.
Qed.

(** What [binary_round_aux] makes of a value below [c] with digits enough is
    a binary64 number, not above [c]. *)
Lemma binary_round_aux_bounded s m e l b c :
  0 <= m -> e <= fexp prec emax (Zdigits2 m + e) ->
  Zdigits2 m + e <= b -> b <= 52 -> m < c * 2 ^ (- e) ->
  let r := binary_round_aux prec emax s m e l in
  valid_binary r = true
  /\ ((r = S754_zero s)
      \/ exists m' e', r = S754_finite s m' e' /\ e' <= 0
                       /\ Zpos m' <= c * 2 ^ (- e')).
Proof.
  intros Hm He Hb Hb' Hc. unfold binary_round_aux.
  pose proof (shr_fexp_canonical m e l Hm He) as S1.
  destruct (shr_fexp prec emax m e l) as [mrs1 e1].
  destruct S1 as (N1 & E1 & C1 & Q1).
  pose proof (round_nearest_even_bounds (shr_m mrs1) (loc_of_shr_record mrs1)) as R.
  set (m2 := round_nearest_even (shr_m mrs1) (loc_of_shr_record mrs1)) in *.
  assert (M : Zdigits2 (shr_m mrs1) <= Zdigits2 m2 <= Zdigits2 (shr_m mrs1) + 1).
  { split; [apply Zdigits2_mono; lia|].
    etransitivity; [apply (Zdigits2_mono m2 (shr_m mrs1 + 1)); lia|].
    apply Zdigits2_succ. exact N1. }
  assert (He2 : e1 <= fexp prec emax (Zdigits2 m2 + e1)).
  { rewrite fexp_binary64 in C1 |- *. lia. }
  pose proof (shr_fexp_canonical m2 e1 loc_Exact ltac:(lia) He2) as S2.
  destruct (shr_fexp prec emax m2 e1 loc_Exact) as [mrs2 e2].
  destruct S2 as (N2 & E2 & C2 & Q2).
  assert (B1 : e <= e1 <= 0) by (rewrite fexp_binary64 in *; lia).
  assert (B2 : e1 <= e2 <= 0) by (rewrite fexp_binary64 in *; lia).
  (* the value stays below [c] through both shifts *)
  assert (V1 : m2 <= c * 2 ^ (- e1)).
  { assert (P : 0 < 2 ^ (e1 - e)) by (apply Z.pow_pos_nonneg; lia).
    assert (E : 2 ^ (- e) = 2 ^ (- e1) * 2 ^ (e1 - e)).
    { rewrite <- Z.pow_add_r by lia. f_equal. lia. }
    pose proof (Z.mul_div_le m (2 ^ (e1 - e)) P) as D. rewrite <- Q1 in D.
    rewrite E in Hc. nia. }
  assert (V2 : shr_m mrs2 <= c * 2 ^ (- e2)).
  { assert (P : 0 < 2 ^ (e2 - e1)) by (apply Z.pow_pos_nonneg; lia).
    assert (E : 2 ^ (- e1) = 2 ^ (- e2) * 2 ^ (e2 - e1)).
    { rewrite <- Z.pow_add_r by lia. f_equal. lia. }
    pose proof (Z.mul_div_le m2 (2 ^ (e2 - e1)) P) as D. rewrite <- Q2 in D.
    rewrite E in V1. nia. }
  destruct (shr_m mrs2) as [|p|p] eqn:Ep; [| |lia].
  - cbv zeta. split; [reflexivity | left; reflexivity].
  - cbv zeta. change (emax - prec) with 971.
    destruct (e2 <=? 971) eqn:L; [|apply Z.leb_gt in L; lia].
    split; [|right; exists p, e2; repeat split; lia].
    cbn [valid_binary]. unfold bounded, canonical_mantissa.
    change (emax - prec) with 971. rewrite L, andb_true_r.
    apply Z.eqb_eq. exact C2.
Qed.

Lemma Zdigits2_pow2_bounds m :
  0 < m -> 2 ^ (Zdigits2 m - 1) <= m < 2 ^ Zdigits2 m.
Proof.
  intros H. rewrite Zdigits2_log2 by exact H.
  replace (Z.log2 m + 1 - 1) with (Z.log2 m) by lia.
  pose proof (Z.log2_spec m H). rewrite <- Z.add_1_r in *. lia.
Qed.

(** Above the subnormal range what is rounded does not vanish. *)
Lemma binary_round_aux_normal s m e l :
  0 <= m -> e <= fexp prec emax (Zdigits2 m + e) ->
  -1074 < fexp prec emax (Zdigits2 m + e) ->
  let r := binary_round_aux prec emax s m e l in
  valid_binary r = true
  /\ (r = S754_infinity s \/ exists m' e', r = S754_finite s m' e').
Proof.
  intros Hm He Hn. unfold binary_round_aux.
  pose proof (shr_fexp_canonical m e l Hm He) as S1.
  destruct (shr_fexp prec emax m e l) as [mrs1 e1].
  destruct S1 as (N1 & E1 & C1 & _).
  pose proof (round_nearest_even_bounds (shr_m mrs1) (loc_of_shr_record mrs1)) as R.
  set (m2 := round_nearest_even (shr_m mrs1) (loc_of_shr_record mrs1)) in *.
  assert (M : Zdigits2 (shr_m mrs1) <= Zdigits2 m2).
  { apply Zdigits2_mono; lia. }
  assert (He2 : e1 <= fexp prec emax (Zdigits2 m2 + e1)).
  { rewrite fexp_binary64 in C1 |- *. lia. }
  pose proof (shr_fexp_canonical m2 e1 loc_Exact ltac:(lia) He2) as S2.
  destruct (shr_fexp prec emax m2 e1 loc_Exact) as [mrs2 e2].
  destruct S2 as (N2 & E2 & C2 & _).
  assert (D : Zdigits2 (shr_m mrs2) = 53).
  { rewrite fexp_binary64 in *. lia. }
  destruct (shr_m mrs2) as [|p|p] eqn:Ep; [cbn [Zdigits2] in D; lia | | lia].
  cbv zeta. change (emax - prec) with 971.
  destruct (e2 <=? 971) eqn:L.
  - split; [|right; repeat eexists].
    cbn [valid_binary]. unfold bounded, canonical_mantissa.
    change (emax - prec) with 971. rewrite L, andb_true_r.
    apply Z.eqb_eq. exact C2.
  - split; [reflexivity | left; reflexivity].
Qed.

(** The quotient [SFdiv] hands to the rounding: of [n * 2^-e'] by [d], with
    digits enough for the exponent [e']. *)
Lemma SFdiv_core_quotient n d :
  let '(q, e', _) := SFdiv_core_binary prec emax (Zpos n) 0 (Zpos d) 0 in
  0 <= q /\ e' <= 0
  /\ e' = Z.min (fexp prec emax (Zdigits2 (Zpos n) - Zdigits2 (Zpos d))) 0
  /\ Zdigits2 (Zpos n) - Zdigits2 (Zpos d) - e' <= Zdigits2 q
  /\ q * Zpos d <= Zpos n * 2 ^ (- e') < (q + 1) * Zpos d.
Proof.
  unfold SFdiv_core_binary.
  set (d1 := Zdigits2 (Zpos n)). set (d2 := Zdigits2 (Zpos d)).
  replace (0 - 0) with 0 by lia.
  replace (d1 + 0 - (d2 + 0)) with (d1 - d2) by lia.
  set (e' := Z.min (fexp prec emax (d1 - d2)) 0).
  replace (0 - e') with (- e') by lia.
  set (s := - e').
  assert (Hs : 0 <= s) by (unfold s, e'; lia).
  assert (Hm' : match s with
                | Zpos _ => Z.shiftl (Zpos n) s
                | Z0 => Zpos n
                | Zneg _ => 0
                end = Zpos n * 2 ^ s).
  { destruct s as [|p|p] eqn:Es; [rewrite Z.pow_0_r; lia | | lia].
    apply Z.shiftl_mul_pow2. lia. }
  rewrite Hm'. clear Hm'.
  assert (P2s : 0 < 2 ^ s) by (apply Z.pow_pos_nonneg; lia).
  pose proof (Z_div_mod (Zpos n * 2 ^ s) (Zpos d) ltac:(lia)) as DM.
  destruct (Z.div_eucl (Zpos n * 2 ^ s) (Zpos d)) as [q r].
  destruct DM as [DM Hr].
  assert (Hq : 0 <= q) by nia.
  pose proof (Zdigits2_pow2_bounds (Zpos n) ltac:(lia)) as Bn. fold d1 in Bn.
  pose proof (Zdigits2_pow2_bounds (Zpos d) ltac:(lia)) as Bd. fold d2 in Bd.
  pose proof (Zdigits2_nonneg q) as Nq.
  assert (D1 : 1 <= d1) by (unfold d1; cbn [Zdigits2]; lia).
  assert (D2 : 1 <= d2) by (unfold d2; cbn [Zdigits2]; lia).
  assert (Lo : d1 - d2 + s <= Zdigits2 q).
  { destruct (Z_lt_le_dec (d1 - d2 + s - 1) 0) as [Hneg | Hpos]; [lia|].
    destruct (Z_le_gt_dec (Zdigits2 q) (d1 - d2 + s - 1)) as [Hle | Hgt]; [|lia].
    exfalso. apply Zdigits2_le_iff in Hle; [|lia|lia].
    assert (E : 2 ^ (d1 - 1) * 2 ^ s = 2 ^ d2 * 2 ^ (d1 - d2 + s - 1)).
    { rewrite <- !Z.pow_add_r by lia. f_equal. lia. }
    assert (0 < 2 ^ (d1 - d2 + s - 1)) by (apply Z.pow_pos_nonneg; lia).
    nia. }
  unfold s in Lo.
  split; [exact Hq|]. split; [unfold e'; lia|]. split; [reflexivity|].
  split; [lia|]. fold s. lia.
Qed.

(** The quotient of two integers, the first less than [c] times the second,
    rounds to a number not above [c]: neither an infinity nor a NaN. *)
Lemma SFdiv_in_range n d c k :
  0 <= k <= 52 -> 0 < c <= 2 ^ k -> Zpos n < c * Zpos d ->
  let r := SFdiv prec emax (S754_finite false n 0) (S754_finite false d 0) in
  valid_binary r = true
  /\ ((r = S754_zero false)
      \/ exists m' e', r = S754_finite false m' e' /\ e' <= 0
                       /\ Zpos m' <= c * 2 ^ (- e')).
Proof.
  intros Hk Hck Hn. unfold SFdiv. cbn [xorb].
  pose proof (SFdiv_core_quotient n d) as Q.
  destruct (SFdiv_core_binary prec emax (Zpos n) 0 (Zpos d) 0) as [[q e'] l].
  destruct Q as (Hq & He' & Ee & Lo & DM).
  assert (P : 0 < 2 ^ (- e')) by (apply Z.pow_pos_nonneg; lia).
  assert (Hv : q < c * 2 ^ (- e')) by nia.
  assert (Hi : Zdigits2 q <= k + - e').
  { apply Zdigits2_le_iff; [lia|lia|].
    rewrite Z.pow_add_r by lia. nia. }
  apply (binary_round_aux_bounded false q e' l k c); try lia.
  rewrite fexp_binary64 in *. lia.
Qed.

(** A quotient above the subnormal range does not round to zero. *)
Lemma SFdiv_normal n d :
  -1021 < Zdigits2 (Zpos n) - Zdigits2 (Zpos d) ->
  let r := SFdiv prec emax (S754_finite false n 0) (S754_finite false d 0) in
  valid_binary r = true
  /\ (r = S754_infinity false \/ exists m' e', r = S754_finite false m' e').
Proof.
  intros Hn. unfold SFdiv. cbn [xorb].
  pose proof (SFdiv_core_quotient n d) as Q.
  destruct (SFdiv_core_binary prec emax (Zpos n) 0 (Zpos d) 0) as [[q e'] l].
  destruct Q as (Hq & He' & Ee & Lo & DM).
  apply (binary_round_aux_normal false q e' l); try lia;
    rewrite fexp_binary64 in *; lia.
Qed.

Lemma compare_cont_le m k :
  Zpos m <= Zpos k ->
  match PosDef.Pos.compare_cont Eq m k with Gt => false | _ => true end = true.
Proof.
  intros H. change (PosDef.Pos.compare_cont Eq m k) with (Pos.compare m k).
  destruct (Pos.compare_spec m k); try reflexivity. lia.
Qed.

Lemma nearest_quotient_in_range n d :
  Zpos n < 1000 * Zpos d ->
  (nearest_quotient n d <=? 1000)%float = true
  /\ abs (nearest_quotient n d) = nearest_quotient n d.
Proof.
  intros H. unfold nearest_quotient.
  destruct (SFdiv_in_range n d 1000 10 ltac:(lia) ltac:(cbn; lia) H) as [V S].
  set (r := SFdiv prec emax (S754_finite false n 0) (S754_finite false d 0)) in *.
  split.
  - rewrite leb_spec, (Prim2SF_SF2Prim r V).
    change (Prim2SF 1000) with (S754_finite false 8796093022208000 (-43)).
    destruct S as [-> | (m & e & -> & He & Hm)]; [reflexivity|].
    unfold SFleb, SFcompare.
    destruct (Z.compare_spec e (-43)) as [-> | Hlt | Hgt].
    + change (- -43) with 43 in Hm. change (1000 * 2 ^ 43) with 8796093022208000 in Hm.
      apply compare_cont_le. exact Hm.
    + reflexivity.
    + exfalso. cbn [valid_binary] in V. unfold bounded, canonical_mantissa in V.
      apply andb_prop in V. destruct V as [C _]. apply Z.eqb_eq in C.
      rewrite fexp_binary64 in C.
      assert (D : Zdigits2 (Zpos m) <= 52).
      { apply Zdigits2_le_iff; [lia|lia|].
        assert (E : 2 ^ 52 = 2 ^ 10 * 2 ^ (- e) * 2 ^ (42 + e)).
        { rewrite <- !Z.pow_add_r by lia. f_equal. lia. }
        assert (0 < 2 ^ (- e)) by (apply Z.pow_pos_nonneg; lia).
        assert (1 <= 2 ^ (42 + e)).
        { apply (Z.pow_le_mono_r 2 0 (42 + e)); lia. }
        rewrite E. change (2 ^ 10) with 1024. nia. }
      cbn [Zdigits2] in D. lia.
  - apply Prim2SF_inj. rewrite abs_spec, (Prim2SF_SF2Prim r V).
    destruct S as [-> | (m & e & -> & _)]; reflexivity.
Qed.

(** ** The numbers the parser reads *)

Lemma float_of_decimal_in_range neg n k :
  0 <= n < 1000 * 10 ^ Z.of_nat k ->
  (abs (float_of_decimal neg n k) <=? 1000)%float = true.
Proof.
  intros H. unfold float_of_decimal.
  assert (M : (abs match n with
                   | Zpos p => nearest_quotient p (Z.to_pos (10 ^ Z.of_nat k))
                   | _ => 0%float
                   end <=? 1000)%float = true).
  { destruct n as [|p|p]; [reflexivity| |lia].
    assert (P : 0 < 10 ^ Z.of_nat k) by (apply Z.pow_pos_nonneg; lia).
    destruct (nearest_quotient_in_range p (Z.to_pos (10 ^ Z.of_nat k))) as [L A].
    { rewrite Z2Pos.id by exact P. lia. }
    rewrite A. exact L. }
  destruct neg; [rewrite abs_opp|]; exact M.
Qed.

Lemma python_float_in_range w v :
  signed_decimal w -> python_float w = Ok v -> (abs v <=? 1000)%float = true.
Proof.
  intros (sign & ip & fp & -> & Hs & Hip & Hlip & Hfp & Hlfp) F.
  rewrite python_float_signed_decimal in F by (auto; lia).
  injection F as <-. apply float_of_decimal_in_range.
  pose proof (digits_value_bound (ip ++ fp) (all_in_app _ _ _ Hip Hfp)) as B.
  rewrite length_app, Nat2Z.inj_add, Z.pow_add_r in B by lia.
  assert (10 ^ Z.of_nat (length ip) <= 10 ^ 3).
  { apply Z.pow_le_mono_r; lia. }
  assert (0 < 10 ^ Z.of_nat (length fp)) by (apply Z.pow_pos_nonneg; lia).
  change (10 ^ 3) with 1000 in *. nia.
Qed.

Lemma abs_abs x : abs (abs x) = abs x.
Proof.
  apply Prim2SF_inj. rewrite !abs_spec. destruct (Prim2SF x); reflexivity.
Qed.

Lemma abs_hemisphere c l v : abs (hemisphere c l v) = abs v.
Proof.
  unfold hemisphere. destruct l; [reflexivity|].
  destruct (text_eqb _ _); [rewrite abs_opp|]; apply abs_abs.
Qed.

(** A float whose magnitude compares below a number is a number itself. *)
Lemma bounded_is_finite x : (abs x <=? 1000)%float = true -> is_finite x = true.
Proof.
  rewrite leb_spec, abs_spec. intros H.
  unfold is_finite, is_nan, is_infinity.
  rewrite !eqb_spec, abs_spec.
  change (Prim2SF infinity) with (S754_infinity false).
  change (Prim2SF 1000) with (S754_finite false 8796093022208000 (-43)) in H.
  destruct (Prim2SF x) as [s|s| |s m e]; try discriminate.
  - reflexivity.
  - cbn [SFabs]. unfold SFeqb. cbn [SFcompare].
    rewrite Z.compare_refl.
    change (PosDef.Pos.compare_cont Eq m m) with (Pos.compare m m).
    rewrite Pos.compare_refl. destruct s; reflexivity.
Qed.

Local Close Scope Z_scope.
Local Open Scope py_scope.

(** X10. Whatever the text, the coordinates the parser returns are numbers,
    never an infinity or a NaN, and their magnitude is 1000 at most: that is
    all the three digits before the point allow, and no narrower range (90
    for a latitude, 180 for a longitude) is looked for.  The bound is
    reached: a text with seventeen nines after [999.] is read as 1000. *)
Theorem parsed_coordinates_are_numbers_up_to_1000 :
  (forall txt lat lon,
      extract_coords_from_text txt = Ok (Some (lat, lon)) ->
      ((abs lat <=? 1000)%float = true /\ is_finite lat = true)
      /\ ((abs lon <=? 1000)%float = true /\ is_finite lon = true))
  /\ extract_coords_from_text (lit "999.99999999999999999N 0.5E")
     = Ok (Some (1000%float, 0.5%float)).
Proof.
  split; [|vm_compute; reflexivity].
  intros txt lat lon H.
  destruct (search pattern txt) as [m|] eqn:Hs.
  - apply extract_of_match in Hs.
    destruct Hs as (n1 & ns & n2 & ew & v1 & v2 & N1 & N2 & _ & _ & _ & _ & _ & _
                    & F1 & F2 & E).
    rewrite E in H. injection H as <- <-.
    pose proof (python_float_in_range _ _ N1 F1) as B1.
    pose proof (python_float_in_range _ _ N2 F2) as B2.
    rewrite <- (abs_hemisphere (ascii_of_nat 83) ns v1) in B1.
    rewrite <- (abs_hemisphere (ascii_of_nat 87) ew v2) in B2.
    split; (split; [assumption | apply bounded_is_finite; assumption]).
  - unfold extract_coords_from_text in H. rewrite Hs in H. discriminate.
Qed.



Section Pipeline.
Context {L : Libm}.
Variables els eos : Z.


End Pipeline.

Local Close Scope py_scope.

(** ** The characters of a track point *)

Lemma plain_is_no_markup c : is_plain c = true -> is_markup c = false.
Proof.
  unfold is_plain, is_markup, is_digit, is_char. intros H.
  repeat (apply orb_prop in H; destruct H as [H | H]);
    try (apply Nat.eqb_eq in H; rewrite H; reflexivity).
  apply andb_prop in H. destruct H as [H1 H2].
  apply Nat.leb_le in H1. apply Nat.leb_le in H2.
  repeat (apply orb_false_intro); apply Nat.eqb_neq; lia.
Qed.

Lemma digit_is_plain c : is_digit c = true -> is_plain c = true.
Proof. unfold is_plain. intros ->. reflexivity. Qed.

Lemma digits_are_plain w : all_in is_digit w -> all_in is_plain w.
Proof. apply all_in_weaken. exact digit_is_plain. Qed.

Lemma zero_padded_plain w n : all_in is_plain (zero_padded w n).
Proof.
  unfold zero_padded. apply digits_are_plain.
  apply all_in_app; [apply all_in_repeat; reflexivity | apply decimal_digits].
Qed.

Lemma fixed6_plain neg n : all_in is_plain (fixed6 neg n).
Proof.
  unfold fixed6.
  apply all_in_app; [destruct neg; repeat constructor|].
  apply all_in_app; [apply digits_are_plain, decimal_digits|].
  apply all_in_app; [repeat constructor | apply zero_padded_plain].
Qed.

Lemma format_6f_plain x : all_in is_plain (format_6f x).
Proof.
  unfold format_6f. destruct (Prim2SF x) as [s|s| |s m e].
  - apply fixed6_plain.
  - destruct s; repeat constructor.
  - repeat constructor.
  - apply fixed6_plain.
Qed.

Lemma isoformat_plain d : all_in is_plain (isoformat d).
Proof.
  unfold isoformat.
  repeat (apply all_in_app;
          [first [apply zero_padded_plain | repeat constructor]|]).
  destruct (microsecond d =? 0)%Z; [constructor|].
  apply all_in_app; [repeat constructor | apply zero_padded_plain].
Qed.

(** ** Lines *)

Lemma line_count_app s1 s2 : line_count (s1 ++ s2) = line_count s1 + line_count s2.
Proof. unfold line_count. apply count_occ_app. Qed.

Lemma line_count_plain w : all_in is_plain w -> line_count w = 0.
Proof.
  unfold line_count. intros H. apply count_occ_not_In. intros Hin.
  unfold all_in in H. rewrite Forall_forall in H. specialize (H _ Hin).
  apply plain_is_no_markup in H. discriminate.
Qed.

Lemma trkpt_one_line p : line_count (trkpt p) = 1.
Proof.
  destruct p as [[t lat] lon]. unfold trkpt, quoted.
  rewrite !line_count_app.
  rewrite (line_count_plain _ (format_6f_plain lat)),
    (line_count_plain _ (format_6f_plain lon)),
    (line_count_plain _ (isoformat_plain t)).
  reflexivity.
Qed.

Lemma line_count_points points :
  line_count (concat (map trkpt points)) = length points.
Proof.
  induction points as [|p points IH]; cbn [map concat length]; [reflexivity|].
  rewrite line_count_app, trkpt_one_line, IH. reflexivity.
Qed.

(** X12. The file has a line for each reading and seven more, whatever the
    readings; the latitude, the longitude and the time of a track point are
    written with digits, signs, points, colons and letters only: no quote,
    angle bracket, ampersand or line break gets into an attribute or into
    the text of an element. *)
Theorem gpx_file_lines_and_characters points :
  line_count (write_gpx points) = 7 + length points
  /\ (forall t lat lon c,
         In c (format_6f lat) \/ In c (format_6f lon) \/ In c (isoformat t) ->
         is_plain c = true /\ is_markup c = false).
Proof.
  split.
  - rewrite write_gpx_structure, !line_count_app, line_count_points.
    change (line_count XML_DECLARATION) with 1.
    change (line_count GPX_OPEN) with 1.
    change (line_count TRK_OPEN) with 2.
    change (line_count TRK_CLOSE) with 3. lia.
  - intros t lat lon c H.
    assert (P : is_plain c = true).
    { destruct H as [H | [H | H]];
        [pose proof (format_6f_plain lat) as A
        |pose proof (format_6f_plain lon) as A
        |pose proof (isoformat_plain t) as A];
        unfold all_in in A; rewrite Forall_forall in A; exact (A _ H). }
    split; [exact P | apply plain_is_no_markup; exact P].
Qed.

Local Open Scope py_scope.
Local Open Scope Z_scope.

(** ** The calendar *)

Lemma all_from_spec f k : forall z,
  all_from f z k = true -> forall r, z <= r < z + Z.of_nat k -> f r = true.
Proof.
  induction k as [|k IH]; intros z H r Hr; [lia|].
  cbn [all_from] in H. apply andb_prop in H. destruct H as [H1 H2].
  destruct (Z.eq_dec r z) as [-> | Hne]; [exact H1|].
  apply (IH (z + 1) H2). lia.
Qed.

(** Every day of a year has its month and day. *)
Lemma month_and_day_of_year leapyear n :
  0 <= n < 365 -> month_and_day_ok leapyear n = true.
Proof.
  intros H.
  assert (A : all_from (fun n => month_and_day_ok false n
                                 && month_and_day_ok true n) 0 365 = true).
  { vm_compute. reflexivity. }
  pose proof (all_from_spec _ _ _ A n ltac:(lia)) as B.
  apply andb_prop in B. destruct leapyear; tauto.
Qed.

(** Every year of a cycle of 400 begins on its day. *)
Lemma year_of_cycle a b c :
  0 <= a < 4 -> 0 <= b < 25 -> 0 <= c < 4 -> year_ok a b c = true.
Proof.
  intros Ha Hb Hc.
  assert (A : all_from (fun a => all_from (fun b => all_from (year_ok a b) 0 4)
                                          0 25) 0 4 = true).
  { vm_compute. reflexivity. }
  pose proof (all_from_spec _ _ _ A a ltac:(lia)) as A1.
  pose proof (all_from_spec _ _ _ A1 b ltac:(lia)) as A2.
  exact (all_from_spec _ _ _ A2 c ltac:(lia)).
Qed.

Lemma leap_day_of_cycle a b : 0 <= a < 4 -> 0 <= b < 24 -> leap_day_ok a b = true.
Proof.
  intros Ha Hb.
  assert (A : all_from (fun a => all_from (leap_day_ok a) 0 24) 0 4 = true).
  { vm_compute. reflexivity. }
  pose proof (all_from_spec _ _ _ A a ltac:(lia)) as A1.
  exact (all_from_spec _ _ _ A1 b ltac:(lia)).
Qed.

(** [_ord2ymd] on a day of the first 400 years, its steps named. *)
Lemma ord2ymd_steps r :
  0 <= r < 146097 ->
  let n100 := r / 36524 in
  let n4 := r mod 36524 / 1461 in
  let n1 := r mod 36524 mod 1461 / 365 in
  let n := r mod 36524 mod 1461 mod 365 in
  let year := 1 + (n100 * 100 + n4 * 4 + n1) in
  ord2ymd (r + 1) =
  if (n1 =? 4) || (n100 =? 4) then (year - 1, 12, 31)
  else
    let '(m, d) :=
      month_and_day ((n1 =? 3) && (negb (n4 =? 24) || (n100 =? 3))) n in
    (year, m, d).
Proof.
  intros H. cbv zeta. unfold ord2ymd, month_and_day.
  replace (r + 1 - 1) with r by lia.
  rewrite (Z.mod_small r 146097) by exact H.
  rewrite (Z.div_small r 146097) by exact H.
  change (0 * 400 + 1) with 1. cbv zeta.
  destruct ((r mod 36524 mod 1461 / 365 =? 4) || (r / 36524 =? 4));
    [reflexivity|].
  match goal with |- (if ?c then _ else _) = _ => destruct c end; reflexivity.
Qed.

Lemma days_in_december y : days_in_month y 12 = 31.
Proof. reflexivity. Qed.

(** A day of the first 400 years has a date, and the date has its number. *)
Lemma cycle_day r :
  0 <= r < 146097 ->
  let '(y, m, d) := ord2ymd (r + 1) in
  ymd2ord y m d = r + 1
  /\ 1 <= y <= 400 /\ (y <= 399 \/ 145730 < r)
  /\ 1 <= m <= 12 /\ 1 <= d <= days_in_month y m.
Proof.
  intros H. rewrite (ord2ymd_steps r H). cbv zeta.
  pose proof (Z.div_mod r 36524 ltac:(lia)) as D1.
  pose proof (Z.mod_pos_bound r 36524 ltac:(lia)) as B1.
  assert (N100 : 0 <= r / 36524 <= 4).
  { split; [apply Z.div_pos; lia|].
    apply Z.lt_succ_r. apply Z.div_lt_upper_bound; lia. }
  set (n100 := r / 36524) in *. set (r1 := r mod 36524) in *.
  pose proof (Z.div_mod r1 1461 ltac:(lia)) as D2.
  pose proof (Z.mod_pos_bound r1 1461 ltac:(lia)) as B2.
  assert (N4 : 0 <= r1 / 1461 <= 24).
  { split; [apply Z.div_pos; lia|].
    apply Z.lt_succ_r. apply Z.div_lt_upper_bound; lia. }
  set (n4 := r1 / 1461) in *. set (r2 := r1 mod 1461) in *.
  pose proof (Z.div_mod r2 365 ltac:(lia)) as D3.
  pose proof (Z.mod_pos_bound r2 365 ltac:(lia)) as B3.
  assert (N1 : 0 <= r2 / 365 <= 4).
  { split; [apply Z.div_pos; lia|].
    apply Z.lt_succ_r. apply Z.div_lt_upper_bound; lia. }
  set (n1 := r2 / 365) in *. set (n := r2 mod 365) in *.
  clearbody n n1 r2 n4 r1 n100.
  destruct (Z.eqb_spec n100 4) as [E100 | E100].
  - (* the last day of the cycle *)
    rewrite orb_true_r.
    assert (E : r = 146096 /\ n4 = 0 /\ n1 = 0) by lia.
    destruct E as (Er & E4 & E1). rewrite E100, E4, E1, Er.
    rewrite days_in_december.
    split; [vm_compute; reflexivity | lia].
  - destruct (Z.eqb_spec n1 4) as [E1 | E1]; cbn [orb].
    + (* the last day of a leap year *)
      subst n1. assert (n = 0 /\ n4 <= 23) by lia.
      pose proof (leap_day_of_cycle n100 n4 ltac:(lia) ltac:(lia)) as L.
      unfold leap_day_ok in L. apply Z.eqb_eq in L.
      replace (1 + (n100 * 100 + n4 * 4 + 4) - 1) with (n100 * 100 + n4 * 4 + 4)
        by lia.
      rewrite L, days_in_december. repeat split; lia.
    + pose proof (year_of_cycle n100 n4 n1 ltac:(lia) ltac:(lia) ltac:(lia)) as Y.
      unfold year_ok in Y. cbv zeta in Y. apply andb_prop in Y.
      destruct Y as [Y1 Y2]. apply Z.eqb_eq in Y1. apply Bool.eqb_prop in Y2.
      set (leapyear := (n1 =? 3) && (negb (n4 =? 24) || (n100 =? 3))) in *.
      pose proof (month_and_day_of_year leapyear n B3) as M.
      unfold month_and_day_ok in M.
      destruct (month_and_day leapyear n) as [m d].
      repeat (apply andb_prop in M; destruct M as [M ?]).
      apply Z.eqb_eq in H0.
      repeat match goal with
             | H : (_ <=? _) = true |- _ => apply Z.leb_le in H
             end.
      unfold ymd2ord, days_before_month, days_in_month. rewrite Y1, Y2.
      repeat split; lia.
Qed.

(** The calendar repeats every 400 years, that is every 146097 days. *)
Lemma ord2ymd_cycle n :
  let a := (n - 1) / 146097 in
  let r := (n - 1) mod 146097 in
  ord2ymd n = let '(y, m, d) := ord2ymd (r + 1) in (y + 400 * a, m, d).
Proof.
  cbv zeta. unfold ord2ymd.
  replace ((n - 1) mod 146097 + 1 - 1) with ((n - 1) mod 146097) by lia.
  pose proof (Z.mod_pos_bound (n - 1) 146097 ltac:(lia)) as B.
  rewrite (Z.mod_small ((n - 1) mod 146097) 146097) by exact B.
  rewrite (Z.div_small ((n - 1) mod 146097) 146097) by exact B.
  set (r := (n - 1) mod 146097).
  set (a := (n - 1) / 146097).
  destruct ((r mod 36524 mod 1461 / 365 =? 4) || (r / 36524 =? 4)).
  - f_equal. f_equal. lia.
  - cbv zeta.
    match goal with |- (if ?c then _ else _) = _ => destruct c end;
      (f_equal; f_equal; lia).
Qed.

Lemma is_leap_cycle y a : is_leap (y + 400 * a) = is_leap y.
Proof.
  unfold is_leap.
  replace (y + 400 * a) with (y + (100 * a) * 4) at 1 by lia.
  replace (y + 400 * a) with (y + (4 * a) * 100) at 1 by lia.
  replace (y + 400 * a) with (y + a * 400) by lia.
  rewrite !Z.mod_add by lia. reflexivity.
Qed.

Lemma days_in_month_cycle y m a : days_in_month (y + 400 * a) m = days_in_month y m.
Proof. unfold days_in_month. rewrite is_leap_cycle. reflexivity. Qed.

Lemma ymd2ord_cycle y m d a :
  ymd2ord (y + 400 * a) m d = ymd2ord y m d + 146097 * a.
Proof.
  unfold ymd2ord, days_before_month, days_before_year.
  rewrite is_leap_cycle. cbv zeta.
  replace (y + 400 * a - 1) with (y - 1 + (100 * a) * 4) at 2 by lia.
  replace (y + 400 * a - 1) with (y - 1 + (4 * a) * 100) at 2 by lia.
  replace (y + 400 * a - 1) with (y - 1 + a * 400) at 2 by lia.
  rewrite !Z.div_add by lia. lia.
Qed.

(** A day number of the years 1 to 9999 has a date, and the date has the day
    number. *)
Lemma ord2ymd_inverse n :
  0 < n <= MAXORDINAL ->
  let '(y, m, d) := ord2ymd n in
  ymd2ord y m d = n /\ 1 <= y <= 9999 /\ 1 <= m <= 12
  /\ 1 <= d <= days_in_month y m.
Proof.
  unfold MAXORDINAL. intros H.
  pose proof (ord2ymd_cycle n) as C. cbv zeta in C.
  pose proof (Z.mod_pos_bound (n - 1) 146097 ltac:(lia)) as B.
  pose proof (cycle_day _ B) as K.
  pose proof (Z.div_mod (n - 1) 146097 ltac:(lia)) as DM.
  set (r := (n - 1) mod 146097) in *.
  set (a := (n - 1) / 146097) in *.
  destruct (ord2ymd (r + 1)) as [[y m] d]. rewrite C.
  destruct K as (K & Hy & Hy' & Hm & Hd).
  rewrite ymd2ord_cycle, K, days_in_month_cycle.
  assert (0 <= a <= 24) by lia.
  assert (a = 24 -> r <= 145730) by lia.
  repeat split; lia.
Qed.

(** ** One date for each day, one date and time for each instant *)

Lemma days_before_year_step y :
  days_before_year (y + 1)
  = days_before_year y + 365 + (if is_leap y then 1 else 0).
Proof.
  unfold days_before_year, is_leap. cbv zeta.
  replace (y + 1 - 1) with y by lia.
  destruct (Z.eqb_spec (y mod 4) 0), (Z.eqb_spec (y mod 100) 0),
    (Z.eqb_spec (y mod 400) 0); cbn [andb orb negb];
    Z.div_mod_to_equations; lia.
Qed.

Lemma days_before_year_mono y y' :
  y <= y' -> days_before_year y <= days_before_year y'.
Proof.
  unfold days_before_year. cbv zeta. intros H. Z.div_mod_to_equations. lia.
Qed.

Ltac calendar :=
  repeat match goal with
         | |- context [nth (Z.to_nat ?k) ?l 0] =>
             let v := eval vm_compute in (nth (Z.to_nat k) l 0) in
             change (nth (Z.to_nat k) l 0) with v
         | |- context [?a <? ?b] =>
             let v := eval vm_compute in (a <? b) in change (a <? b) with v
         | |- context [?a =? ?b] =>
             let v := eval vm_compute in (a =? b) in change (a =? b) with v
         end;
  cbn [andb]; cbv iota.

Lemma month_cases m :
  1 <= m <= 12 ->
  m = 1 \/ m = 2 \/ m = 3 \/ m = 4 \/ m = 5 \/ m = 6 \/ m = 7
  \/ m = 8 \/ m = 9 \/ m = 10 \/ m = 11 \/ m = 12.
Proof. lia. Qed.

(** The days of a month, counted from the start of the year, lie between
    those of the months before and those of the months after. *)
Lemma day_of_year_span y m d :
  1 <= m <= 12 -> 1 <= d <= days_in_month y m ->
  days_before_month y m < days_before_month y m + d
  /\ days_before_month y m + d
     <= (if m =? 12 then 365 + (if is_leap y then 1 else 0)
         else days_before_month y (m + 1)).
Proof.
  intros Hm. unfold days_before_month, days_in_month.
  set (b := is_leap y). clearbody b.
  destruct (month_cases m Hm) as [-> | [-> | [-> | [-> | [-> | [-> | [-> | [->
    | [-> | [-> | [-> | ->]]]]]]]]]]]; destruct b; calendar; lia.
Qed.

Lemma days_before_month_mono y m m' :
  1 <= m -> m <= m' -> m' <= 12 ->
  days_before_month y m <= days_before_month y m'.
Proof.
  intros H1 H2 H3. unfold days_before_month.
  set (b := is_leap y). clearbody b.
  destruct (month_cases m ltac:(lia)) as [-> | [-> | [-> | [-> | [-> | [-> | [->
    | [-> | [-> | [-> | [-> | ->]]]]]]]]]]];
    destruct (month_cases m' ltac:(lia)) as [-> | [-> | [-> | [-> | [-> | [->
      | [-> | [-> | [-> | [-> | [-> | ->]]]]]]]]]]]; try lia;
    destruct b; calendar; lia.
Qed.

Lemma ymd2ord_injective y m d y' m' d' :
  1 <= m <= 12 -> 1 <= d <= days_in_month y m ->
  1 <= m' <= 12 -> 1 <= d' <= days_in_month y' m' ->
  ymd2ord y m d = ymd2ord y' m' d' -> y = y' /\ m = m' /\ d = d'.
Proof.
  intros Hm Hd Hm' Hd' E. unfold ymd2ord in E.
  pose proof (day_of_year_span y m d Hm Hd) as [S1 S2].
  pose proof (day_of_year_span y' m' d' Hm' Hd') as [S1' S2'].
  pose proof (days_before_month_mono y 1 m ltac:(lia) ltac:(lia) ltac:(lia)) as L.
  pose proof (days_before_month_mono y' 1 m' ltac:(lia) ltac:(lia) ltac:(lia)) as L'.
  change (days_before_month y 1) with 0 in L.
  change (days_before_month y' 1) with 0 in L'.
  assert (T : forall z k e, 1 <= k <= 12 -> 1 <= e <= days_in_month z k ->
            days_before_month z k + e <= 365 + (if is_leap z then 1 else 0)).
  { intros z k e Hk He.
    pose proof (day_of_year_span z k e Hk He) as [_ U].
    destruct (Z.eqb_spec k 12) as [-> | N]; [exact U|].
    pose proof (days_before_month_mono z (k + 1) 12 ltac:(lia) ltac:(lia)
                  ltac:(lia)) as V.
    assert (W : days_before_month z 12 + 31
                <= 365 + (if is_leap z then 1 else 0)).
    { unfold days_before_month. destruct (is_leap z); calendar; lia. }
    lia. }
  pose proof (T y m d Hm Hd) as T1. pose proof (T y' m' d' Hm' Hd') as T2.
  pose proof (days_before_year_step y) as St.
  pose proof (days_before_year_step y') as St'.
  assert (Y : y = y').
  { destruct (Z.lt_trichotomy y y') as [Lt | [Eq | Gt]]; [|exact Eq|].
    - pose proof (days_before_year_mono (y + 1) y' ltac:(lia)). lia.
    - pose proof (days_before_year_mono (y' + 1) y ltac:(lia)). lia. }
  subst y'. split; [reflexivity|].
  assert (M : m = m').
  { destruct (Z.lt_trichotomy m m') as [Lt | [Eq | Gt]]; [|exact Eq|].
    - destruct (Z.eqb_spec m 12); [lia|].
      pose proof (days_before_month_mono y (m + 1) m' ltac:(lia) ltac:(lia)
                    ltac:(lia)). lia.
    - destruct (Z.eqb_spec m' 12); [lia|].
      pose proof (days_before_month_mono y (m' + 1) m ltac:(lia) ltac:(lia)
                    ltac:(lia)). lia. }
  subst m'. split; [reflexivity | lia].
Qed.

(** A date and time is known by its instant. *)
Lemma instant_injective a b :
  valid_datetime a -> valid_datetime b -> instant a = instant b -> a = b.
Proof.
  intros (Hy & Hm & Hd & Hh & Hmi & Hs & Hu) (Hy' & Hm' & Hd' & Hh' & Hmi' & Hs' & Hu').
  unfold instant, datetime_sub, toordinal.
  cbn [year month day hour minute second microsecond].
  change (ymd2ord 1 1 1) with 1. intros E.
  pose proof (ymd2ord_injective (year a) (month a) (day a)
                (year b) (month b) (day b) Hm Hd Hm' Hd') as I.
  set (oa := ymd2ord (year a) (month a) (day a)) in *.
  set (ob := ymd2ord (year b) (month b) (day b)) in *.
  clearbody oa ob.
  assert (O : oa = ob) by lia.
  destruct (I O) as (E1 & E2 & E3).
  destruct a as [y1 m1 d1 h1 mi1 s1 u1], b as [y2 m2 d2 h2 mi2 s2 u2].
  cbn [year month day hour minute second microsecond] in *.
  subst. f_equal; lia.
Qed.

(** ** Time that passes *)

Lemma total_seconds_positive td : 0 < td -> (0 <? total_seconds td)%float = true.
Proof.
  destruct td as [|p|p]; try lia. intros _.
  unfold total_seconds, int_true_divide, nearest_quotient.
  destruct (SFdiv_normal p 1000000) as [V S].
  { change (Zdigits2 (Zpos 1000000)) with 20.
    assert (1 <= Zdigits2 (Zpos p)) by (cbn [Zdigits2]; lia). lia. }
  rewrite ltb_spec, (Prim2SF_SF2Prim _ V).
  change (Prim2SF 0) with (S754_zero false).
  destruct S as [-> | (m & e & ->)]; reflexivity.
Qed.

Lemma timedelta_seconds_ok n td : timedelta_seconds n = Ok td -> td = n * 1000000.
Proof.
  unfold timedelta_seconds. destruct (_ <? _); [discriminate|].
  intros H. injection H as <-. reflexivity.
Qed.

(** What [datetime + timedelta] returns is a date and time, later than the
    first by the second. *)
Lemma datetime_add_instant d td d' :
  datetime_add d td = Ok d' ->
  instant d' = instant d + td /\ valid_datetime d'.
Proof.
  unfold datetime_add.
  set (delta := (toordinal d * 86400 + (second d + minute d * 60 + hour d * 3600))
                * 1000000 + microsecond d + td).
  cbv zeta.
  destruct ((0 <? delta / 86400000000) && (delta / 86400000000 <=? MAXORDINAL))
    eqn:Hr; [|discriminate].
  apply andb_prop in Hr. destruct Hr as [H1 H2].
  apply Z.ltb_lt in H1. apply Z.leb_le in H2.
  pose proof (ord2ymd_inverse (delta / 86400000000) (conj H1 H2)) as I.
  destruct (ord2ymd (delta / 86400000000)) as [[y m] dd].
  destruct I as (Ho & Hy & Hm & Hd).
  intros H. injection H as <-.
  pose proof (Z.div_mod delta 86400000000 ltac:(lia)) as D1.
  pose proof (Z.mod_pos_bound delta 86400000000 ltac:(lia)) as B1.
  set (rest := delta mod 86400000000) in *.
  pose proof (Z.div_mod rest 1000000 ltac:(lia)) as D2.
  pose proof (Z.mod_pos_bound rest 1000000 ltac:(lia)) as B2.
  assert (B2' : 0 <= rest / 1000000 < 86400).
  { split; [apply Z.div_pos; lia | apply Z.div_lt_upper_bound; lia]. }
  set (secs := rest / 1000000) in *.
  pose proof (Z.div_mod secs 3600 ltac:(lia)) as D3.
  pose proof (Z.mod_pos_bound secs 3600 ltac:(lia)) as B3.
  assert (B3' : 0 <= secs / 3600 < 24).
  { split; [apply Z.div_pos; lia | apply Z.div_lt_upper_bound; lia]. }
  set (rem := secs mod 3600) in *.
  pose proof (Z.div_mod rem 60 ltac:(lia)) as D4.
  pose proof (Z.mod_pos_bound rem 60 ltac:(lia)) as B4.
  assert (B4' : 0 <= rem / 60 < 60).
  { split; [apply Z.div_pos; lia | apply Z.div_lt_upper_bound; lia]. }
  set (days := delta / 86400000000) in *.
  split.
  - unfold instant, datetime_sub, toordinal.
    cbn [year month day hour minute second microsecond].
    rewrite Ho. change (ymd2ord 1 1 1) with 1.
    clearbody days rem secs rest. unfold delta, toordinal in D1. lia.
  - unfold valid_datetime.
    cbn [year month day hour minute second microsecond].
    clearbody rem secs rest. lia.
Qed.

Lemma datetime_add_raises d td e : datetime_add d td = Raise e -> e = OverflowError.
Proof.
  unfold datetime_add. cbv zeta. destruct (_ && _).
  - destruct (ord2ymd _) as [[y m] dd]. discriminate.
  - intros H. injection H as <-. reflexivity.
Qed.

Lemma days_before_month_bounds y m :
  1 <= m <= 12 -> 0 <= days_before_month y m <= 335.
Proof.
  intros H. unfold days_before_month.
  assert (C : m = 1 \/ m = 2 \/ m = 3 \/ m = 4 \/ m = 5 \/ m = 6 \/ m = 7
              \/ m = 8 \/ m = 9 \/ m = 10 \/ m = 11 \/ m = 12) by lia.
  set (b := (2 <? m) && is_leap y). clearbody b.
  repeat (destruct C as [-> | C]); try subst m;
    destruct b; vm_compute; split; discriminate.
Qed.

Lemma toordinal_bounds d :
  valid_datetime d -> year d <= 9998 -> 1 <= toordinal d <= 3651711.
Proof.
  intros (Hy & Hm & Hd & _) Y. unfold toordinal, ymd2ord, days_before_year.
  pose proof (days_before_month_bounds (year d) (month d) Hm) as B.
  pose proof (days_in_month_bounds (year d) (month d) Hm) as B'.
  cbv zeta. set (z := year d - 1) in *. assert (0 <= z <= 9997) by lia.
  Z.div_mod_to_equations. lia.
Qed.

Lemma datetime_add_returns d k :
  valid_datetime d -> year d <= 9998 -> 0 <= k <= 30000000 ->
  exists d', datetime_add d (k * 1000000) = Ok d'.
Proof.
  intros V Y Hk. pose proof (toordinal_bounds d V Y) as B.
  destruct V as (_ & _ & _ & Hh & Hmi & Hs & Hu).
  unfold datetime_add.
  set (delta := (toordinal d * 86400 + (second d + minute d * 60 + hour d * 3600))
                * 1000000 + microsecond d + k * 1000000).
  cbv zeta.
  assert (D : 0 < delta / 86400000000 <= MAXORDINAL).
  { unfold MAXORDINAL. split.
    - apply Z.div_str_pos. unfold delta. lia.
    - apply Z.lt_succ_r. apply Z.div_lt_upper_bound; [lia|]. unfold delta. lia. }
  destruct D as [D1 D2]. apply Z.ltb_lt in D1. apply Z.leb_le in D2.
  rewrite D1, D2. cbn [andb].
  destruct (ord2ymd _) as [[y m] dd]. eexists. reflexivity.
Qed.

Lemma collect_returns start_dt texts :
  valid_datetime start_dt -> year start_dt <= 9998 ->
  forall sec0 acc,
    Z.of_nat sec0 + Z.of_nat (length texts) <= 30000000 ->
    exists points, collect start_dt (Z.of_nat sec0) texts acc = Ok points.
Proof.
  intros V Y.
  induction texts as [|text texts IH]; intros sec0 acc H; cbn [collect].
  - eexists. reflexivity.
  - cbn [length] in H.
    destruct (extract_never_raises text) as [r Hr]. rewrite Hr. cbn [bind].
    replace (Z.of_nat sec0 + 1)%Z with (Z.of_nat (S sec0)) by lia.
    destruct r as [[lat lon]|]; [|apply IH; lia].
    assert (T : timedelta_seconds (Z.of_nat sec0) = Ok (Z.of_nat sec0 * 1000000)).
    { unfold timedelta_seconds.
      assert (0 <= Z.of_nat sec0 / 86400 <= 30000000).
      { split; [apply Z.div_pos; lia|].
        apply Z.lt_succ_r. apply Z.div_lt_upper_bound; lia. }
      destruct (Z.ltb_spec 999999999 (Z.abs (Z.of_nat sec0 / 86400))); [lia|].
      reflexivity. }
    rewrite T. cbn [bind].
    destruct (datetime_add_returns start_dt (Z.of_nat sec0) V Y ltac:(lia))
      as [ts ->].
    cbn [bind]. apply IH. lia.
Qed.

Local Close Scope Z_scope.

(** ** The loop over the frames *)

Lemma stamped_later start_dt sec0 text texts p :
  stamped start_dt (S sec0) texts p -> stamped start_dt sec0 (text :: texts) p.
Proof.
  destruct p as [[t lat] lon].
  intros (k & txt & delta & Hk & He & Hd & Ha & V & Hi & Hu).
  exists (S k), txt, delta. cbn [nth_error].
  replace (sec0 + S k)%nat with (S sec0 + k)%nat by lia.
  repeat (split; [assumption|]). assumption.
Qed.

Lemma collect_from start_dt texts : forall sec0 acc points,
  collect start_dt (Z.of_nat sec0) texts acc = Ok points ->
  exists new,
    points = acc ++ new
    /\ Forall (stamped start_dt sec0 texts) new
    /\ LocallySorted strictly_later new
    /\ length new = length (filter has_reading texts).
Proof.
  induction texts as [|text texts IH]; intros sec0 acc points; cbn [collect].
  - intros H. injection H as <-. exists []. rewrite app_nil_r.
    repeat split; constructor.
  - destruct (extract_never_raises text) as [r Hr]. rewrite Hr. cbn [bind].
    cbn [filter]. unfold has_reading at 1. rewrite Hr.
    replace (Z.of_nat sec0 + 1)%Z with (Z.of_nat (S sec0)) by lia.
    destruct r as [[lat lon]|].
    + destruct (timedelta_seconds (Z.of_nat sec0)) as [delta|e] eqn:Hd;
        cbn [bind]; [|discriminate].
      destruct (datetime_add start_dt delta) as [ts|e] eqn:Ha;
        cbn [bind]; [|discriminate].
      intros H. apply IH in H. destruct H as (new & -> & HF & HS & HL).
      pose proof (timedelta_seconds_ok _ _ Hd) as Ed.
      destruct (datetime_add_instant _ _ _ Ha) as [Hi Hv].
      exists ((ts, lat, lon) :: new). rewrite <- app_assoc. cbn [app length].
      split; [reflexivity|]. split; [|split; [|congruence]].
      * constructor.
        -- exists 0%nat, text, delta. cbn [nth_error]. rewrite Nat.add_0_r.
           split; [reflexivity|].
           repeat (split; [assumption|]). split; [lia|].
           intros t' Vt' Et'. exact (instant_injective _ _ Vt' Hv Et').
        -- eapply Forall_impl; [|exact HF]. intros p. apply stamped_later.
      * destruct new as [|[[t2 lat2] lon2] new]; constructor; [exact HS|].
        inversion HF as [|? ? Hst _]; subst.
        destruct Hst as (k & txt & _ & _ & _ & _ & _ & _ & Hi2 & _).
        unfold strictly_later. rewrite Hi, Hi2. lia.
    + intros H. apply IH in H. destruct H as (new & -> & HF & HS & HL).
      exists new. split; [reflexivity|]. split; [|split; assumption].
      eapply Forall_impl; [|exact HF]. intros p. apply stamped_later.
Qed.

Lemma collect_raises start_dt texts : forall sec acc e,
  collect start_dt sec texts acc = Raise e -> e = OverflowError.
Proof.
  induction texts as [|text texts IH]; intros sec acc e; cbn [collect];
    [discriminate|].
  destruct (extract_never_raises text) as [r Hr]. rewrite Hr. cbn [bind].
  destruct r as [[lat lon]|]; [|apply IH].
  unfold timedelta_seconds.
  destruct (_ <? _)%Z; cbn [bind]; [intros H; injection H as <-; reflexivity|].
  destruct (datetime_add start_dt _) as [ts|e'] eqn:Ha; cbn [bind]; [apply IH|].
  intros H. injection H as <-. exact (datetime_add_raises _ _ _ Ha).
Qed.

(** X13. The loop of [extract_coords_from_video] makes one reading of each
    text the parser finds coordinates in, and none of the others; a reading
    has the coordinates read from its text and, for its time,
    [start_dt + timedelta(seconds=sec)] for the second [sec] of its frame:
    a date and time of the calendar, in the years 1 to 9999, and the only
    one that many seconds after the start; so the readings come out in the
    order of time, each later than the one before.  Of what the loop
    computes from the texts nothing raises but the time stamp, an
    [OverflowError] when it leaves those years; the loop returns when the
    start is a date and time up to the year 9998 and the texts are 30
    million at most, less than a year of seconds. *)
Theorem frames_become_readings_in_time_order start_dt texts :
  (forall points,
      collect start_dt 0 texts [] = Ok points ->
      length points = length (filter has_reading texts)
      /\ (length points <= length texts)%nat
      /\ Forall (stamped start_dt 0 texts) points
      /\ LocallySorted strictly_later points)
  /\ (forall e, collect start_dt 0 texts [] = Raise e -> e = OverflowError)
  /\ (valid_datetime start_dt -> (year start_dt <= 9998)%Z ->
      (Z.of_nat (length texts) <= 30000000)%Z ->
      exists points, collect start_dt 0 texts [] = Ok points).
Proof.
  split; [|split; [intros e; apply collect_raises|]].
  2:{ intros V Y Hl. apply (collect_returns start_dt texts V Y 0%nat []). lia. }
  intros points H. apply (collect_from start_dt texts 0 []) in H.
  destruct H as (new & -> & HF & HS & HL). cbn [app].
  split; [exact HL|]. split; [rewrite HL; apply filter_length_le|].
  split; assumption.
Qed.

(** ** Readings in the order of time *)

Lemma LocallySorted_conj {A} (R S : A -> A -> Prop) l :
  LocallySorted R l -> LocallySorted S l ->
  LocallySorted (fun x y => R x y /\ S x y) l.
Proof.
  induction 1 as [|a|a b l H IH Hab]; intros HS; try constructor.
  - apply IH. inversion HS; assumption.
  - split; [exact Hab | inversion HS; assumption].
Qed.

Lemma LocallySorted_impl {A} (R S : A -> A -> Prop) l :
  (forall x y, R x y -> S x y) -> LocallySorted R l -> LocallySorted S l.
Proof. intros H. induction 1; constructor; auto. Qed.

Lemma strictly_later_trans p q r :
  strictly_later p q -> strictly_later q r -> strictly_later p r.
Proof.
  destruct p as [[t1 ?] ?], q as [[t2 ?] ?], r as [[t3 ?] ?].
  unfold strictly_later. lia.
Qed.

Lemma LocallySorted_strongly l :
  LocallySorted strictly_later l -> StronglySorted strictly_later l.
Proof.
  intros H. apply Sorted_StronglySorted.
  - intros p q r. apply strictly_later_trans.
  - apply Sorted_LocallySorted_iff. exact H.
Qed.

Lemma StronglySorted_locally {A} (R : A -> A -> Prop) l :
  StronglySorted R l -> LocallySorted R l.
Proof.
  intros H. apply Sorted_LocallySorted_iff, StronglySorted_Sorted. exact H.
Qed.

Lemma subsequence_strongly_sorted {A} (R : A -> A -> Prop) l1 l2 :
  subsequence l1 l2 -> StronglySorted R l2 -> StronglySorted R l1.
Proof.
  induction 1 as [|x l1 l2 Hs IH|x l1 l2 Hs IH]; intros H.
  - constructor.
  - inversion H as [|? ? H1 H2]; subst. constructor; [apply IH; exact H1|].
    rewrite Forall_forall in *. intros y Hy. apply H2.
    apply (subsequence_in _ _ _ Hs Hy).
  - inversion H; subst. apply IH. assumption.
Qed.

Lemma corrected_strongly_sorted els eos points corrected :
  Forall2 (corrected_from els eos) points corrected ->
  StronglySorted strictly_later points ->
  StronglySorted strictly_later corrected.
Proof.
  induction 1 as [|p p' points corrected Hc HF IH]; intros H; [constructor|].
  inversion H as [|? ? H1 H2]; subst. constructor; [apply IH; exact H1|].
  rewrite Forall_forall in *. intros q' Hq'.
  destruct (Forall2_in_right _ _ _ _ HF Hq') as (q & Hq & Hcq).
  specialize (H2 _ Hq).
  destruct p as [[t1 ?] ?], p' as [[t1' ?] ?], q as [[t2 ?] ?], q' as [[t2' ?] ?].
  destruct Hc as [-> _]. destruct Hcq as [-> _]. exact H2.
Qed.

Section SpeedChecked.
Context {L : Libm}.
Variables els eos : Z.

(** Readings in the order of time are all put to the speed test. *)
Lemma ordered_readings_are_speed_checked points c f s :
  LocallySorted strictly_later points ->
  sanity_check els eos points = Ok (c, f, s) ->
  LocallySorted speed_checked c.
Proof.
  intros HS H.
  assert (Hj : LocallySorted passes_jump_test c).
  { apply sanity_check_loop in H.
    apply loop_chain in H; [exact H | reflexivity | constructor]. }
  assert (Ht : LocallySorted strictly_later c).
  { apply sanity_check_loop, loop_subsequence in H.
    destruct H as (corrected & kept & HF & Hsub & HC).
    cbn [initial_state cleaned app] in HC. subst kept.
    apply StronglySorted_locally.
    apply (subsequence_strongly_sorted _ _ _ Hsub).
    apply (corrected_strongly_sorted _ _ _ _ HF).
    apply LocallySorted_strongly. exact HS. }
  apply (LocallySorted_impl
           (fun p q => strictly_later p q /\ passes_jump_test p q));
    [|apply LocallySorted_conj; assumption].
  intros p q HH.
  destruct p as [[prev_t prev_lat] prev_lon], q as [[t lat] lon].
  destruct HH as [Hl Hp]. unfold strictly_later in Hl.
  unfold passes_jump_test in Hp. cbv beta iota zeta in Hp.
  unfold speed_checked. cbv beta iota zeta.
  assert (Hdt : (0 <? total_seconds (datetime_sub t prev_t))%float = true).
  { apply total_seconds_positive. rewrite datetime_sub_instant. lia. }
  split; [exact Hl|]. split; [exact Hdt|].
  destruct Hp as [Hp | Hp]; [congruence | exact Hp].
Qed.
End SpeedChecked.

(** ** From the frames to the track *)


Section VideoTrack.
Context {L : Libm}.
Variables (start_dt : datetime) (texts : list text) (lat_sign lon_sign : Z).

Lemma video_track_steps gpx sm :
  video_track start_dt texts lat_sign lon_sign = Ok (gpx, sm) ->
  exists points cleaned,
    collect start_dt 0 texts [] = Ok points
    /\ sanity_check lat_sign lon_sign points
       = Ok (cleaned, sign_corrections sm, skipped_bad_jumps sm)
    /\ gpx = write_gpx cleaned
    /\ total_extracted sm = length points
    /\ final_kept sm = length cleaned.
Proof.
  unfold video_track.
  destruct (collect start_dt 0 texts []) as [points|e] eqn:Hc; cbn [bind];
    [|discriminate].
  destruct (sanity_check lat_sign lon_sign points) as [[[c f] s]|e] eqn:Hs;
    cbn [bind]; [|discriminate].
  intros H. injection H as <- <-. exists points, c.
  cbn [total_extracted sign_corrections skipped_bad_jumps final_kept].
  repeat split; try reflexivity. exact Hs.
Qed.

(** X14. In the track made of a video every point is later than the point
    before it, and was put to the speed test against it: the distance
    between the two is defined, and covering it in the time between them
    takes no more than 300 km/h.  The branch of the sanity check that keeps
    a reading unseen, when no time has passed, is never taken here. *)
Theorem video_track_is_speed_checked gpx sm :
  video_track start_dt texts lat_sign lon_sign = Ok (gpx, sm) ->
  exists cleaned,
    gpx = write_gpx cleaned
    /\ final_kept sm = length cleaned
    /\ LocallySorted speed_checked cleaned.
Proof.
  intros H. apply video_track_steps in H.
  destruct H as (points & cleaned & Hc & Hs & -> & _ & Hk).
  exists cleaned. split; [reflexivity|]. split; [exact Hk|].
  apply (collect_from start_dt texts 0 []) in Hc.
  destruct Hc as (new & -> & _ & Hsorted & _). cbn [app] in Hs.
  exact (ordered_readings_are_speed_checked _ _ _ _ _ _ Hsorted Hs).
Qed.

End VideoTrack.

Local Open Scope float_scope.

(** ** On concrete inputs *)

Lemma kept_neighbours_witness :
  passes_jump_test (L := Sample.libm)
    (noon, 43.5, -79) (noon_1, 43.50006103515625, -79).
Proof.
  apply (kept_neighbours_pass_the_jump_test (L := Sample.libm) 1 (-1)
           short_step short_step 0 0 []
           (noon, 43.5, -79) (noon_1, 43.50006103515625, -79) []).
  - vm_compute. reflexivity.
  - reflexivity.
Defined.

Lemma kept_signs_witness :
  Forall (signs_as_expected 1 (-1)) [(noon, 43, -79)].
Proof.
  apply (kept_readings_have_expected_signs (L := Sample.libm) 1 (-1)
           wrong_side [(noon, 43, -79)] 1 1).
  - left. reflexivity.
  - right. reflexivity.
  - vm_compute. reflexivity.
Defined.

Lemma idempotent_witness :
  sanity_check (L := Sample.libm) 1 (-1) [(noon, 43, -79)]
  = Ok ([(noon, 43, -79)], 0%nat, 0%nat).
Proof.
  apply (sanity_check_is_idempotent (L := Sample.libm) 1 (-1)
           wrong_side [(noon, 43, -79)] 1 1).
  - left. reflexivity.
  - right. reflexivity.
  - vm_compute. reflexivity.
Defined.

Lemma first_reading_witness :
  (exists p' c', [(noon, 43, -79)] = p' :: c'
                 /\ corrected_from 1 (-1) (noon, 43, -79) p')
  /\ (1 <= length [(noon_1, (-44)%float, (-79)%float)])%nat
  /\ (1 <= S (length [(noon_1, (-44)%float, (-79)%float)]))%nat.
Proof.
  apply (first_reading_is_kept (L := Sample.libm) 1 (-1)
           (noon, 43, -79) [(noon_1, -44, -79)] [(noon, 43, -79)] 1 1).
  vm_compute. reflexivity.
Defined.

Lemma earlier_output_witness :
  exists c1 f1 s1 c2,
    sanity_check (L := Sample.libm) 1 (-1) [(noon, 43, -79)] = Ok (c1, f1, s1)
    /\ [(noon, 43, -79)] = c1 ++ c2 /\ (f1 <= 1)%nat /\ (s1 <= 1)%nat.
Proof.
  apply (earlier_output_is_never_revised (L := Sample.libm) 1 (-1)
           [(noon, 43, -79)] [(noon_1, -44, -79)] [(noon, 43, -79)] 1 1).
  vm_compute. reflexivity.
Defined.

Lemma math_errors_witness :
  (ValueError = ValueError \/ ValueError = OverflowError)
  /\ (is_sign 1 -> is_sign 1 ->
      exists p q t1 lat1 lon1 t2 lat2 lon2,
        In p antipodes /\ In q antipodes
        /\ corrected_from 1 1 p (t1, lat1, lon1)
        /\ corrected_from 1 1 q (t2, lat2, lon2)
        /\ haversine (L := Sample.libm) lat1 lon1 lat2 lon2 = Raise ValueError).
Proof.
  apply (sanity_check_raises_only_math_errors (L := Sample.libm) 1 1
           antipodes ValueError).
  vm_compute. reflexivity.
Defined.

Lemma correcting_twice_witness :
  exists lat' lon' flipped,
    correct_sign (-44) (-79) 1 (-1) = Ok (lat', lon', flipped)
    /\ correct_sign lat' lon' 1 (-1) = Ok (lat', lon', [false; false]).
Proof.
  apply (correcting_twice_changes_nothing (-44) (-79) 1 (-1)).
  - left. reflexivity.
  - right. reflexivity.
Defined.

Lemma leftmost_longest_witness :
  exists before n1 seps1 ns fill n2 seps2 ew after v1 v2,
    lit "at 1.55.25 E" =
    before ++ n1 ++ seps1 ++ ns ++ fill ++ n2 ++ seps2 ++ ew ++ after
    /\ signed_decimal n1 /\ all_in is_sep seps1 /\ optional_letter is_ns ns
    /\ all_in is_filler fill
    /\ signed_decimal n2 /\ all_in is_sep seps2 /\ optional_letter is_ew ew
    /\ python_float n1 = Ok v1 /\ python_float n2 = Ok v2
    /\ 1.5 = hemisphere "S" ns v1 /\ 5.25 = hemisphere "W" ew v2
    /\ (forall b w a,
           lit "at 1.55.25 E" = b ++ w ++ a -> coordinate_shaped w ->
           (length before <= length b)%nat)
    /\ (forall n1' w' a',
           lit "at 1.55.25 E" = before ++ w' ++ a' ->
           coordinates_from n1' w' -> (length n1' <= length n1)%nat)
    /\ starts_with is_sep (ns ++ fill ++ n2 ++ seps2 ++ ew ++ after) = false
    /\ (ns = [] ->
        starts_with is_ns (fill ++ n2 ++ seps2 ++ ew ++ after) = false)
    /\ starts_with is_digit (seps2 ++ ew ++ after) = false
    /\ starts_with is_sep (ew ++ after) = false
    /\ (ew = [] -> starts_with is_ew after = false).
Proof.
  apply (reading_is_the_leftmost_longest_match (lit "at 1.55.25 E") 1.5 5.25).
  vm_compute. reflexivity.
Defined.


Lemma video_track_witness :
  exists cleaned,
    write_gpx three_frames_track = write_gpx cleaned
    /\ final_kept (Summary 2 0 0 2) = length cleaned
    /\ LocallySorted (speed_checked (L := Sample.libm)) cleaned.
Proof.
  apply (video_track_is_speed_checked (L := Sample.libm) noon three_frames
           1 (-1) (write_gpx three_frames_track) (Summary 2 0 0 2)).
  vm_compute. reflexivity.
Defined.

